(** * Athena++ chemistry and radiation glue: a shallow embedding

    Part I holds the definitions, following the layout of the repository:

    - [Loops]      : counted [for] loops over [int] indices;
    - [Radiation]  : [Radiation::CalculateMoment] and the angle count of
                     the constructor (src/radiation/radiation.cpp);
    - [Wrapper]    : [NetworkWrapper::WrapRHS] and [WrapJacobian]
                     (src/chemistry/network_wrapper.cpp);
    - [RadIntegrator] : [RadIntegrator::CopyToOutput]
                     (src/radiation/integrators/const.cpp);
    - [GOW16]      : the chemical network declared in
                     src/chemistry/network/gow16.hpp;
    - [SchildWHPgen] : the metric, the constants, the root finders and
                     the primitives of src/pgen/SchildWH.cpp.

    Part II holds the theorems about them, module by module.

    Floating-point numbers ([Real], [realtype]) are kept abstract in the
    radiation and wrapper parts: the carrier and its operations are class
    members, no algebraic law is assumed of them, so the results hold for
    IEEE doubles as well as for exact numbers. The chemical network and
    the wormhole metric are stated over the real numbers; the root finders
    are written over any arithmetic and run over the reals and the
    rationals. *)

From Stdlib Require Import List ZArith Lia Reals Ranalysis5 Lra.
From Stdlib Require QArith Qabs Qreduction.
Import ListNotations.

(* ================================================================== *)
(** * Part I: definitions *)

(* ------------------------------------------------------------------ *)
(** ** Counted loops *)

Module Loops.

(** The indices visited by [for (int i = 0; i < n; ++i)]. *)
Definition range (n : Z) : list Z := map Z.of_nat (seq 0 (Z.to_nat n)).

(** [for (int i = 0; i < n; ++i) body], threading the state [s]. *)
Definition for_loop {St : Type} (n : Z) (body : Z -> St -> St) (s : St) : St :=
  fold_left (fun st i => body i st) (range n) s.

(** [for (int i = lo; i <= hi; ++i) body]. *)
Definition for_range {St : Type} (lo hi : Z) (body : Z -> St -> St) (s : St)
  : St :=
  for_loop (hi - lo + 1) (fun m => body (lo + m)%Z) s.

End Loops.

(* ------------------------------------------------------------------ *)
(** ** Radiation moments (src/radiation/radiation.cpp) *)

Module Radiation.
Import Loops.

(** The floating-point carrier with the three literals ([0.0], [4.0], [PI])
    and the two operations that [CalculateMoment] uses. *)
Class FloatOps (Real : Type) := {
  zero : Real;
  four : Real;
  PI : Real;
  add : Real -> Real -> Real;
  mul : Real -> Real -> Real
}.

(** Enumerators of athena.hpp naming the 13 slots of [rad_mom], and the
    macro [NGHOST] of defs.hpp; their numeric values are not part of
    radiation.cpp. *)
Class MomentLayout := {
  NGHOST : Z;
  ER : Z; FR1 : Z; FR2 : Z; FR3 : Z;
  PR11 : Z; PR12 : Z; PR13 : Z;
  PR21 : Z; PR22 : Z; PR23 : Z;
  PR31 : Z; PR32 : Z; PR33 : Z
}.

Definition moment_slots `{MomentLayout} : list Z :=
  [ER; FR1; FR2; FR3; PR11; PR12; PR13; PR21; PR22; PR23; PR31; PR32; PR33].

(** What radiation.cpp relies on: the 13 enumerators are distinct and index
    the 13 planes allocated by [rad_mom.NewAthenaArray(13,...)]. *)
Definition layout_ok `{MomentLayout} : Prop :=
  NoDup moment_slots /\ Forall (fun n => 0 <= n < 13)%Z moment_slots.

Section Moments.
Context {Real : Type} `{FloatOps Real} `{MomentLayout}.

(** [AthenaArray<Real>] of rank 1, 4 and 5, accessed with [operator()]. *)
Definition Array1 := Z -> Real.
Definition Array4 := Z -> Z -> Z -> Z -> Real.
Definition Array5 := Z -> Z -> Z -> Z -> Z -> Real.

Record RegionSize := { nx1 : Z; nx2 : Z; nx3 : Z }.

(** The members of [class Radiation] that [CalculateMoment] touches. *)
Record RadiationObj := {
  block_size : RegionSize;   (* pmy_block->block_size *)
  nfreq : Z;
  nang : Z;
  ir : Array5;
  mu : Array5;
  wmu : Array1;
  wfreq : Array1;
  rad_mom : Array4
}.

(** [a(n,k,j,i) = v] *)
Definition store (a : Array4) (n k j i : Z) (v : Real) : Array4 :=
  fun n' k' j' i' =>
    if ((n' =? n) && (k' =? k) && (j' =? j) && (i' =? i))%Z%bool
    then v else a n' k' j' i'.

(** [a(n,k,j,i) += v] *)
Definition accum (a : Array4) (k j i : Z) (nv : Z * Real) : Array4 :=
  store a (fst nv) k j i (add (a (fst nv) k j i) (snd nv)).

(** The ten running sums of the angular quadrature. *)
Record Sums := {
  er : Real; frx : Real; fry : Real; frz : Real;
  prxx : Real; pryy : Real; przz : Real;
  prxy : Real; prxz : Real; pryz : Real
}.

Definition sums0 : Sums :=
  {| er := zero; frx := zero; fry := zero; frz := zero;
     prxx := zero; pryy := zero; przz := zero;
     prxy := zero; prxz := zero; pryz := zero |}.

(** Body of the loop over angles [n]; products associate to the left as in
    [weight[n] * intensity[n] * cosx[n] * cosy[n]]. The loop is marked
    [#pragma simd]; it is run here in index order. *)
Definition angle_step (weight intensity cosx cosy cosz : Z -> Real)
           (n : Z) (s : Sums) : Sums :=
  let wi := mul (weight n) (intensity n) in
  {| er   := add (er s) wi;
     frx  := add (frx s) (mul wi (cosx n));
     fry  := add (fry s) (mul wi (cosy n));
     frz  := add (frz s) (mul wi (cosz n));
     prxx := add (prxx s) (mul (mul wi (cosx n)) (cosx n));
     pryy := add (pryy s) (mul (mul wi (cosy n)) (cosy n));
     przz := add (przz s) (mul (mul wi (cosz n)) (cosz n));
     prxy := add (prxy s) (mul (mul wi (cosx n)) (cosy n));
     prxz := add (prxz s) (mul (mul wi (cosx n)) (cosz n));
     pryz := add (pryz s) (mul (mul wi (cosy n)) (cosz n)) |}.

(** [x *= wfreq(ifr)] for each of the ten sums. *)
Definition scale (w : Real) (s : Sums) : Sums :=
  {| er := mul (er s) w; frx := mul (frx s) w; fry := mul (fry s) w;
     frz := mul (frz s) w;
     prxx := mul (prxx s) w; pryy := mul (pryy s) w; przz := mul (przz s) w;
     prxy := mul (prxy s) w; prxz := mul (prxz s) w; pryz := mul (pryz s) w |}.

(** [x * 4.0 * PI] *)
Definition times_4pi (x : Real) : Real := mul (mul x four) PI.

(** The thirteen statements [i_mom(SLOT,k,j,i) += value * 4.0 * PI], in
    program order. *)
Definition assignments (s : Sums) : list (Z * Real) :=
  [ (ER,   times_4pi (er s));
    (FR1,  times_4pi (frx s));
    (FR2,  times_4pi (fry s));
    (FR3,  times_4pi (frz s));
    (PR11, times_4pi (prxx s));
    (PR12, times_4pi (prxy s));
    (PR13, times_4pi (prxz s));
    (PR21, times_4pi (prxy s));
    (PR22, times_4pi (pryy s));
    (PR23, times_4pi (pryz s));
    (PR31, times_4pi (prxz s));
    (PR32, times_4pi (pryz s));
    (PR33, times_4pi (przz s)) ].

Definition assign_all (l : list (Z * Real)) (k j i : Z) (a : Array4) : Array4 :=
  fold_left (fun a' nv => accum a' k j i nv) l a.

(** Sums of one cell and one frequency, after the frequency weight.
    [intensity], [cosx], [cosy], [cosz] point at the angle-0 entry of the
    cell, so [intensity[n]] is [ir(ifr,k,j,i,n)]. *)
Definition cell_sums (r : RadiationObj) (ifr k j i : Z) : Sums :=
  let weight := wmu r in
  let intensity := ir r ifr k j i in
  let cosx := mu r 0%Z k j i in
  let cosy := mu r 1%Z k j i in
  let cosz := mu r 2%Z k j i in
  scale (wfreq r ifr)
        (for_loop (nang r) (angle_step weight intensity cosx cosy cosz) sums0).

(** Body of the innermost cell loop. *)
Definition cell_body (r : RadiationObj) (ifr k j i : Z) (a : Array4) : Array4 :=
  assign_all (assignments (cell_sums r ifr k j i)) k j i a.

Definition n1z (r : RadiationObj) : Z := (nx1 (block_size r) + 2 * NGHOST)%Z.

Definition n2z (r : RadiationObj) : Z :=
  let n := nx2 (block_size r) in
  if (n >? 1)%Z then (n + 2 * NGHOST)%Z else n.

Definition n3z (r : RadiationObj) : Z :=
  let n := nx3 (block_size r) in
  if (n >? 1)%Z then (n + 2 * NGHOST)%Z else n.

(** First loop nest: the 13 planes of every visited cell are set to [0.0]. *)
Definition reset_moments (r : RadiationObj) (a : Array4) : Array4 :=
  for_loop 13 (fun n =>
    for_loop (n3z r) (fun k =>
      for_loop (n2z r) (fun j =>
        for_loop (n1z r) (fun i a' => store a' n k j i zero)))) a.

(** Second loop nest: frequencies, then cells. *)
Definition accumulate_moments (r : RadiationObj) (a : Array4) : Array4 :=
  for_loop (nfreq r) (fun ifr =>
    for_loop (n3z r) (fun k =>
      for_loop (n2z r) (fun j =>
        for_loop (n1z r) (fun i => cell_body r ifr k j i)))) a.

(** [Radiation::CalculateMoment]: [i_mom] is a shallow copy of [rad_mom], so
    every write lands in [rad_mom]; nothing else is modified. *)
Definition CalculateMoment (r : RadiationObj) : RadiationObj :=
  {| block_size := block_size r;
     nfreq := nfreq r;
     nang := nang r;
     ir := ir r;
     mu := mu r;
     wmu := wmu r;
     wfreq := wfreq r;
     rad_mom := accumulate_moments r (reset_moments r (rad_mom r)) |}.

(** Extents of [rad_mom] as the constructor [Radiation::Radiation]
    allocates it: [rad_mom.NewAthenaArray(13,n3z,n2z,n1z)]. *)
Definition ndim (r : RadiationObj) : Z :=
  if (nx3 (block_size r) >? 1)%Z then 3%Z
  else if (nx2 (block_size r) >? 1)%Z then 2%Z else 1%Z.

Definition alloc_n1z (r : RadiationObj) : Z :=
  (nx1 (block_size r) + 2 * NGHOST)%Z.

Definition alloc_n2z (r : RadiationObj) : Z :=
  if (ndim r =? 1)%Z then 1%Z else (nx2 (block_size r) + 2 * NGHOST)%Z.

Definition alloc_n3z (r : RadiationObj) : Z :=
  if (ndim r =? 3)%Z then (nx3 (block_size r) + 2 * NGHOST)%Z else 1%Z.

(** The cells that the constructor allocates. *)
Definition in_alloc (r : RadiationObj) (k j i : Z) : Prop :=
  (0 <= k < alloc_n3z r)%Z /\ (0 <= j < alloc_n2z r)%Z /\
  (0 <= i < alloc_n1z r)%Z.

(** A block as the mesh builds it: at least one cell in each direction, and
    no third dimension without a second. *)
Definition block_ok (r : RadiationObj) : Prop :=
  (1 <= nx2 (block_size r))%Z /\ (1 <= nx3 (block_size r))%Z /\
  ((1 < nx3 (block_size r))%Z -> (1 < nx2 (block_size r))%Z).

(** The value that the statements of radiation.cpp give to one moment of a
    cell: starting from [0.0], one term [pick * 4.0 * PI] per frequency, added
    in the order of the frequency loop; [pick] selects the angular sum. *)
Definition frequency_sum (r : RadiationObj) (pick : Sums -> Real)
           (k j i : Z) : Real :=
  for_loop (nfreq r)
           (fun ifr acc => add acc (times_4pi (pick (cell_sums r ifr k j i))))
           zero.

(** The pressure tensor of one cell is symmetric. *)
Definition symmetric_at (a : Array4) (k j i : Z) : Prop :=
  a PR12 k j i = a PR21 k j i /\
  a PR13 k j i = a PR31 k j i /\
  a PR23 k j i = a PR32 k j i.

(** The cells that [CalculateMoment] visits. *)
Definition in_block (r : RadiationObj) (k j i : Z) : Prop :=
  (0 <= k < n3z r)%Z /\ (0 <= j < n2z r)%Z /\ (0 <= i < n1z r)%Z.

End Moments.

(** Arithmetic on [int]: the values of a 32-bit [int], and a product or a
    sum that has a value only when it is one of them (signed overflow is
    undefined in the source language, so the model gives it no value). *)
Definition INT_MIN : Z := (-2147483648)%Z.
Definition INT_MAX : Z := 2147483647%Z.

Definition in_int (x : Z) : bool :=
  andb (INT_MIN <=? x)%Z (x <=? INT_MAX)%Z.

Definition int_add (x y : Z) : option Z :=
  if in_int (x + y) then Some (x + y)%Z else None.

Definition int_mul (x y : Z) : option Z :=
  if in_int (x * y) then Some (x * y)%Z else None.

Definition int_then (o : option Z) (f : Z -> option Z) : option Z :=
  match o with Some x => f x | None => None end.

(** The integer part of the constructor [Radiation::Radiation]: the number
    of octants and the total number of angles [nang = n_ang * noct], from
    the parameters [nmu] and [angle_flag] and the block size. [n_ang] is
    declared without initialiser; [junk] is what it holds when no branch
    assigns it. The division of [int]s truncates ([Z.quot]). *)
Definition ctor_ndim (bs : RegionSize) : Z :=
  if (nx3 bs >? 1)%Z then 3%Z else if (nx2 bs >? 1)%Z then 2%Z else 1%Z.

Definition ctor_noct (bs : RegionSize) : Z :=
  if (ctor_ndim bs =? 1)%Z then 2%Z
  else if (ctor_ndim bs =? 2)%Z then 4%Z else 8%Z.

(** [nmu * (nmu + 1)/2] and [nmu * nmu/2] *)
Definition triangle_count (nmu : Z) : option Z :=
  int_then (int_add nmu 1) (fun m =>
  int_then (int_mul nmu m) (fun p => Some (Z.quot p 2))).

Definition half_square (nmu : Z) : option Z :=
  int_then (int_mul nmu nmu) (fun p => Some (Z.quot p 2)).

Definition ctor_n_ang (nmu angle_flag : Z) (bs : RegionSize) (junk : Z)
  : option Z :=
  if (ctor_ndim bs =? 1)%Z then Some nmu
  else if (ctor_ndim bs =? 2)%Z then
    if (angle_flag =? 0)%Z then triangle_count nmu
    else if (angle_flag =? 10)%Z then Some nmu
    else Some junk
  else
    if (angle_flag =? 0)%Z then triangle_count nmu
    else if (angle_flag =? 10)%Z then half_square nmu
    else Some junk.

Definition ctor_nang (nmu angle_flag : Z) (bs : RegionSize) (junk : Z)
  : option Z :=
  int_then (ctor_n_ang nmu angle_flag bs junk) (fun n_ang =>
  int_mul n_ang (ctor_noct bs)).


Arguments RadiationObj Real : clear implicits.
Arguments Array4 Real : clear implicits.
Arguments Sums Real : clear implicits.

(** A concrete instance used to run the code: exact integer arithmetic, with
    [3] standing for [PI], two ghost zones, and the slots numbered in the
    order in which radiation.cpp assigns them. *)
Definition Z_ops : FloatOps Z :=
  {| zero := 0%Z; four := 4%Z; PI := 3%Z; add := Z.add; mul := Z.mul |}.

Definition sample_layout : MomentLayout :=
  {| NGHOST := 2;
     ER := 0; FR1 := 1; FR2 := 2; FR3 := 3;
     PR11 := 4; PR12 := 5; PR13 := 6;
     PR21 := 7; PR22 := 8; PR23 := 9;
     PR31 := 10; PR32 := 11; PR33 := 12 |}%Z.

(** A one-dimensional block of one active cell, two frequencies, three
    angles, and a moment array filled with asymmetric junk beforehand. *)
Definition sample_rad : RadiationObj Z :=
  {| block_size := {| nx1 := 1; nx2 := 1; nx3 := 1 |};
     nfreq := 2;
     nang := 3;
     ir := fun ifr k j i n => (1 + ifr + i + n)%Z;
     mu := fun d k j i n => (d + 1 + n - i)%Z;
     wmu := fun n => (n + 1)%Z;
     wfreq := fun ifr => (ifr + 2)%Z;
     rad_mom := fun n k j i => (n * 7 + i)%Z |}.

(** [rad_mom] after running [CalculateMoment] on the sample block. *)
Definition sample_moments : Array4 Z :=
  rad_mom (@CalculateMoment Z Z_ops sample_layout sample_rad).

End Radiation.

(* ------------------------------------------------------------------ *)
(** ** CVODE call-backs (src/chemistry/network_wrapper.cpp) *)

Module Wrapper.
Import Loops.

(** The two floating-point types that meet in the wrappers: [Real] of
    Athena++ and [realtype] of SUNDIALS, with the implicit conversions of
    [Real t1 = t], [y1[i] = NV_Ith_S(y, i)] and [NV_Ith_S(ydot, i) = ydot1[i]]. *)
Class Floats (Real realtype : Type) := {
  to_Real : realtype -> Real;
  of_Real : Real -> realtype
}.

(** A C array [Real a[NSPECIES]], and the rows of [Real jac[NSPECIES][NSPECIES]]. *)
Definition Arr (Real : Type) := Z -> Real.
Definition Mat (Real : Type) := Z -> Z -> Real.

(** What [Jacobian] leaves in its four output arguments. *)
Record JacOut (Real : Type) := {
  out_jac : Mat Real;
  out_tmp1 : Arr Real;
  out_tmp2 : Arr Real;
  out_tmp3 : Arr Real
}.
Arguments out_jac {Real}.
Arguments out_tmp1 {Real}.
Arguments out_tmp2 {Real}.
Arguments out_tmp3 {Real}.

(** The virtual interface of [class NetworkWrapper]: [RHS] and [Jacobian]
    are implemented by the network (e.g. [ChemNetwork]). Neither is [const]:
    each receives the object and returns it, possibly changed, with what it
    wrote into its output arrays; the arrays are passed with the content
    they hold at the call. *)
Class NetworkWrapper (Real Obj : Type) := {
  RHS : Obj -> Real -> Arr Real -> Arr Real -> Obj * Arr Real;
  Jacobian : Obj -> Real -> Arr Real -> Arr Real ->
             Mat Real -> Arr Real -> Arr Real -> Arr Real ->
             Obj * JacOut Real
}.

Section Wrappers.
Context {Real realtype Obj : Type}.
Context `{Floats Real realtype} `{NetworkWrapper Real Obj}.

(** Macro of defs.hpp: the number of integrated species. *)
Variable NSPECIES : Z.

(** The content of an [N_Vector] ([NV_Ith_S]) and of a [DlsMat]
    ([DENSE_ELEM]). *)
Definition N_Vector := Z -> realtype.
Definition DlsMat := Z -> Z -> realtype.

(** The indices of the loops [for (int i=0; i<NSPECIES; i++)]. *)
Definition in_species (i : Z) : bool := ((0 <=? i) && (i <? NSPECIES))%Z%bool.

(** [a[i] = v] *)
Definition upd {A : Type} (a : Z -> A) (i : Z) (v : A) : Z -> A :=
  fun i' => if (i' =? i)%Z then v else a i'.

(** [m[i][j] = v] *)
Definition upd2 {A : Type} (m : Z -> Z -> A) (i j : Z) (v : A) : Z -> Z -> A :=
  fun i' j' => if ((i' =? i) && (j' =? j))%Z%bool then v else m i' j'.

(** What the local arrays of a wrapper hold before they are written: they
    are declared without initialiser. *)
Record Locals := {
  junk_y1 : Arr Real;
  junk_fy1 : Arr Real;
  junk_ydot1 : Arr Real;
  junk_jac1 : Mat Real;
  junk_tmp11 : Arr Real;
  junk_tmp21 : Arr Real;
  junk_tmp31 : Arr Real
}.

(** What [WrapRHS] leaves behind: the returned flag, the vector [ydot] and
    the object behind [user_data]. *)
Record RHSResult := {
  rhs_flag : Z;
  rhs_ydot : N_Vector;
  rhs_obj : Obj
}.

(** What [WrapJacobian] leaves behind. *)
Record JacResult := {
  jac_flag : Z;
  jac_jac : DlsMat;
  jac_tmp1 : N_Vector;
  jac_tmp2 : N_Vector;
  jac_tmp3 : N_Vector;
  jac_obj : Obj
}.

(** [for (i...) y1[i] = NV_Ith_S(y, i);] *)
Definition copy_in (v : N_Vector) (a : Arr Real) : Arr Real :=
  for_loop NSPECIES (fun i a' => upd a' i (to_Real (v i))) a.

(** [for (i...) NV_Ith_S(v, i) = a[i];] *)
Definition copy_out (a : Arr Real) (v : N_Vector) : N_Vector :=
  for_loop NSPECIES (fun i v' => upd v' i (of_Real (a i))) v.

(** [NetworkWrapper::WrapRHS]; [user_data] is the network object. *)
Definition WrapRHS (t : realtype) (y ydot : N_Vector) (user_data : Obj)
           (loc : Locals) : RHSResult :=
  let t1 := to_Real t in
  let y1 := copy_in y (junk_y1 loc) in
  let ydot1 := junk_ydot1 loc in
  let meptr := user_data in
  let '(meptr', ydot1') := RHS meptr t1 y1 ydot1 in
  let ydot' := copy_out ydot1' ydot in
  {| rhs_flag := 0; rhs_ydot := ydot'; rhs_obj := meptr' |}.

(** The first loop of [WrapJacobian] fills [y1] and [fy1] together. *)
Definition copy_in2 (y fy : N_Vector) (a : Arr Real * Arr Real)
  : Arr Real * Arr Real :=
  for_loop NSPECIES
    (fun i st => (upd (fst st) i (to_Real (y i)),
                  upd (snd st) i (to_Real (fy i)))) a.

(** The loop that returns [tmp1], [tmp2], [tmp3]. *)
Definition copy_out3 (o : JacOut Real) (v : N_Vector * N_Vector * N_Vector)
  : N_Vector * N_Vector * N_Vector :=
  for_loop NSPECIES
    (fun i st =>
       let '(v1, v2, v3) := st in
       (upd v1 i (of_Real (out_tmp1 o i)),
        upd v2 i (of_Real (out_tmp2 o i)),
        upd v3 i (of_Real (out_tmp3 o i)))) v.

(** The double loop that returns the matrix. *)
Definition copy_out_mat (m : Mat Real) (jac : DlsMat) : DlsMat :=
  for_loop NSPECIES (fun i =>
    for_loop NSPECIES (fun j jac' => upd2 jac' i j (of_Real (m i j)))) jac.

(** [NetworkWrapper::WrapJacobian]; the dimension [n] is not used. *)
Definition WrapJacobian (n : Z) (t : realtype) (y fy : N_Vector) (jac : DlsMat)
           (user_data : Obj) (tmp1 tmp2 tmp3 : N_Vector) (loc : Locals)
  : JacResult :=
  let t1 := to_Real t in
  let '(y1, fy1) := copy_in2 y fy (junk_y1 loc, junk_fy1 loc) in
  let meptr := user_data in
  let '(meptr', o) :=
    Jacobian meptr t1 y1 fy1 (junk_jac1 loc)
             (junk_tmp11 loc) (junk_tmp21 loc) (junk_tmp31 loc) in
  let '(tmp1', tmp2', tmp3') := copy_out3 o (tmp1, tmp2, tmp3) in
  let jac' := copy_out_mat (out_jac o) jac in
  {| jac_flag := 0; jac_jac := jac'; jac_tmp1 := tmp1'; jac_tmp2 := tmp2';
     jac_tmp3 := tmp3'; jac_obj := meptr' |}.

(** Two arrays that agree on the entries of the species. *)
Definition agree_on_species {A : Type} (a b : Z -> A) : Prop :=
  forall i, in_species i = true -> a i = b i.

(** A network whose [RHS] reads [y] only at the species and writes every
    species entry of [ydot]: its answer and its new state do not depend on
    the other entries of [y] nor on what [ydot] held. *)
Definition RHS_confined : Prop :=
  forall (obj : Obj) (t : Real) (y1 y1' d d' : Arr Real),
    agree_on_species y1 y1' ->
    fst (RHS obj t y1 d) = fst (RHS obj t y1' d') /\
    agree_on_species (snd (RHS obj t y1 d)) (snd (RHS obj t y1' d')).

(** The same for [Jacobian] and the block of the matrix that it fills. *)
Definition Jacobian_confined : Prop :=
  forall (obj : Obj) (t : Real) (y1 y1' fy1 fy1' : Arr Real)
         (m m' : Mat Real) (a1 a1' a2 a2' a3 a3' : Arr Real),
    agree_on_species y1 y1' -> agree_on_species fy1 fy1' ->
    fst (Jacobian obj t y1 fy1 m a1 a2 a3) =
      fst (Jacobian obj t y1' fy1' m' a1' a2' a3') /\
    forall i j, in_species i = true -> in_species j = true ->
      out_jac (snd (Jacobian obj t y1 fy1 m a1 a2 a3)) i j =
      out_jac (snd (Jacobian obj t y1' fy1' m' a1' a2' a3')) i j.

End Wrappers.

Arguments Locals Real : clear implicits.
Arguments RHSResult realtype Obj : clear implicits.
Arguments JacResult realtype Obj : clear implicits.

(** A small network to run the wrappers on: two species over the integers,
    [ydot = (-y0, y0 - 2 y1)], its constant Jacobian, and a call counter as
    object state. *)
Definition toy_floats : Floats Z Z := {| to_Real := fun x => x; of_Real := fun x => x |}.

Definition toy_network : NetworkWrapper Z nat :=
  {| RHS := fun calls t y ydot =>
       (S calls, upd (upd ydot 0 (- y 0)) 1 (y 0 - 2 * y 1))%Z;
     Jacobian := fun calls t y fy jac tmp1 tmp2 tmp3 =>
       (S calls,
        {| out_jac := upd2 (upd2 (upd2 (upd2 jac 0 0 (-1)) 0 1 0) 1 0 1) 1 1 (-2);
           out_tmp1 := tmp1; out_tmp2 := tmp2; out_tmp3 := tmp3 |})%Z |}.

Definition toy_locals : Locals Z :=
  {| junk_y1 := fun _ => 11; junk_fy1 := fun _ => 12; junk_ydot1 := fun _ => 13;
     junk_jac1 := fun _ _ => 14; junk_tmp11 := fun _ => 15;
     junk_tmp21 := fun _ => 16; junk_tmp31 := fun _ => 17 |}%Z.

(** Other stack content for the same call. *)
Definition toy_locals' : Locals Z :=
  {| junk_y1 := fun i => i; junk_fy1 := fun _ => 0; junk_ydot1 := fun i => - i;
     junk_jac1 := fun i j => i + j; junk_tmp11 := fun _ => 1;
     junk_tmp21 := fun _ => 2; junk_tmp31 := fun _ => 3 |}%Z.

Definition toy_y : Z -> Z := fun i => (10 * (i + 1))%Z.

Definition toy_rhs : RHSResult Z nat :=
  @WrapRHS Z Z nat toy_floats toy_network 2 0%Z toy_y (fun _ => 99%Z) 0%nat
           toy_locals.

Definition toy_jac : JacResult Z nat :=
  @WrapJacobian Z Z nat toy_floats toy_network 2 2%Z 0%Z toy_y (fun _ => 0%Z)
                (fun _ _ => 99%Z) 0%nat (fun _ => 1%Z) (fun _ => 2%Z)
                (fun _ => 3%Z) toy_locals.

End Wrapper.

(* ------------------------------------------------------------------ *)
(** ** Constant radiation (src/radiation/integrators/const.cpp) *)

Module RadIntegrator.
Import Loops.

(** The index bounds of the active zone of the block ([pmy_mb->is] ...). *)
Record BlockBounds := {
  is_ : Z;   (* [is]; the name is reserved in Rocq *)
  ie : Z; js : Z; je : Z; ks : Z; ke : Z
}.

(** The members of the radiation object that [CopyToOutput] touches; both
    arrays are accessed with four indices: [ir(k,j,i,n)] and
    [ir_avg(ifreq,k,j,i)]. *)
Record RadFields (Real : Type) := {
  nfreq : Z;
  nang : Z;
  ir : Z -> Z -> Z -> Z -> Real;
  ir_avg : Z -> Z -> Z -> Z -> Real
}.
Arguments nfreq {Real}.
Arguments nang {Real}.
Arguments ir {Real}.
Arguments ir_avg {Real}.

(** [a(n,k,j,i) = v] *)
Definition store4 {Real : Type} (a : Z -> Z -> Z -> Z -> Real) (n k j i : Z)
           (v : Real) : Z -> Z -> Z -> Z -> Real :=
  fun n' k' j' i' =>
    if ((n' =? n) && (k' =? k) && (j' =? j) && (i' =? i))%Z%bool
    then v else a n' k' j' i'.

(** [RadIntegrator::CopyToOutput]; [NGHOST] is the macro of defs.hpp. *)
Definition CopyToOutput {Real : Type} (NGHOST : Z) (mb : BlockBounds)
           (rad : RadFields Real) : RadFields Real :=
  {| nfreq := nfreq rad;
     nang := nang rad;
     ir := ir rad;
     ir_avg :=
       for_range (ks mb - NGHOST) (ke mb + NGHOST) (fun k =>
         for_range (js mb - NGHOST) (je mb + NGHOST) (fun j =>
           for_range (is_ mb - NGHOST) (ie mb + NGHOST) (fun i =>
             for_loop (nfreq rad) (fun ifreq a =>
               store4 a ifreq k j i (ir rad k j i (ifreq * nang rad)%Z)))))
         (ir_avg rad) |}.

(** The entries of [ir_avg] that [CopyToOutput] writes: every frequency of
    every cell of the block, [NGHOST] layers of ghost zones included in each
    of the three directions. *)
Definition copied (NGHOST : Z) (mb : BlockBounds) (nf : Z) (ifreq k j i : Z)
  : Prop :=
  (0 <= ifreq < nf)%Z /\
  (ks mb - NGHOST <= k <= ke mb + NGHOST)%Z /\
  (js mb - NGHOST <= j <= je mb + NGHOST)%Z /\
  (is_ mb - NGHOST <= i <= ie mb + NGHOST)%Z.

(** [ir_avg] and [ir] are allocated by code that is not part of the
    sources. With [(n3z, n2z, n1z)] for the extents of their cell indices,
    the loops of [CopyToOutput] stay inside the arrays when the block has
    its [NGHOST] ghost layers in each of the three directions; on a block
    with a single layer in [j] or [k] ([js = je = 0]) they index below
    zero. *)
Definition loops_in_extents (NGHOST : Z) (mb : BlockBounds) (n3z n2z n1z : Z)
  : Prop :=
  (0 <= ks mb - NGHOST /\ ke mb + NGHOST < n3z)%Z /\
  (0 <= js mb - NGHOST /\ je mb + NGHOST < n2z)%Z /\
  (0 <= is_ mb - NGHOST /\ ie mb + NGHOST < n1z)%Z.

(** A two-frequency, three-angle sample on a three-dimensional block of
    4 x 2 x 2 cells with two ghost layers: extents 8 x 6 x 6. *)
Definition sample_bounds : BlockBounds :=
  {| is_ := 2; ie := 5; js := 2; je := 3; ks := 2; ke := 3 |}.

Definition sample_fields : RadFields Z :=
  {| nfreq := 2; nang := 3;
     ir := fun k j i n => (1000 * k + 100 * j + 10 * i + n)%Z;
     ir_avg := fun _ _ _ _ => (-1)%Z |}.

End RadIntegrator.

(* ------------------------------------------------------------------ *)
(** ** The GOW16 chemical network (src/chemistry/network/gow16.hpp)

    The header declares the class [ChemNetwork]: its constants, its fields
    and the signatures of its member functions. The bodies (gow16.cpp) and
    the values of the static tables are not part of the sources, so the
    member functions below are modelled from the specification, over the
    data that the header declares; where the specification leaves a form
    open, or gives two readings, the form is a parameter of the model.
    Abundances and rates are exact real numbers: rounding is not
    modelled. *)

Module GOW16.
Import Loops.
#[local] Open Scope R_scope.

(** The species indices of the header ([static const int iHeplus_] ...
    [igH_]). Their numeric values live in gow16.cpp; they are kept apart by
    construction. The first thirteen are integrated by the solver, the last
    six are the ghost species ([ngs_ = 6]). *)
Inductive Species : Type :=
| iHeplus_ | iOHx_ | iCHx_ | iCO_ | iCplus_ | iHCOplus_ | iH2_
| iHplus_ | iH3plus_ | iH2plus_ | iOplus_ | iSiplus_ | iE_
| igSi_ | igC_ | igO_ | igHe_ | ige_ | igH_.

Definition Species_eq_dec (a b : Species) : {a = b} + {a <> b}.
Proof. decide equality. Defined.

Definition tracked_species : list Species :=
  [iHeplus_; iOHx_; iCHx_; iCO_; iCplus_; iHCOplus_; iH2_;
   iHplus_; iH3plus_; iH2plus_; iOplus_; iSiplus_; iE_].

Definition ghost_species : list Species :=
  [igSi_; igC_; igO_; igHe_; ige_; igH_].

(** Sizes of the reaction families and of the radiation vector (header). *)
Definition ngs_ : Z := 6.
Definition n_cr_ : Z := 7.
Definition n_2body_ : Z := 31.
Definition n_ph_ : Z := 6.
Definition n_gr_ : Z := 5.
Definition n_freq_ : Z := n_ph_ + 2.
Definition index_gpe_ : Z := n_ph_.
Definition index_cr_ : Z := n_ph_ + 1.
Definition n_cols_ : Z := 4.

(** An abundance vector [y[NSPECIES+ngs_]]. A vector of tracked abundances
    [y[NSPECIES]] is the same map read at the tracked species only. *)
Definition Abundance := Species -> R.

(** [Real jac[..][..]]: row = species whose derivative is taken, column =
    species with respect to which. *)
Definition Matrix := Species -> Species -> R.

(** The elements whose budget fixes a ghost species. *)
Inductive Element : Type := elH | elHe | elC | elO | elSi.

(** The ghost species that holds the remainder of an element. *)
Definition ghost_of (e : Element) : Species :=
  match e with
  | elH => igH_ | elHe => igHe_ | elC => igC_ | elO => igO_ | elSi => igSi_
  end.

(** Which tracked species contain an element, read off the species names. *)
Definition contains (e : Element) (s : Species) : bool :=
  match e, s with
  | elHe, iHeplus_ => true
  | elC, (iCHx_ | iCO_ | iCplus_ | iHCOplus_) => true
  | elO, (iOHx_ | iCO_ | iHCOplus_ | iOplus_) => true
  | elSi, iSiplus_ => true
  | elH, (iOHx_ | iCHx_ | iHCOplus_ | iH2_ | iHplus_ | iH3plus_ | iH2plus_) => true
  | _, _ => false
  end.

(** The positive ions among the tracked species. *)
Definition is_positive_ion (s : Species) : bool :=
  match s with
  | iHeplus_ | iCplus_ | iHCOplus_ | iHplus_ | iH3plus_ | iH2plus_
  | iOplus_ | iSiplus_ => true
  | _ => false
  end.

(** Sum of the abundances of the tracked species selected by [p]. *)
Definition tracked_sum (p : Species -> bool) (y : Abundance) : R :=
  fold_right (fun s acc => if p s then y s + acc else acc) 0 tracked_species.

(** The static reaction tables of the header (reactant and product indices,
    base coefficients, exponents), indexed by the reaction number within
    its family. *)
Record ReactionRateTable := {
  incr_ : Z -> Species;  outcr_ : Z -> Species;  kcr_base_ : Z -> R;
  in2body1_ : Z -> Species;  in2body2_ : Z -> Species;
  out2body1_ : Z -> Species; out2body2_ : Z -> Species;
  k2Texp_ : Z -> R;  k2body_base_ : Z -> R;
  inph_ : Z -> Species;  outph1_ : Z -> Species;
  kph_base_ : Z -> R;  kph_avfac_ : Z -> R;
  ingr_ : Z -> Species;  outgr_ : Z -> Species
}.

(** The scalar parameters of the network: the fields of the header that
    hold units, temperature windows, flags and abundances, with the two
    quantities the specification names without a field, the hydrogen
    budget and the fiducial cosmic-ray rate. *)
Record NetworkParams := {
  unit_density_in_nH_ : R;
  unit_length_in_cm_ : R;
  unit_vel_in_cms_ : R;
  unit_radiation_in_draine1987_ : R;
  temp_max_heat_ : R;
  temp_min_cool_ : R;
  temp_min_rates_ : R;
  temp_max_rates_ : R;
  is_H2_rovib_cooling_ : Z;
  is_const_temp_ : Z;
  is_cr_shielding_ : Z;
  zdg_ : R;
  xHe_ : R;
  xC_std_ : R;
  xO_std_ : R;
  xSi_std_ : R;
  xC_ : R;
  xO_ : R;
  xSi_ : R;
  cr_rate0_ : R;
  isNCOeff_LVG_ : Z;
  Leff_CO_max_ : R;
  xH_std : R;
  cr_fiducial : R
}.

(** The per-cell snapshot of section 3: the fields [nH_], [temperature_],
    [rad_], [gradv_], [NCO_] and [bCO_] of the header, and the four
    shielding columns, for which the header has indices ([iNHtot_] ...
    [iNC_]) but no field. *)
Record CellPhysicalState := {
  nH_ : R;                 (* number density of H nuclei *)
  temperature_ : R;
  rad_ : Z -> R;           (* rad_[n_freq_]: photo bands, then GPE, then CR *)
  columns_ : Z -> R;       (* NHtot, NH2, NCO, NC *)
  gradv_ : R;              (* absolute value of the velocity gradient *)
  NCO_ : R;                (* assigned CO column density *)
  bCO_ : R                 (* CO line width *)
}.

(** The closed forms that the specification names but does not spell out:
    the visual extinction of the shielding model, the piecewise fits that
    override the power law of selected two-body reactions, and the grain
    fitting functions. Each receives the cell state after the temperature
    has been clamped. *)
Record RateLaws := {
  visual_extinction : CellPhysicalState -> R;
  k2body_fit : Z -> option (R -> R);
  kgr_law : Z -> CellPhysicalState -> Abundance -> R
}.

(** [Real kcr_[n_cr_]], [k2body_[n_2body_]], [kph_[n_ph_]], [kgr_[n_gr_]]. *)
Record RateVector := {
  kcr_ : Z -> R;
  k2body_ : Z -> R;
  kph_ : Z -> R;
  kgr_ : Z -> R
}.

(** The heating and cooling terms that the header keeps as fields. *)
Record HeatingCoolingTerms := {
  LCR_ : R; LPE_ : R; LH2gr_ : R; LH2pump_ : R; LH2diss_ : R;
  GCII_ : R; GCI_ : R; GOI_ : R; GLya_ : R; GCOR_ : R; GH2_ : R;
  GDust_ : R; GRec_ : R; GH2diss_ : R; GHIion_ : R
}.

(** The electron ghost. Section 4.4 lists the charge balance among the
    remainders that are floored at zero and section 3 has every ghost
    abundance non-negative, while section 4.4 also sets the electron
    abundance by charge neutrality, equal to the total positive-ion
    abundance. The two agree unless the ion total is negative; which one the
    program follows there is in gow16.cpp. The model takes the map from the
    ion total to the electron abundance as a parameter. *)
Record GhostLaws := {
  electron_of_ions : R -> R
}.

(** The two readings. *)
Definition floored_electrons : GhostLaws := {| electron_of_ions := Rmax 0 |}.
Definition neutral_electrons : GhostLaws := {| electron_of_ions := fun x => x |}.

(** The two states of the step context (specification, section 4.7). *)
Inductive Status : Type := uninitialized | ready.

(** The network object: the static tables and parameters, the per-step
    fields that the header documents as updated at [InitializeNextStep]
    ([nH_], [rad_], ...), the four rate arrays, the grain factor
    [psi_gr_fac_] and the heating and cooling terms. *)
Record ChemNetwork := {
  table : ReactionRateTable;
  laws : RateLaws;
  ghost_laws : GhostLaws;
  params : NetworkParams;
  status : Status;
  cell : CellPhysicalState;
  rates : RateVector;
  psi_gr_fac_ : R;
  thermal : HeatingCoolingTerms
}.

Definition standard_abundance (net : ChemNetwork) (e : Element) : R :=
  match e with
  | elH => xH_std (params net)
  | elHe => xHe_ (params net)
  | elC => xC_std_ (params net)
  | elO => xO_std_ (params net)
  | elSi => xSi_std_ (params net)
  end.

(** Remainder of an element before flooring. *)
Definition residual (net : ChemNetwork) (e : Element) (y : Abundance) : R :=
  standard_abundance net e - tracked_sum (contains e) y.

(** Modelled from the spec: the body of [ChemNetwork::GetGhostSpecies]
    (gow16.cpp) is missing. Section 4.4: the tracked entries are copied;
    each elemental ghost is the standard abundance minus the sum of the
    tracked abundances containing the element, floored at zero; the electron
    ghost is computed from the total positive-ion abundance by the rule of
    [GhostLaws]. The sum counts each species once, as the sentence does. *)
Definition GetGhostSpecies (net : ChemNetwork) (y : Abundance) : Abundance :=
  fun s =>
    match s with
    | igSi_ => Rmax 0 (residual net elSi y)
    | igC_ => Rmax 0 (residual net elC y)
    | igO_ => Rmax 0 (residual net elO y)
    | igHe_ => Rmax 0 (residual net elHe y)
    | ige_ => electron_of_ions (ghost_laws net) (tracked_sum is_positive_ion y)
    | igH_ => Rmax 0 (residual net elH y)
    | _ => y s
    end.

(** An elemental budget after resolution: the ghost and the tracked
    abundances add up to the standard abundance, or the remainder was
    negative and the ghost sits at the floor. *)
Definition met_or_floored (ghost tracked std : R) : Prop :=
  (0 <= std - tracked /\ ghost + tracked = std) \/
  (std - tracked < 0 /\ ghost = 0).

(** [ydot[s] += x] *)
Definition bump (v : Abundance) (s : Species) (x : R) : Abundance :=
  fun s' => if Species_eq_dec s' s then v s' + x else v s'.

(** [jac[s][c] += x] *)
Definition bump2 (m : Matrix) (s c : Species) (x : R) : Matrix :=
  fun s' c' =>
    if Species_eq_dec s' s
    then (if Species_eq_dec c' c then m s' c' + x else m s' c')
    else m s' c'.

(** A reaction with one reactant [a] and one product [b], of rate
    [k * y[a]]: the reactant loses what the product gains. *)
Definition rhs_linear (k : R) (a b : Species) (y ydot : Abundance) : Abundance :=
  let rate := k * y a in
  bump (bump ydot a (- rate)) b rate.

(** A reaction with reactants [a1], [a2] and products [b1], [b2], of rate
    [k * y[a1] * y[a2]]. With [a1 = a2] the reactant is charged twice. *)
Definition rhs_bilinear (k : R) (a1 a2 b1 b2 : Species) (y ydot : Abundance)
  : Abundance :=
  let rate := k * y a1 * y a2 in
  bump (bump (bump (bump ydot a1 (- rate)) a2 (- rate)) b1 rate) b2 rate.

(** Modelled from the spec: the right-hand side of section 4.5
    (KineticsCore), a pure function of the time (ignored), the full
    abundance vector and the cached rates; every reaction of the four
    families takes its rate times the reactant abundances from each reactant
    and gives it to each product. The grain family has one reactant and one
    product array in the header ([ingr_], [outgr_]), so its reactions are
    entered like the one-reactant families. This is not the member function
    [ChemNetwork::RHS] of the header, which receives the tracked entries
    [y[NSPECIES]] only: how that function obtains and differentiates the
    ghost entries is in gow16.cpp. *)
Definition KineticsCore_RHS (net : ChemNetwork) (t : R) (y : Abundance)
  : Abundance :=
  let tb := table net in
  let rv := rates net in
  let ydot := fun _ : Species => 0 in
  let ydot := for_loop n_cr_ (fun i =>
                rhs_linear (kcr_ rv i) (incr_ tb i) (outcr_ tb i) y) ydot in
  let ydot := for_loop n_2body_ (fun i =>
                rhs_bilinear (k2body_ rv i) (in2body1_ tb i) (in2body2_ tb i)
                             (out2body1_ tb i) (out2body2_ tb i) y) ydot in
  let ydot := for_loop n_ph_ (fun i =>
                rhs_linear (kph_ rv i) (inph_ tb i) (outph1_ tb i) y) ydot in
  let ydot := for_loop n_gr_ (fun i =>
                rhs_linear (kgr_ rv i) (ingr_ tb i) (outgr_ tb i) y) ydot in
  ydot.

(** Jacobian entries of a one-reactant reaction: the rate [k * y[a]] has
    derivative [k] with respect to [y[a]]. *)
Definition jac_linear (k : R) (a b : Species) (jac : Matrix) : Matrix :=
  bump2 (bump2 jac a a (- k)) b a k.

(** Jacobian entries of one species touched by a two-reactant reaction, with
    sign [sg]: the rate has derivative [k * y[a2]] with respect to [y[a1]]
    and [k * y[a1]] with respect to [y[a2]]. *)
Definition jac_pair (sg k : R) (a1 a2 s : Species) (y : Abundance) (jac : Matrix)
  : Matrix :=
  bump2 (bump2 jac s a1 (sg * (k * y a2))) s a2 (sg * (k * y a1)).

Definition jac_bilinear (k : R) (a1 a2 b1 b2 : Species) (y : Abundance)
           (jac : Matrix) : Matrix :=
  jac_pair 1 k a1 a2 b2 y
    (jac_pair 1 k a1 a2 b1 y
       (jac_pair (-1) k a1 a2 a2 y
          (jac_pair (-1) k a1 a2 a1 y jac))).

(** Modelled from the spec: the Jacobian of section 4.5 over the full
    abundance vector, the partial derivatives matching the right-hand side
    term by term, every reaction contributing its own entries, the ghost
    entries being variables like the tracked ones. *)
Definition KineticsCore_Jacobian (net : ChemNetwork) (t : R) (y : Abundance)
  : Matrix :=
  let tb := table net in
  let rv := rates net in
  let jac := fun _ _ : Species => 0 in
  let jac := for_loop n_cr_ (fun i =>
               jac_linear (kcr_ rv i) (incr_ tb i) (outcr_ tb i)) jac in
  let jac := for_loop n_2body_ (fun i =>
               jac_bilinear (k2body_ rv i) (in2body1_ tb i) (in2body2_ tb i)
                            (out2body1_ tb i) (out2body2_ tb i) y) jac in
  let jac := for_loop n_ph_ (fun i =>
               jac_linear (kph_ rv i) (inph_ tb i) (outph1_ tb i)) jac in
  let jac := for_loop n_gr_ (fun i =>
               jac_linear (kgr_ rv i) (ingr_ tb i) (outgr_ tb i)) jac in
  jac.

(** The right-hand side of section 4.5 reached from a tracked vector, the
    ghost entries being resolved from it (section 3: ghost entries are
    recomputed from the tracked entries on every access). *)
Definition RHS_through_ghosts (net : ChemNetwork) (t : R) (y : Abundance)
  : Abundance :=
  KineticsCore_RHS net t (GetGhostSpecies net y).

(** [y] with entry [j] replaced by [x]: the line along which the partial
    derivative with respect to [y[j]] is taken. *)
Definition along (y : Abundance) (j : Species) (x : R) : Abundance :=
  fun s => if Species_eq_dec s j then x else y s.

(** Column [j] of [jac] is the derivative, at [y], of the vector-valued
    function [F] of the [j]-th abundance. *)
Definition tracks (y : Abundance) (j : Species) (F : R -> Abundance)
           (jac : Matrix) : Prop :=
  forall s, derivable_pt_lim (fun x => F x s) (y j) (jac s j).

(** Temperature clamped to the validity range of the rate laws. *)
Definition clamp_temperature (p : NetworkParams) (T : R) : R :=
  Rmin (temp_max_rates_ p) (Rmax (temp_min_rates_ p) T).

Definition with_temperature (c : CellPhysicalState) (T : R)
  : CellPhysicalState :=
  {| nH_ := nH_ c; temperature_ := T; rad_ := rad_ c; columns_ := columns_ c;
     gradv_ := gradv_ c; NCO_ := NCO_ c; bCO_ := bCO_ c |}.

(** The network with the cell temperature set to [T]. *)
Definition set_temperature (net : ChemNetwork) (T : R) : ChemNetwork :=
  {| table := table net; laws := laws net; ghost_laws := ghost_laws net;
     params := params net;
     status := status net;
     cell := with_temperature (cell net) T;
     rates := rates net;
     psi_gr_fac_ := psi_gr_fac_ net;
     thermal := thermal net |}.

(** Modelled from the spec: the rate laws of section 4.1, evaluated on a
    cell state [c] as it stands: cosmic-ray rate = base x (cosmic-ray rate
    relative to a fiducial value); two-body rate = base x (T/300)^exponent
    unless a fit overrides it; photo rate = base x band value x
    exp(-avfactor x AV); grain rate from its fitting function. *)
Definition evaluate_rate_laws (net : ChemNetwork) (c : CellPhysicalState)
           (y : Abundance) : RateVector :=
  let tb := table net in
  let p := params net in
  let T := temperature_ c in
  {| kcr_ := fun i => kcr_base_ tb i * (rad_ c index_cr_ / cr_fiducial p);
     k2body_ := fun i =>
       match k2body_fit (laws net) i with
       | Some fit => fit T
       | None => k2body_base_ tb i * Rpower (T / 300) (k2Texp_ tb i)
       end;
     kph_ := fun i =>
       kph_base_ tb i * rad_ c i *
       exp (- (kph_avfac_ tb i) * visual_extinction (laws net) c);
     kgr_ := fun i => kgr_law (laws net) i c y |}.

(** Modelled from the spec: the body of [ChemNetwork::UpdateRates]
    (gow16.cpp) is missing. Sections 4.1 and 4.3: it reads the cell state of
    the object and writes the four rate arrays, nothing else; the
    temperature is clamped before any rate law is evaluated. *)
Definition UpdateRates (net : ChemNetwork) (y : Abundance) : ChemNetwork :=
  let c := with_temperature (cell net)
             (clamp_temperature (params net) (temperature_ (cell net))) in
  {| table := table net; laws := laws net; ghost_laws := ghost_laws net;
     params := params net;
     status := status net;
     cell := cell net;
     rates := evaluate_rate_laws net c y;
     psi_gr_fac_ := psi_gr_fac_ net;
     thermal := thermal net |}.

(** What the driver holds for one cell: mass density in code units,
    temperature, radiation bands, shielding columns, what [SetGrad_v] and
    [SetbCO] derive for the cell (velocity gradient, CO column density and
    line width) and the tracked abundances. *)
Record CellInputs := {
  in_density : R;
  in_temperature : R;
  in_rad : Z -> R;
  in_columns : Z -> R;
  in_gradv : R;
  in_NCO : R;
  in_bCO : R;
  in_abundance : Abundance
}.

(** Snapshot of the cell: the density is converted to a number density of
    H nuclei. *)
Definition snapshot (p : NetworkParams) (inp : CellInputs) : CellPhysicalState :=
  {| nH_ := in_density inp * unit_density_in_nH_ p;
     temperature_ := in_temperature inp;
     rad_ := in_rad inp;
     columns_ := in_columns inp;
     gradv_ := in_gradv inp;
     NCO_ := in_NCO inp;
     bCO_ := in_bCO inp |}.

(** The driver's data, cell by cell. *)
Definition Mesh := Z -> Z -> Z -> CellInputs.

(** Modelled from the spec: the body of [ChemNetwork::InitializeNextStep]
    (gow16.cpp) is missing. Section 4.7: it snapshots the state of cell
    (k,j,i), leaves the context ready, resolves the ghost species and
    updates the rates once. The header has [nH_] and [rad_] "updated at
    InitializeNextStep", and [SetbCO] and [SetGrad_v] take the same cell
    indices. *)
Definition InitializeNextStep (net : ChemNetwork) (mesh : Mesh) (k j i : Z)
  : ChemNetwork :=
  let inp := mesh k j i in
  let net1 :=
    {| table := table net; laws := laws net; ghost_laws := ghost_laws net;
       params := params net;
       status := ready;
       cell := snapshot (params net) inp;
       rates := rates net;
       psi_gr_fac_ := psi_gr_fac_ net;
       thermal := thermal net |} in
  let yall := GetGhostSpecies net1 (in_abundance inp) in
  UpdateRates net1 yall.

(** A call that wrote nothing but the four rate arrays. *)
Definition only_rates_written (before after : ChemNetwork) : Prop :=
  table after = table before /\ laws after = laws before /\
  ghost_laws after = ghost_laws before /\
  params after = params before /\ status after = status before /\
  cell after = cell before /\
  psi_gr_fac_ after = psi_gr_fac_ before /\ thermal after = thermal before.

(** The member functions [RHS] and [Jacobian] as the integrator reaches
    them through the context. Their bodies are in gow16.cpp; here they are
    whatever functions of the object, the driver's data, the time and the
    arrays they receive, returning the object as they leave it and the
    array they fill. They are defined only once the context is ready. *)
Section StepContext.
Variable RHS_body :
  ChemNetwork -> Mesh -> R -> Abundance -> ChemNetwork * Abundance.
Variable Jacobian_body :
  ChemNetwork -> Mesh -> R -> Abundance -> Abundance -> ChemNetwork * Matrix.

Definition step_RHS (net : ChemNetwork) (mesh : Mesh) (t : R) (y : Abundance)
  : option (ChemNetwork * Abundance) :=
  match status net with
  | ready => Some (RHS_body net mesh t y)
  | uninitialized => None
  end.


End StepContext.

(** Concrete data to run the model on: solar-like budgets, a rate window
    of 10 K to 10^4 K, and a tracked vector whose H+ entry has gone slightly
    negative while every other ion is absent. *)
Definition sample_params : NetworkParams :=
  {| unit_density_in_nH_ := 1;
     unit_length_in_cm_ := 1;
     unit_vel_in_cms_ := 1;
     unit_radiation_in_draine1987_ := 1;
     temp_max_heat_ := 10000;
     temp_min_cool_ := 10;
     temp_min_rates_ := 10;
     temp_max_rates_ := 10000;
     is_H2_rovib_cooling_ := 0;
     is_const_temp_ := 0;
     is_cr_shielding_ := 0;
     zdg_ := 1;
     xHe_ := 1 / 10;
     xC_std_ := 2 / 10000;
     xO_std_ := 3 / 10000;
     xSi_std_ := 1 / 1000000;
     xC_ := 2 / 10000;
     xO_ := 3 / 10000;
     xSi_ := 1 / 1000000;
     cr_rate0_ := 1;
     isNCOeff_LVG_ := 1;
     Leff_CO_max_ := 1;
     xH_std := 1;
     cr_fiducial := 1 |}.

Definition y_zero : Abundance := fun _ => 0.

Definition y_negative : Abundance :=
  fun s => match s with iHplus_ => - (1 / 1000) | _ => 0 end.

(** A vector with carbon locked in CO and some ionised hydrogen and helium. *)
Definition y_sample : Abundance :=
  fun s =>
    match s with
    | iCO_ => 1 / 10000
    | iHplus_ => 1 / 100
    | iHeplus_ => 1 / 1000
    | iH2_ => 1 / 4
    | _ => 0
    end.

(** A table and rates in which every reaction of the two-body family is
    H + H -> H2 + H2-like with identical reactants, to exercise the double
    charge of a repeated reactant. *)
Definition sample_table : ReactionRateTable :=
  {| incr_ := fun _ => iH2_;  outcr_ := fun _ => iH2plus_;  kcr_base_ := fun _ => 2;
     in2body1_ := fun _ => igH_;  in2body2_ := fun _ => igH_;
     out2body1_ := fun _ => iH2_; out2body2_ := fun _ => iE_;
     k2Texp_ := fun _ => 0;  k2body_base_ := fun _ => 1;
     inph_ := fun _ => iCO_;  outph1_ := fun _ => igC_;
     kph_base_ := fun _ => 5;  kph_avfac_ := fun _ => 3;
     ingr_ := fun _ => iHplus_;  outgr_ := fun _ => igH_ |}.

Definition sample_laws : RateLaws :=
  {| visual_extinction := fun c => columns_ c 0%Z;
     k2body_fit := fun i => if (i =? 0)%Z then Some (fun T => T / 100) else None;
     kgr_law := fun i c y => nH_ c * y ige_ |}.

Definition sample_cell : CellPhysicalState :=
  {| nH_ := 100; temperature_ := 50; rad_ := fun _ => 1;
     columns_ := fun _ => 0; gradv_ := 1; NCO_ := 0; bCO_ := 1 |}.

Definition sample_inputs : CellInputs :=
  {| in_density := 250; in_temperature := 50; in_rad := fun _ => 1;
     in_columns := fun _ => 0; in_gradv := 2; in_NCO := 0; in_bCO := 3;
     in_abundance := y_sample |}.

(** Rates that switch on the first reaction of each family only. *)
Definition sample_rates : RateVector :=
  {| kcr_ := fun i => if (i =? 0)%Z then 2 else 0;
     k2body_ := fun i => if (i =? 0)%Z then 3 else 0;
     kph_ := fun i => if (i =? 0)%Z then 5 else 0;
     kgr_ := fun i => if (i =? 0)%Z then 7 else 0 |}.

Definition no_heating : HeatingCoolingTerms :=
  {| LCR_ := 0; LPE_ := 0; LH2gr_ := 0; LH2pump_ := 0; LH2diss_ := 0;
     GCII_ := 0; GCI_ := 0; GOI_ := 0; GLya_ := 0; GCOR_ := 0; GH2_ := 0;
     GDust_ := 0; GRec_ := 0; GH2diss_ := 0; GHIion_ := 0 |}.

(** A network fresh from the constructor, and one whose rates are set;
    both floor the electron ghost. *)
Definition sample_network : ChemNetwork :=
  {| table := sample_table; laws := sample_laws;
     ghost_laws := floored_electrons; params := sample_params;
     status := uninitialized; cell := sample_cell;
     rates := {| kcr_ := fun _ => 0; k2body_ := fun _ => 0;
                 kph_ := fun _ => 0; kgr_ := fun _ => 0 |};
     psi_gr_fac_ := 0; thermal := no_heating |}.

Definition sample_ready : ChemNetwork :=
  {| table := sample_table; laws := sample_laws;
     ghost_laws := floored_electrons; params := sample_params;
     status := ready; cell := sample_cell; rates := sample_rates;
     psi_gr_fac_ := 0; thermal := no_heating |}.

(** Whatever the bodies of [RHS] and [Jacobian] are, here two that read
    the rates of the object. *)
Definition sample_RHS_body (net : ChemNetwork) (mesh : Mesh) (t : R)
           (y : Abundance) : ChemNetwork * Abundance :=
  (net, KineticsCore_RHS net t (GetGhostSpecies net y)).

Definition sample_Jacobian_body (net : ChemNetwork) (mesh : Mesh) (t : R)
           (y fy : Abundance) : ChemNetwork * Matrix :=
  (net, KineticsCore_Jacobian net t (GetGhostSpecies net y)).

Definition sample_mesh : Mesh := fun _ _ _ => sample_inputs.

End GOW16.

(* ------------------------------------------------------------------ *)
(** ** Bondi accretion on a Schwarzschild wormhole (src/pgen/SchildWH.cpp)

    The metric and the constants are stated over the real numbers
    ([std::exp], [std::sin], [std::cos], [std::sqrt] are the functions of
    the same name, [std::pow] is [Rpower], which agrees with it on positive
    bases); rounding is not modelled. The two root finders only add,
    subtract, multiply, halve and compare: they are written once for any
    carrier with these operations, and [NAN] is [None]. *)

Module SchildWHPgen.
Import Loops.
#[local] Open Scope R_scope.

(** *** The user metric [SchildWH] *)

(** Enumerators of athena.hpp naming the ten independent components of a
    symmetric 4x4 tensor, and their number [NMETRIC]. *)
Class MetricLayout := {
  NMETRIC : Z;
  I00 : Z; I01 : Z; I02 : Z; I03 : Z;
  I11 : Z; I12 : Z; I13 : Z;
  I22 : Z; I23 : Z;
  I33 : Z
}.

Definition metric_slots `{MetricLayout} : list Z :=
  [I00; I01; I02; I03; I11; I12; I13; I22; I23; I33].

(** What the function relies on: the ten enumerators are distinct and lie
    below [NMETRIC]. *)
Definition metric_layout_ok `{MetricLayout} : Prop :=
  NoDup metric_slots /\ Forall (fun n => 0 <= n < NMETRIC)%Z metric_slots.

(** An [AthenaArray<Real>] of rank 1. *)
Definition MArr := Z -> R.

(** [a(n) = v] *)
Definition set (a : MArr) (n : Z) (v : R) : MArr :=
  fun n' => if (n' =? n)%Z then v else a n'.

(** A run of statements [a(n) = v], in program order. *)
Definition set_all (l : list (Z * R)) (a : MArr) : MArr :=
  fold_left (fun a' nv => set a' (fst nv) (snd nv)) l a.

(** The five output arrays. *)
Record MetricArrays := {
  g : MArr;
  g_inv : MArr;
  dg_dx1 : MArr;
  dg_dx2 : MArr;
  dg_dx3 : MArr
}.

Section Metric.
Context `{MetricLayout}.

(** [SchildWH]; [aa] and [r0] are what [pin->GetReal("coord", ...)]
    returns. *)
Definition SchildWH (x1 x2 x3 : R) (aa r0 : R) (m : MetricArrays)
  : MetricArrays :=
  let r := x1 in
  let theta := x2 in
  let phi := x3 in
  let sth := sin theta in
  let cth := cos theta in
  let shape := r0 in
  let redshift := (- aa) / r in
  let dshape := 0 in
  let dredshift := aa / (r * r) in
  {| g :=
       set_all [ (I00, - exp (2 * redshift));
                 (I11, 1 / (1 - shape / r));
                 (I22, r * r);
                 (I33, r * r * sth * sth);
                 (I01, 0); (I02, 0); (I03, 0);
                 (I12, 0); (I13, 0); (I23, 0) ] (g m);
     g_inv :=
       set_all [ (I00, - exp (- (2) * redshift));
                 (I11, 1 - shape / r);
                 (I22, 1 / (r * r));
                 (I33, 1 / (r * r * sth * sth));
                 (I01, 0); (I02, 0); (I03, 0);
                 (I12, 0); (I13, 0); (I23, 0) ] (g_inv m);
     dg_dx1 :=
       set_all [ (I00, - (2) * exp (- (2) * redshift) * dredshift);
                 (I11, (r * dshape - shape) / ((r - shape) * (r - shape)));
                 (I22, 2 * r);
                 (I33, 2 * r * sth * sth);
                 (I01, 0); (I02, 0); (I03, 0);
                 (I12, 0); (I13, 0); (I23, 0) ] (dg_dx1 m);
     dg_dx2 :=
       set_all [ (I00, 0); (I11, 0); (I22, 0);
                 (I33, 2 * r * r * sth * cth);
                 (I01, 0); (I02, 0); (I03, 0);
                 (I12, 0); (I13, 0); (I23, 0) ] (dg_dx2 m);
     dg_dx3 := for_loop NMETRIC (fun n a => set a n 0) (dg_dx3 m) |}.

(** The covariant component [n] along each coordinate line through
    [(x1, x2, x3)]. *)
Definition g_along_x1 (x1 x2 x3 aa r0 : R) (m : MetricArrays) (n : Z) : R -> R :=
  fun x => g (SchildWH x x2 x3 aa r0 m) n.

Definition g_along_x2 (x1 x2 x3 aa r0 : R) (m : MetricArrays) (n : Z) : R -> R :=
  fun x => g (SchildWH x1 x x3 aa r0 m) n.

Definition g_along_x3 (x1 x2 x3 aa r0 : R) (m : MetricArrays) (n : Z) : R -> R :=
  fun x => g (SchildWH x1 x2 x aa r0 m) n.

End Metric.

(** A layout to run the metric on: the ten components numbered in the
    order of [metric_slots]; arrays that start filled with 7. *)
Definition sample_metric_layout : MetricLayout :=
  {| NMETRIC := 10;
     I00 := 0; I01 := 1; I02 := 2; I03 := 3;
     I11 := 4; I12 := 5; I13 := 6;
     I22 := 7; I23 := 8;
     I33 := 9 |}%Z.

Definition sample_arrays : MetricArrays :=
  {| g := fun _ => 7; g_inv := fun _ => 7; dg_dx1 := fun _ => 7;
     dg_dx2 := fun _ => 7; dg_dx3 := fun _ => 7 |}.

(** *** The root finders *)

(** The arithmetic that the finders use, with their literals. *)
Class RealOps (T : Type) := {
  c_zero : T;              (* 0.0 *)
  c_two : T;               (* 2.0 *)
  c_ratio : T;             (* 0.3819660112501051 *)
  c_tol_residual : T;      (* 1.0e-6 *)
  c_tol_temperature : T;   (* 1.0e-6 *)
  add : T -> T -> T;
  sub : T -> T -> T;
  mul : T -> T -> T;
  div : T -> T -> T;
  abs : T -> T;            (* std::abs *)
  ltb : T -> T -> bool     (* < *)
}.

Section Finders.
Context {T : Type} `{RealOps T}.

(** [TemperatureResidual(t, r)], whatever it computes. *)
Variable residual : T -> T -> T.

(** The variables of the golden-section loop. *)
Record Golden := {
  gs_min : T;
  gs_mid : T;
  gs_max : T;
  gs_res_mid : T;
  gs_larger_to_right : bool
}.

(** The part of the loop body after the test [res_mid < 0.0]. *)
Definition golden_step (r : T) (s : Golden) : Golden :=
  if gs_larger_to_right s then
    let t_new := add (gs_mid s) (mul c_ratio (sub (gs_max s) (gs_mid s))) in
    let res_new := residual t_new r in
    if ltb res_new (gs_res_mid s) then
      {| gs_min := gs_mid s; gs_mid := t_new; gs_max := gs_max s;
         gs_res_mid := res_new; gs_larger_to_right := true |}
    else
      {| gs_min := gs_min s; gs_mid := gs_mid s; gs_max := t_new;
         gs_res_mid := gs_res_mid s; gs_larger_to_right := false |}
  else
    let t_new := sub (gs_mid s) (mul c_ratio (sub (gs_mid s) (gs_min s))) in
    let res_new := residual t_new r in
    if ltb res_new (gs_res_mid s) then
      {| gs_min := gs_min s; gs_mid := t_new; gs_max := gs_mid s;
         gs_res_mid := res_new; gs_larger_to_right := false |}
    else
      {| gs_min := t_new; gs_mid := gs_mid s; gs_max := gs_max s;
         gs_res_mid := gs_res_mid s; gs_larger_to_right := true |}.

(** [n] iterations of the loop, then [return NAN]. *)
Fixpoint golden_loop (r : T) (n : nat) (s : Golden) : option T :=
  match n with
  | O => None
  | S n' =>
      if ltb (gs_res_mid s) c_zero then Some (gs_mid s)
      else golden_loop r n' (golden_step r s)
  end.

(** [TemperatureMin]: golden-section search, [max_iterations = 30]. *)
Definition TemperatureMin (r t_min t_max : T) : option T :=
  let t_mid := add t_min (mul c_ratio (sub t_max t_min)) in
  let res_mid := residual t_mid r in
  golden_loop r 30
    {| gs_min := t_min; gs_mid := t_mid; gs_max := t_max;
       gs_res_mid := res_mid; gs_larger_to_right := true |}.

(** Loop invariant of the search: [res_mid] is the residual at [t_mid]. *)
Definition golden_ok (r : T) (s : Golden) : Prop :=
  gs_res_mid s = residual (gs_mid s) r.

(** [(a < 0.0 && b < 0.0) || (a > 0.0 && b > 0.0)] *)
Definition same_sign (a b : T) : bool :=
  (ltb a c_zero && ltb b c_zero) || (ltb c_zero a && ltb c_zero b).

(** The variables of the bisection loop; [bs_mid] is [t_mid], declared
    without initialiser. *)
Record Bisect := {
  bs_min : T;
  bs_max : T;
  bs_res_min : T;
  bs_res_max : T;
  bs_mid : T
}.

(** [n] iterations of the loop, then [return t_mid]. *)
Fixpoint bisect_loop (r : T) (n : nat) (s : Bisect) : T :=
  match n with
  | O => bs_mid s
  | S n' =>
      let t_mid := div (add (bs_min s) (bs_max s)) c_two in
      if ltb (sub (bs_max s) (bs_min s)) c_tol_temperature then t_mid
      else
        let res_mid := residual t_mid r in
        if ltb (abs res_mid) c_tol_residual then t_mid
        else if same_sign res_mid (bs_res_min s) then
          bisect_loop r n'
            {| bs_min := t_mid; bs_max := bs_max s; bs_res_min := res_mid;
               bs_res_max := bs_res_max s; bs_mid := t_mid |}
        else
          bisect_loop r n'
            {| bs_min := bs_min s; bs_max := t_mid;
               bs_res_min := bs_res_min s; bs_res_max := res_mid;
               bs_mid := t_mid |}
  end.

(** [TemperatureBisect], [max_iterations = 20]; [uninit] is what the
    variable [t_mid] holds before the loop assigns it. *)
Definition TemperatureBisect (r t_min t_max : T) (uninit : T) : option T :=
  let res_min := residual t_min r in
  let res_max := residual t_max r in
  if ltb (abs res_min) c_tol_residual then Some t_min
  else if ltb (abs res_max) c_tol_residual then Some t_max
  else if same_sign res_min res_max then None
  else Some (bisect_loop r 20
               {| bs_min := t_min; bs_max := t_max; bs_res_min := res_min;
                  bs_res_max := res_max; bs_mid := uninit |}).

End Finders.

Arguments Golden T : clear implicits.
Arguments Bisect T : clear implicits.

(** The finders over the real numbers. *)
Definition R_ops : RealOps R :=
  {| c_zero := 0;
     c_two := 2;
     c_ratio := 3819660112501051 / 10000000000000000;
     c_tol_residual := 1 / 1000000;
     c_tol_temperature := 1 / 1000000;
     add := Rplus; sub := Rminus; mul := Rmult; div := Rdiv;
     abs := Rabs;
     ltb := fun x y => if Rlt_dec x y then true else false |}.

(** The finders over the rationals, to run them. *)
Definition Q_ops : RealOps QArith_base.Q :=
  {| c_zero := QArith_base.Qmake 0 1;
     c_two := QArith_base.Qmake 2 1;
     c_ratio := QArith_base.Qmake 3819660112501051 10000000000000000;
     c_tol_residual := QArith_base.Qmake 1 1000000;
     c_tol_temperature := QArith_base.Qmake 1 1000000;
     add := fun x y => Qreduction.Qred (QArith_base.Qplus x y);
     sub := fun x y => Qreduction.Qred (QArith_base.Qminus x y);
     mul := fun x y => Qreduction.Qred (QArith_base.Qmult x y);
     div := fun x y => Qreduction.Qred (QArith_base.Qdiv x y);
     abs := Qabs.Qabs;
     ltb := fun x y =>
              match QArith_base.Qcompare x y with Lt => true | _ => false end |}.

(** A parabola with roots 2 and 5, independent of [r]. *)
Definition toy_residual (t r : QArith_base.Q) : QArith_base.Q :=
  QArith_base.Qmult (QArith_base.Qminus t (QArith_base.Qmake 2 1))
                    (QArith_base.Qminus t (QArith_base.Qmake 5 1)).

(** Loop invariant of the search over the reals: the bracket is ordered
    and inside the interval [lo, hi] it started from. *)
Definition golden_within (lo hi : R) (s : Golden R) : Prop :=
  lo <= gs_min s /\ gs_min s <= gs_mid s /\ gs_mid s <= gs_max s /\
  gs_max s <= hi.

(** Two residuals of strictly opposite sign: a root lies between. *)
Definition opposite_signs (x y : R) : Prop :=
  (x < 0 /\ 0 < y) \/ (0 < x /\ y < 0).

(** Residuals over the reals to run the finders on: a line through 5, and
    a constant. *)
Definition line_residual (t r : R) : R := t - 5.
Definition flat_residual (t r : R) : R := 1.

(** *** Globals, constants and primitives *)

(** The variables of the unnamed namespace. *)
Record Globals := {
  r0 : R; aa : R;
  n_adi : R; k_adi : R;
  r_crit : R;
  c1 : R; c2 : R;
  bsq_over_rho : R
}.

(** Their value when the program starts: variables of namespace scope are
    zero-initialised. *)
Definition globals_at_start : Globals :=
  {| r0 := 0; aa := 0; n_adi := 0; k_adi := 0; r_crit := 0;
     c1 := 0; c2 := 0; bsq_over_rho := 0 |}.

(** [Mesh::InitUserMeshData]: the three values are what [pin->GetReal]
    returns for "hydro/k_adi", "problem/r_crit" and "problem/bsq_over_rho";
    the enrolment of the metric and of the boundary functions leaves the
    globals alone. *)
Definition InitUserMeshData (MAGNETIC_FIELDS_ENABLED : bool)
           (in_k_adi in_r_crit in_bsq_over_rho : R) (gl : Globals) : Globals :=
  {| r0 := r0 gl; aa := aa gl; n_adi := n_adi gl;
     k_adi := in_k_adi;
     r_crit := in_r_crit;
     c1 := c1 gl; c2 := c2 gl;
     bsq_over_rho := if MAGNETIC_FIELDS_ENABLED then in_bsq_over_rho else 0 |}.

Definition SQR (x : R) : R := x * x.

(** [std::pow] on a base that is not negative: a positive power of zero is
    zero, and [pow(x, 0)] is one. A negative base with a fractional
    exponent, or zero with a negative one, gives [NAN] or an infinity in
    the program and is outside this model. *)
Definition std_pow (x y : R) : R :=
  if Req_dec_T x 0 then (if Rlt_dec 0 y then 0 else 1) else Rpower x y.

(** The constants that [MeshBlock::ProblemGenerator] prepares before its
    loops; [gamma_adi] is [peos->GetGamma()]. In [1/4*(...)] both operands
    of the division are [int]s, so is the quotient. *)
Definition prepare_constants (gamma_adi : R) (gl : Globals) : Globals :=
  let n := 1 / (gamma_adi - 1) in
  let redcrit := (- aa gl) / r_crit gl in
  let u_crit_sq := IZR (Z.quot 1 4) * (1 - exp (2 * redcrit)) in
  let u_crit := - sqrt u_crit_sq in
  let t_crit :=
    - (n * (exp (2 * redcrit) - 1)) /
      ((n + 1) * (n * exp (2 * redcrit) - n + 3 * exp (2 * redcrit) + 1)) in
  {| r0 := r0 gl; aa := aa gl;
     n_adi := n;
     k_adi := k_adi gl;
     r_crit := r_crit gl;
     c1 := std_pow t_crit n * u_crit * SQR (r_crit gl);
     c2 := SQR (1 + (n + 1) * t_crit) * (exp (2 * redcrit) + u_crit_sq);
     bsq_over_rho := bsq_over_rho gl |}.

(** [TemperatureResidual]. The divisions and the power are those of the
    reals: the model agrees with the program for [t > 0] and [r <> 0]; at
    [t = 0] or [r = 0] the program computes an infinity or a [NAN]. *)
Definition TemperatureResidual (gl : Globals) (t r : R) : R :=
  let shape := r0 gl in
  let redshift := (- aa gl) / r in
  let dshape := 0 in
  let dredshift := aa gl / (r * r) in
  SQR (1 + (n_adi gl + 1) * t)
  * (exp (- (2) * redshift)
     + SQR (c1 gl) / (SQR (SQR r) * std_pow t (2 * n_adi gl)))
  - c2 gl.

(** The four outputs of [CalculatePrimitives]. *)
Record Primitives := {
  rho : R; pgas : R; ut : R; ur : R
}.

(** What [CalculatePrimitives] computes once the temperature is found. *)
Definition primitives_at (gl : Globals) (r temp : R) : Primitives :=
  let shape := r0 gl in
  let redshift := (- aa gl) / r in
  let rho_ := std_pow (temp / k_adi gl) (n_adi gl) in
  let pgas_ := temp * rho_ in
  let ur_ := c1 gl / (SQR r * std_pow temp (n_adi gl)) in
  let ut_ :=
    (std_pow temp (- n_adi gl) * exp (- redshift)
     * sqrt (r * r * r * (r - shape) * std_pow temp (2 * n_adi gl)
             + c1 gl * c1 gl))
    / (std_pow r (IZR (Z.quot 3 2)) * sqrt (r - shape)) in
  {| rho := rho_; pgas := pgas_; ut := ut_; ur := ur_ |}.

(** [TemperatureBisect] called with a [NAN] for one bound and [t_end] for
    the other. A comparison with a [NAN] is false and the residual of a
    [NAN] is a [NAN]: of the tests before the loop only the one on the
    residual at [t_end] can succeed, and in the loop every midpoint is a
    [NAN], so that the function returns [t_end] or a [NAN]. *)
Definition TemperatureBisect_nan (gl : Globals) (r t_end : R) : option R :=
  if @ltb R R_ops (@abs R R_ops (TemperatureResidual gl t_end r))
                  (@c_tol_residual R R_ops)
  then Some t_end else None.

(** [CalculatePrimitives]. [None] stands for a temperature that is [NAN],
    from which the four outputs are [NAN]. In [std::pow(r, 3/2)] the
    exponent is the quotient of two [int]s. *)
Definition CalculatePrimitives (gl : Globals) (r temp_min temp_max : R)
           (uninit : R) : option Primitives :=
  let temp_neg_res :=
    @TemperatureMin R R_ops (TemperatureResidual gl) r temp_min temp_max in
  let found :=
    match temp_neg_res with
    | Some t_neg =>
        if Rle_dec r (r_crit gl)
        then @TemperatureBisect R R_ops (TemperatureResidual gl) r
                                temp_min t_neg uninit
        else @TemperatureBisect R R_ops (TemperatureResidual gl) r
                                t_neg temp_max uninit
    | None =>
        if Rle_dec r (r_crit gl)
        then TemperatureBisect_nan gl r temp_min
        else TemperatureBisect_nan gl r temp_max
    end in
  match found with
  | None => None
  | Some temp => Some (primitives_at gl r temp)
  end.

(** The temperature bounds that [MeshBlock::ProblemGenerator] passes. *)
Definition temp_min : R := 1 / 100.
Definition temp_max : R := 10.

(** The globals as [ProblemGenerator] finds them in a run: start-up values,
    then [InitUserMeshData], then the constants. *)
Definition globals_in_run (MAGNETIC_FIELDS_ENABLED : bool)
           (in_k_adi in_r_crit in_bsq_over_rho gamma_adi : R) : Globals :=
  prepare_constants gamma_adi
    (InitUserMeshData MAGNETIC_FIELDS_ENABLED in_k_adi in_r_crit
                      in_bsq_over_rho globals_at_start).

(** Globals to run the finders and [CalculatePrimitives] on by hand: no
    tidal term, a radial flow ([c1 = 1]), polytropic index 1/2 and [c2]
    chosen for the greater root of the residual at [r = 1] to be 10. *)
Definition flow_globals : Globals :=
  {| r0 := 0; aa := 0; n_adi := 1 / 2; k_adi := 1; r_crit := 1 / 2;
     c1 := 1; c2 := 1408 / 5; bsq_over_rho := 0 |}.

End SchildWHPgen.

(* ================================================================== *)
(** * Part II: theorems *)

(* ------------------------------------------------------------------ *)
(** ** Facts about counted loops *)

Module LoopFacts.
Import Loops.

Lemma in_range (n i : Z) : In i (range n) <-> (0 <= i < n)%Z.
Proof.
  unfold range. rewrite in_map_iff. split.
  - intros [m [<- Hm]]. apply in_seq in Hm. lia.
  - intros Hi. exists (Z.to_nat i). split; [lia|]. apply in_seq. lia.
Qed.

(** Invariant rule: a property kept by every iteration is kept by the loop. *)
Lemma for_loop_inv {St : Type} (P : St -> Prop) (n : Z) (body : Z -> St -> St) :
  (forall i s, (0 <= i < n)%Z -> P s -> P (body i s)) ->
  forall s, P s -> P (for_loop n body s).
Proof.
  intros Hbody. unfold for_loop.
  assert (Hin : forall i, In i (range n) -> (0 <= i < n)%Z)
    by (intros i; apply in_range).
  revert Hin. generalize (range n) as l.
  induction l as [|i l IH]; intros Hin s Hs; simpl.
  - exact Hs.
  - apply IH.
    + intros i' Hi'. apply Hin. now right.
    + apply Hbody; [apply Hin; now left | exact Hs].
Qed.

(** Establishing rule: if iteration [i0] establishes [P] and every iteration
    keeps it, the loop establishes [P] as soon as [i0] is visited. *)
Lemma for_loop_establish {St : Type} (P : St -> Prop) (n i0 : Z)
      (body : Z -> St -> St) :
  (0 <= i0 < n)%Z ->
  (forall s, P (body i0 s)) ->
  (forall i s, (0 <= i < n)%Z -> P s -> P (body i s)) ->
  forall s, P (for_loop n body s).
Proof.
  intros Hi0 Hest Hkeep s. unfold for_loop.
  assert (Hin : In i0 (range n)) by (apply in_range; exact Hi0).
  assert (Hall : forall i, In i (range n) -> (0 <= i < n)%Z)
    by (intros i; apply in_range).
  revert Hin Hall s. generalize (range n) as l.
  induction l as [|i l IH]; intros Hin Hall s; simpl.
  - destruct Hin.
  - destruct Hin as [-> | Hin].
    + clear IH. generalize (Hest s). generalize (body i0 s).
      assert (Hl : forall i, In i l -> (0 <= i < n)%Z)
        by (intros i' Hi'; apply Hall; now right).
      clear Hall. induction l as [|i' l IHl]; intros s' Hs'; simpl.
      * exact Hs'.
      * apply IHl.
        -- intros i'' Hi''. apply Hl. now right.
        -- apply Hkeep; [apply Hl; now left | exact Hs'].
    + apply IH; [exact Hin | intros i' Hi'; apply Hall; now right].
Qed.

Lemma range_nonpos (n : Z) : (n <= 0)%Z -> range n = [].
Proof.
  intros Hn. unfold range. replace (Z.to_nat n) with 0%nat by lia. reflexivity.
Qed.

Lemma range_succ (n : Z) : (0 <= n)%Z -> range (n + 1) = range n ++ [n].
Proof.
  intros Hn. unfold range.
  replace (Z.to_nat (n + 1)) with (S (Z.to_nat n)) by lia.
  rewrite seq_S, map_app. simpl. f_equal. f_equal. lia.
Qed.

Lemma for_loop_nonpos {St : Type} (n : Z) (body : Z -> St -> St) (s : St) :
  (n <= 0)%Z -> for_loop n body s = s.
Proof. intros Hn. unfold for_loop. now rewrite range_nonpos. Qed.

Lemma for_loop_succ {St : Type} (n : Z) (body : Z -> St -> St) (s : St) :
  (0 <= n)%Z -> for_loop (n + 1) body s = body n (for_loop n body s).
Proof.
  intros Hn. unfold for_loop. rewrite (range_succ n Hn), fold_left_app.
  reflexivity.
Qed.

(** Indexed invariant rule: [P i] holds before iteration [i]. *)
Lemma for_loop_ind {St : Type} (P : Z -> St -> Prop) (n : Z)
      (body : Z -> St -> St) :
  (0 <= n)%Z ->
  (forall i s, (0 <= i < n)%Z -> P i s -> P (i + 1)%Z (body i s)) ->
  forall s, P 0%Z s -> P n (for_loop n body s).
Proof.
  intros Hn Hbody s Hs.
  assert (Hm : forall m : nat, (Z.of_nat m <= n)%Z ->
               P (Z.of_nat m) (for_loop (Z.of_nat m) body s)).
  { induction m as [|m IH]; intros Hm.
    - exact Hs.
    - replace (Z.of_nat (S m)) with (Z.of_nat m + 1)%Z by lia.
      rewrite for_loop_succ by lia. apply Hbody; [lia|]. apply IH. lia. }
  specialize (Hm (Z.to_nat n)). rewrite Z2Nat.id in Hm by lia. apply Hm. lia.
Qed.

End LoopFacts.

(* ------------------------------------------------------------------ *)
(** ** Radiation moments *)

Module RadiationFacts.
Import Loops LoopFacts Radiation.

Section MomentFacts.
Context {Real : Type} `{FloatOps Real} `{MomentLayout}.

Lemma store_eq (a : Array4 Real) (n k j i : Z) (v : Real) :
  store a n k j i v n k j i = v.
Proof. unfold store. now rewrite !Z.eqb_refl. Qed.

Lemma store_other_slot (a : Array4 Real) (n n' k j i k' j' i' : Z) (v : Real) :
  n' <> n -> store a n k j i v n' k' j' i' = a n' k' j' i'.
Proof.
  intros Hn. unfold store. apply Z.eqb_neq in Hn. now rewrite Hn.
Qed.

Lemma store_other_cell (a : Array4 Real) (n n' k j i k' j' i' : Z) (v : Real) :
  (k', j', i') <> (k, j, i) -> store a n k j i v n' k' j' i' = a n' k' j' i'.
Proof.
  intros Hc. unfold store.
  destruct (Z.eqb_spec n' n); simpl; [|reflexivity].
  destruct (Z.eqb_spec k' k); simpl; [|reflexivity].
  destruct (Z.eqb_spec j' j); simpl; [|reflexivity].
  destruct (Z.eqb_spec i' i); simpl; [|reflexivity].
  subst. now contradiction Hc.
Qed.

(** The statements of one cell leave every other cell alone. *)
Lemma assign_all_other_cell (l : list (Z * Real)) (k j i : Z) :
  forall (a : Array4 Real) n k' j' i',
    (k', j', i') <> (k, j, i) ->
    assign_all l k j i a n k' j' i' = a n k' j' i'.
Proof.
  induction l as [|nv l IH]; intros a n k' j' i' Hc; simpl.
  - reflexivity.
  - rewrite IH by exact Hc. unfold accum. now apply store_other_cell.
Qed.

(** A slot that no statement names keeps its value. *)
Lemma assign_all_other_slot (l : list (Z * Real)) (k j i : Z) :
  forall (a : Array4 Real) n k' j' i',
    ~ In n (map fst l) ->
    assign_all l k j i a n k' j' i' = a n k' j' i'.
Proof.
  induction l as [|nv l IH]; intros a n k' j' i' Hn; simpl in *.
  - reflexivity.
  - rewrite IH by tauto. unfold accum. apply store_other_slot. intros ->. tauto.
Qed.

(** With distinct slots, the statement [(n, v)] is the only one that writes
    slot [n]: the cell ends with [old + v] there. *)
Lemma assign_all_slot (l : list (Z * Real)) (k j i : Z) :
  NoDup (map fst l) ->
  forall (a : Array4 Real) n v,
    In (n, v) l ->
    assign_all l k j i a n k j i = add (a n k j i) v.
Proof.
  induction l as [|[n0 v0] l IH]; intros Hnd a n v Hin; simpl in *.
  - destruct Hin.
  - inversion Hnd as [|? ? Hnotin Hnd']; subst.
    destruct Hin as [Heq | Hin].
    + inversion Heq; subst.
      rewrite assign_all_other_slot by exact Hnotin.
      unfold accum; simpl. apply store_eq.
    + rewrite (IH Hnd' _ n v Hin). f_equal.
      unfold accum; simpl. apply store_other_slot.
      intros ->. apply Hnotin. apply (in_map fst) in Hin. exact Hin.
Qed.

Lemma assignments_slots (s : Sums Real) :
  map fst (assignments s) = moment_slots.
Proof. reflexivity. Qed.

(** One execution of the cell body keeps the tensor of every cell symmetric:
    in the cell it writes, both members of each off-diagonal pair receive the
    same increment. *)
Lemma cell_body_symmetric (r : RadiationObj Real) (ifr k j i : Z)
      (a : Array4 Real) (k' j' i' : Z) :
  layout_ok ->
  symmetric_at a k' j' i' ->
  symmetric_at (cell_body r ifr k j i a) k' j' i'.
Proof.
  intros [Hnd _] (H12 & H13 & H23). unfold cell_body.
  set (s := cell_sums r ifr k j i).
  assert (Hnd' : NoDup (map fst (assignments s)))
    by (rewrite assignments_slots; exact Hnd).
  destruct (Z.eq_dec k' k) as [-> | Hk];
    [destruct (Z.eq_dec j' j) as [-> | Hj];
     [destruct (Z.eq_dec i' i) as [-> | Hi] |] |].
  - unfold symmetric_at.
    rewrite (assign_all_slot _ k j i Hnd' a PR12 (times_4pi (prxy s)))
      by (simpl; tauto).
    rewrite (assign_all_slot _ k j i Hnd' a PR21 (times_4pi (prxy s)))
      by (simpl; tauto).
    rewrite (assign_all_slot _ k j i Hnd' a PR13 (times_4pi (prxz s)))
      by (simpl; tauto).
    rewrite (assign_all_slot _ k j i Hnd' a PR31 (times_4pi (prxz s)))
      by (simpl; tauto).
    rewrite (assign_all_slot _ k j i Hnd' a PR23 (times_4pi (pryz s)))
      by (simpl; tauto).
    rewrite (assign_all_slot _ k j i Hnd' a PR32 (times_4pi (pryz s)))
      by (simpl; tauto).
    rewrite H12, H13, H23. repeat split.
  - unfold symmetric_at. rewrite !assign_all_other_cell by congruence.
    repeat split; assumption.
  - unfold symmetric_at. rewrite !assign_all_other_cell by congruence.
    repeat split; assumption.
  - unfold symmetric_at. rewrite !assign_all_other_cell by congruence.
    repeat split; assumption.
Qed.

(** The accumulation loop nest keeps the tensor of every cell symmetric. *)
Lemma accumulate_moments_symmetric (r : RadiationObj Real) (a : Array4 Real)
      (k j i : Z) :
  layout_ok ->
  symmetric_at a k j i ->
  symmetric_at (accumulate_moments r a) k j i.
Proof.
  intros Hok. unfold accumulate_moments.
  apply (for_loop_inv (fun a' => symmetric_at a' k j i)); intros ifr a1 _.
  apply (for_loop_inv (fun a' => symmetric_at a' k j i)); intros k1 a2 _.
  apply (for_loop_inv (fun a' => symmetric_at a' k j i)); intros j1 a3 _.
  apply (for_loop_inv (fun a' => symmetric_at a' k j i)); intros i1 a4 _.
  now apply cell_body_symmetric.
Qed.

(** A store of [0.0] anywhere keeps an entry that is already [0.0]. *)
Lemma store_zero_keeps (a : Array4 Real) (n k j i n' k' j' i' : Z) :
  a n k j i = zero -> store a n' k' j' i' zero n k j i = zero.
Proof.
  intros Ha. unfold store.
  destruct ((n =? n') && (k =? k') && (j =? j') && (i =? i'))%Z%bool;
    [reflexivity | exact Ha].
Qed.

(** The reset loop nest zeroes the 13 planes of every visited cell. *)
Lemma reset_moments_zero (r : RadiationObj Real) (a : Array4 Real)
      (n k j i : Z) :
  (0 <= n < 13)%Z -> in_block r k j i ->
  reset_moments r a n k j i = zero.
Proof.
  intros Hn (Hk & Hj & Hi). unfold reset_moments.
  apply (for_loop_establish (fun a' => a' n k j i = zero) 13 n); [exact Hn | |].
  - intros a1.
    apply (for_loop_establish (fun a' => a' n k j i = zero) _ k); [exact Hk | |].
    + intros a2.
      apply (for_loop_establish (fun a' => a' n k j i = zero) _ j);
        [exact Hj | |].
      * intros a3.
        apply (for_loop_establish (fun a' => a' n k j i = zero) _ i);
          [exact Hi | |].
        -- intros a4. apply store_eq.
        -- intros i1 a4 _. apply store_zero_keeps.
      * intros j1 a3 _.
        apply (for_loop_inv (fun a' => a' n k j i = zero)).
        intros i1 a4 _. apply store_zero_keeps.
    + intros k1 a2 _.
      apply (for_loop_inv (fun a' => a' n k j i = zero)); intros j1 a3 _.
      apply (for_loop_inv (fun a' => a' n k j i = zero)); intros i1 a4 _.
      apply store_zero_keeps.
  - intros n1 a1 _.
    apply (for_loop_inv (fun a' => a' n k j i = zero)); intros k1 a2 _.
    apply (for_loop_inv (fun a' => a' n k j i = zero)); intros j1 a3 _.
    apply (for_loop_inv (fun a' => a' n k j i = zero)); intros i1 a4 _.
    apply store_zero_keeps.
Qed.

Lemma slot_bound (n : Z) :
  layout_ok -> In n moment_slots -> (0 <= n < 13)%Z.
Proof.
  intros [_ Hb] Hin. rewrite Forall_forall in Hb. now apply Hb.
Qed.

(** Zeroed first, then incremented pairwise: the tensor of every visited
    cell ends up symmetric. *)
Lemma CalculateMoment_symmetric_visited (r : RadiationObj Real) (k j i : Z) :
  layout_ok ->
  in_block r k j i ->
  symmetric_at (rad_mom (CalculateMoment r)) k j i.
Proof.
  intros Hok Hcell. simpl.
  apply accumulate_moments_symmetric; [exact Hok|].
  unfold symmetric_at.
  rewrite !reset_moments_zero;
    try exact Hcell;
    try (apply slot_bound; [exact Hok | unfold moment_slots; simpl; tauto]).
  repeat split.
Qed.

(** C10. After [Radiation::CalculateMoment], the radiation pressure tensor
    stored in [rad_mom] is symmetric at every cell of the block: the entries
    PR12 and PR21, PR13 and PR31, PR23 and PR32 are equal, each pair being
    accumulated from the same angular sum (prxy, prxz, pryz). The 13
    enumerators are assumed distinct and within the 13 allocated planes. *)
Theorem CalculateMoment_pressure_symmetric (r : RadiationObj Real) (k j i : Z) :
  layout_ok ->
  in_block r k j i ->
  rad_mom (CalculateMoment r) PR12 k j i = rad_mom (CalculateMoment r) PR21 k j i /\
  rad_mom (CalculateMoment r) PR13 k j i = rad_mom (CalculateMoment r) PR31 k j i /\
  rad_mom (CalculateMoment r) PR23 k j i = rad_mom (CalculateMoment r) PR32 k j i.
Proof.
  intros Hok Hcell.
  exact (CalculateMoment_symmetric_visited r k j i Hok Hcell).
Qed.

(** Cells that are not visited keep whatever [rad_mom] held before. *)
Lemma CalculateMoment_outside_block (r : RadiationObj Real) (n k j i : Z) :
  ~ in_block r k j i ->
  rad_mom (CalculateMoment r) n k j i = rad_mom r n k j i.
Proof.
  intros Hout. simpl.
  assert (Hne : forall k1 j1 i1, in_block r k1 j1 i1 -> (k, j, i) <> (k1, j1, i1)).
  { intros k1 j1 i1 Hin Heq. inversion Heq; subst. now apply Hout. }
  unfold accumulate_moments, reset_moments.
  set (P := fun a' : Array4 Real => a' n k j i = rad_mom r n k j i).
  apply (for_loop_inv P); [intros ifr a1 _|].
  - apply (for_loop_inv P); intros k1 a2 Hk1.
    apply (for_loop_inv P); intros j1 a3 Hj1.
    apply (for_loop_inv P); intros i1 a4 Hi1 Ha4.
    unfold P, cell_body. rewrite assign_all_other_cell; [exact Ha4|].
    apply Hne. repeat split; lia.
  - apply (for_loop_inv P); [intros n1 a1 _ | reflexivity].
    apply (for_loop_inv P); intros k1 a2 Hk1.
    apply (for_loop_inv P); intros j1 a3 Hj1.
    apply (for_loop_inv P); intros i1 a4 Hi1 Ha4.
    unfold P. rewrite store_other_cell; [exact Ha4|].
    apply Hne. repeat split; lia.
Qed.

(** Every cell that the loops visit lies within the extents allocated by the
    constructor, so distinct index tuples name distinct array elements. *)
Lemma visited_cells_allocated (r : RadiationObj Real) (k j i : Z) :
  (0 <= NGHOST)%Z -> in_block r k j i -> in_alloc r k j i.
Proof.
  intros Hg.
  unfold in_alloc, in_block, alloc_n1z, alloc_n2z, alloc_n3z, ndim,
    n1z, n2z, n3z.
  destruct (Z.gtb_spec (nx3 (block_size r)) 1) as [Hx3 | Hx3];
    destruct (Z.gtb_spec (nx2 (block_size r)) 1) as [Hx2 | Hx2];
    cbn [Z.eqb Pos.eqb]; lia.
Qed.

(** On a well-formed block the loops of [CalculateMoment] visit exactly the
    cells that the constructor allocated. *)
Lemma allocated_cells_visited (r : RadiationObj Real) (k j i : Z) :
  block_ok r -> (in_alloc r k j i <-> in_block r k j i).
Proof.
  intros (H2 & H3 & H32).
  unfold in_alloc, in_block, alloc_n1z, alloc_n2z, alloc_n3z, ndim,
    n1z, n2z, n3z.
  destruct (Z.gtb_spec (nx3 (block_size r)) 1) as [Hx3 | Hx3];
    destruct (Z.gtb_spec (nx2 (block_size r)) 1) as [Hx2 | Hx2];
    cbn [Z.eqb Pos.eqb]; lia.
Qed.

(** Hence the tensor is symmetric at every allocated cell. *)
Lemma CalculateMoment_symmetric_allocated (r : RadiationObj Real) (k j i : Z) :
  layout_ok -> block_ok r -> in_alloc r k j i ->
  symmetric_at (rad_mom (CalculateMoment r)) k j i.
Proof.
  intros Hok Hblock Hcell.
  apply CalculateMoment_symmetric_visited; [exact Hok|].
  now apply allocated_cells_visited.
Qed.

End MomentFacts.

Lemma sample_layout_ok : @layout_ok sample_layout.
Proof.
  unfold layout_ok, moment_slots; simpl. split.
  - repeat (constructor; [simpl; lia|]). constructor.
  - repeat (constructor; [lia|]). constructor.
Qed.

(** The code run on the sample block (one active cell, two ghost zones on
    each side): the middle cell after two frequencies and three angles. *)
Example sample_moments_inside :
  map (fun n => sample_moments n 0 0 2)%Z (@moment_slots sample_layout) =
  [1776; 792; 2568; 4344; 1224; 2016; 2808; 2016; 4584; 7152; 2808; 7152; 11496]%Z.
Proof. vm_compute. reflexivity. Qed.

(** A cell beyond the loop bounds keeps the junk it held, symmetric or not. *)
Example sample_moments_outside :
  (sample_moments 5 0 0 7, sample_moments 7 0 0 7)%Z = (42, 56)%Z.
Proof. vm_compute. reflexivity. Qed.

Lemma CalculateMoment_pressure_symmetric_witness :
  @layout_ok sample_layout /\
  @in_block Z sample_layout sample_rad 0 0 2 /\
  @symmetric_at Z sample_layout sample_moments 0 0 2.
Proof.
  assert (Hin : @in_block Z sample_layout sample_rad 0 0 2)
    by (unfold in_block, n1z, n2z, n3z; simpl; lia).
  split; [exact sample_layout_ok|]. split; [exact Hin|].
  exact (@CalculateMoment_pressure_symmetric Z Z_ops sample_layout
           sample_rad 0 0 2 sample_layout_ok Hin).
Defined.

End RadiationFacts.

(* ------------------------------------------------------------------ *)
(** ** More about counted loops *)

Module LoopMore.
Import Loops LoopFacts.

(** A quantity that no iteration changes is unchanged by the loop. *)
Lemma for_loop_keep {St V : Type} (val : St -> V) (n : Z)
      (body : Z -> St -> St) :
  (forall i s, (0 <= i < n)%Z -> val (body i s) = val s) ->
  forall s, val (for_loop n body s) = val s.
Proof.
  intros Hkeep s.
  apply (for_loop_inv (fun s' => val s' = val s)); [|reflexivity].
  intros i s' Hi Hs'. rewrite Hkeep by exact Hi. exact Hs'.
Qed.

(** A quantity that every iteration [i] transforms by [h i] is transformed
    by the loop over the [h i]. *)
Lemma for_loop_map {St V : Type} (val : St -> V) (h : Z -> V -> V) (n : Z)
      (body : Z -> St -> St) :
  (forall i s, (0 <= i < n)%Z -> val (body i s) = h i (val s)) ->
  forall s, val (for_loop n body s) = for_loop n h (val s).
Proof.
  intros Hstep. unfold for_loop.
  assert (Hin : forall i, In i (range n) -> (0 <= i < n)%Z)
    by (intros i; apply in_range).
  revert Hin. generalize (range n) as l.
  induction l as [|i l IH]; intros Hin s; simpl.
  - reflexivity.
  - rewrite IH by (intros i' Hi'; apply Hin; now right).
    rewrite Hstep by (apply Hin; now left). reflexivity.
Qed.

Lemma range_NoDup (n : Z) : NoDup (range n).
Proof.
  unfold range. apply NoDup_map_NoDup_ForallPairs.
  - intros a b _ _ Hab. lia.
  - apply seq_NoDup.
Qed.

Lemma fold_keep {St V : Type} (val : St -> V) (body : Z -> St -> St)
      (l : list Z) :
  (forall i s, In i l -> val (body i s) = val s) ->
  forall s, val (fold_left (fun st i => body i st) l s) = val s.
Proof.
  induction l as [|i l IH]; intros Hkeep s; simpl.
  - reflexivity.
  - rewrite IH by (intros i' s' Hi'; apply Hkeep; now right).
    apply Hkeep. now left.
Qed.

(** A quantity that exactly one iteration [i0] changes, by [g]. *)
Lemma for_loop_once {St V : Type} (val : St -> V) (g : V -> V) (n i0 : Z)
      (body : Z -> St -> St) :
  (0 <= i0 < n)%Z ->
  (forall s, val (body i0 s) = g (val s)) ->
  (forall i s, (0 <= i < n)%Z -> i <> i0 -> val (body i s) = val s) ->
  forall s, val (for_loop n body s) = g (val s).
Proof.
  intros Hi0 Hat Hother s. unfold for_loop.
  assert (Hin : In i0 (range n)) by (apply in_range; exact Hi0).
  assert (Hall : forall i, In i (range n) -> (0 <= i < n)%Z)
    by (intros i; apply in_range).
  assert (Hnd := range_NoDup n).
  revert Hin Hall Hnd s. generalize (range n) as l.
  induction l as [|i l IH]; intros Hin Hall Hnd s; simpl.
  - destruct Hin.
  - inversion Hnd as [|? ? Hnotin Hnd']; subst.
    destruct Hin as [-> | Hin].
    + rewrite (fold_keep val body l); [apply Hat|].
      intros i' s' Hi'. apply Hother; [apply Hall; now right|].
      intros ->. contradiction.
    + rewrite IH; [| exact Hin | intros i' Hi'; apply Hall; now right
                   | exact Hnd'].
      f_equal. apply Hother; [apply Hall; now left|].
      intros ->. contradiction.
Qed.

End LoopMore.

(* ------------------------------------------------------------------ *)
(** ** Radiation moments: values, frame, extents *)

Module RadiationMore.
Import Loops LoopFacts LoopMore Radiation RadiationFacts.

Section MomentValues.
Context {Real : Type} `{FloatOps Real} `{MomentLayout}.

(** The statements of cell [(k,j,i)] add [v] to slot [n] of that cell. *)
Lemma cell_body_at (r : RadiationObj Real) (ifr k j i : Z) (a : Array4 Real)
      (n : Z) (pick : Sums Real -> Real) :
  NoDup moment_slots ->
  (forall s, In (n, times_4pi (pick s)) (assignments s)) ->
  cell_body r ifr k j i a n k j i =
  add (a n k j i) (times_4pi (pick (cell_sums r ifr k j i))).
Proof.
  intros Hnd Hpick. unfold cell_body.
  apply assign_all_slot; [|apply Hpick].
  rewrite assignments_slots. exact Hnd.
Qed.

Lemma cell_body_elsewhere (r : RadiationObj Real) (ifr k j i : Z)
      (a : Array4 Real) (n k' j' i' : Z) :
  (k', j', i') <> (k, j, i) ->
  cell_body r ifr k j i a n k' j' i' = a n k' j' i'.
Proof. intros Hne. unfold cell_body. now apply assign_all_other_cell. Qed.

(** One pass over the cells, for one frequency, adds the term of that
    frequency to the slot. *)
Lemma cell_pass_at (r : RadiationObj Real) (ifr : Z) (a : Array4 Real)
      (n : Z) (pick : Sums Real -> Real) (k j i : Z) :
  NoDup moment_slots ->
  (forall s, In (n, times_4pi (pick s)) (assignments s)) ->
  in_block r k j i ->
  for_loop (n3z r) (fun k1 =>
    for_loop (n2z r) (fun j1 =>
      for_loop (n1z r) (fun i1 => cell_body r ifr k1 j1 i1))) a n k j i =
  add (a n k j i) (times_4pi (pick (cell_sums r ifr k j i))).
Proof.
  intros Hnd Hpick (Hk & Hj & Hi).
  set (val := fun a' : Array4 Real => a' n k j i).
  set (g := fun x : Real => add x (times_4pi (pick (cell_sums r ifr k j i)))).
  change (val (for_loop (n3z r) (fun k1 =>
            for_loop (n2z r) (fun j1 =>
              for_loop (n1z r) (fun i1 => cell_body r ifr k1 j1 i1))) a)
          = g (val a)).
  apply (for_loop_once val g _ k); [exact Hk | |].
  - intros a1. apply (for_loop_once val g _ j); [exact Hj | |].
    + intros a2. apply (for_loop_once val g _ i); [exact Hi | |].
      * intros a3. unfold val, g. now apply cell_body_at.
      * intros i1 a3 _ Hne. unfold val. apply cell_body_elsewhere. congruence.
    + intros j1 a2 _ Hne. apply for_loop_keep. intros i1 a3 _.
      unfold val. apply cell_body_elsewhere. congruence.
  - intros k1 a1 _ Hne. apply for_loop_keep. intros j1 a2 _.
    apply for_loop_keep. intros i1 a3 _.
    unfold val. apply cell_body_elsewhere. congruence.
Qed.

(** The value of a slot of a visited cell after [CalculateMoment]. *)
Lemma moment_value (r : RadiationObj Real) (n : Z) (pick : Sums Real -> Real)
      (k j i : Z) :
  layout_ok ->
  (forall s, In (n, times_4pi (pick s)) (assignments s)) ->
  in_block r k j i ->
  rad_mom (CalculateMoment r) n k j i = frequency_sum r pick k j i.
Proof.
  intros Hok Hpick Hcell. simpl. unfold accumulate_moments, frequency_sum.
  assert (Hn : (0 <= n < 13)%Z).
  { apply slot_bound; [exact Hok|].
    specialize (Hpick sums0). apply (in_map fst) in Hpick.
    rewrite assignments_slots in Hpick. exact Hpick. }
  rewrite (for_loop_map (fun a' : Array4 Real => a' n k j i)
             (fun ifr acc =>
                add acc (times_4pi (pick (cell_sums r ifr k j i))))).
  - rewrite reset_moments_zero by assumption. reflexivity.
  - intros ifr a _. apply cell_pass_at; [apply Hok | exact Hpick | exact Hcell].
Qed.

(** Every slot is written by one of the thirteen statements. *)
Lemma slot_pick (n : Z) :
  In n moment_slots ->
  exists pick : Sums Real -> Real,
    forall s, In (n, times_4pi (pick s)) (assignments s).
Proof.
  unfold moment_slots. simpl.
  intros [<- | [<- | [<- | [<- | [<- | [<- | [<- | [<- | [<- | [<- | [<- |
          [<- | [<- | []]]]]]]]]]]]]].
  - exists er. intros s. simpl. tauto.
  - exists frx. intros s. simpl. tauto.
  - exists fry. intros s. simpl. tauto.
  - exists frz. intros s. simpl. tauto.
  - exists prxx. intros s. simpl. tauto.
  - exists prxy. intros s. simpl. tauto.
  - exists prxz. intros s. simpl. tauto.
  - exists prxy. intros s. simpl. tauto.
  - exists pryy. intros s. simpl. tauto.
  - exists pryz. intros s. simpl. tauto.
  - exists prxz. intros s. simpl. tauto.
  - exists pryz. intros s. simpl. tauto.
  - exists przz. intros s. simpl. tauto.
Qed.

(** The accumulation never writes a plane that is not one of the slots. *)
Lemma accumulate_other_plane (r : RadiationObj Real) (a : Array4 Real)
      (n k j i : Z) :
  ~ In n moment_slots -> accumulate_moments r a n k j i = a n k j i.
Proof.
  intros Hn. unfold accumulate_moments.
  set (val := fun a' : Array4 Real => a' n k j i).
  change (val (for_loop (nfreq r) (fun ifr =>
            for_loop (n3z r) (fun k1 =>
              for_loop (n2z r) (fun j1 =>
                for_loop (n1z r) (fun i1 => cell_body r ifr k1 j1 i1)))) a)
          = val a).
  apply for_loop_keep; intros ifr a1 _.
  apply for_loop_keep; intros k1 a2 _.
  apply for_loop_keep; intros j1 a3 _.
  apply for_loop_keep; intros i1 a4 _.
  unfold val, cell_body. apply assign_all_other_slot.
  rewrite assignments_slots. exact Hn.
Qed.

(** The reset never writes a plane outside [0, 13). *)
Lemma reset_other_plane (r : RadiationObj Real) (a : Array4 Real)
      (n k j i : Z) :
  ~ (0 <= n < 13)%Z -> reset_moments r a n k j i = a n k j i.
Proof.
  intros Hn. unfold reset_moments.
  set (val := fun a' : Array4 Real => a' n k j i).
  change (val (for_loop 13 (fun n1 =>
            for_loop (n3z r) (fun k1 =>
              for_loop (n2z r) (fun j1 =>
                for_loop (n1z r) (fun i1 a' => store a' n1 k1 j1 i1 zero)))) a)
          = val a).
  apply for_loop_keep; intros n1 a1 Hn1.
  apply for_loop_keep; intros k1 a2 _.
  apply for_loop_keep; intros j1 a3 _.
  apply for_loop_keep; intros i1 a4 _.
  unfold val. apply store_other_slot. lia.
Qed.

(** X1. The thirteen moments of a visited cell, slot by slot: each is the sum
    over the frequencies, started at [0.0], of its angular sum times the
    frequency weight times [4.0 * PI]. What [rad_mom] held before does not
    enter. *)
Theorem CalculateMoment_moments (r : RadiationObj Real) (k j i : Z) :
  layout_ok ->
  in_block r k j i ->
  let m := rad_mom (CalculateMoment r) in
  m ER k j i = frequency_sum r er k j i /\
  m FR1 k j i = frequency_sum r frx k j i /\
  m FR2 k j i = frequency_sum r fry k j i /\
  m FR3 k j i = frequency_sum r frz k j i /\
  m PR11 k j i = frequency_sum r prxx k j i /\
  m PR12 k j i = frequency_sum r prxy k j i /\
  m PR13 k j i = frequency_sum r prxz k j i /\
  m PR21 k j i = frequency_sum r prxy k j i /\
  m PR22 k j i = frequency_sum r pryy k j i /\
  m PR23 k j i = frequency_sum r pryz k j i /\
  m PR31 k j i = frequency_sum r prxz k j i /\
  m PR32 k j i = frequency_sum r pryz k j i /\
  m PR33 k j i = frequency_sum r przz k j i.
Proof.
  intros Hok Hcell m. unfold m.
  repeat split;
    (apply moment_value; [exact Hok | intros s; simpl; tauto | exact Hcell]).
Qed.

(** X2. Without frequencies ([nfreq <= 0]) the thirteen planes of every visited
    cell are left at [0.0]. *)
Theorem CalculateMoment_no_frequency (r : RadiationObj Real) (n k j i : Z) :
  (nfreq r <= 0)%Z ->
  (0 <= n < 13)%Z ->
  in_block r k j i ->
  rad_mom (CalculateMoment r) n k j i = zero.
Proof.
  intros Hfreq Hn Hcell. simpl. unfold accumulate_moments.
  rewrite for_loop_nonpos by exact Hfreq.
  now apply reset_moments_zero.
Qed.

(** X3. [CalculateMoment] starts from scratch: a second call in a row changes
    nothing in [rad_mom], at any index. *)
Theorem CalculateMoment_idempotent (r : RadiationObj Real) (n k j i : Z) :
  layout_ok ->
  rad_mom (CalculateMoment (CalculateMoment r)) n k j i =
  rad_mom (CalculateMoment r) n k j i.
Proof.
  intros Hok.
  assert (Hdec : in_block r k j i \/ ~ in_block r k j i)
    by (unfold in_block; lia).
  destruct Hdec as [Hcell | Hout];
    [|now apply (CalculateMoment_outside_block (CalculateMoment r))].
  destruct (in_dec Z.eq_dec n moment_slots) as [Hslot | Hplane].
  - destruct (slot_pick n Hslot) as [pick Hpick].
    rewrite (moment_value (CalculateMoment r) n pick) by assumption.
    rewrite (moment_value r n pick) by assumption.
    reflexivity.
  - change (accumulate_moments r
              (reset_moments r (rad_mom (CalculateMoment r))) n k j i =
            rad_mom (CalculateMoment r) n k j i).
    rewrite accumulate_other_plane by exact Hplane.
    assert (Hn : (0 <= n < 13)%Z \/ ~ (0 <= n < 13)%Z) by lia.
    destruct Hn as [Hn | Hn].
    + rewrite reset_moments_zero by assumption.
      simpl. rewrite accumulate_other_plane by exact Hplane.
      now rewrite reset_moments_zero.
    + now apply reset_other_plane.
Qed.

(** X5. The loops of [CalculateMoment] stay within the extents that the
    constructor gave to [rad_mom], [ir] and [mu], whatever the block size,
    as long as [NGHOST] is not negative. *)
Theorem CalculateMoment_within_allocation (r : RadiationObj Real) (k j i : Z) :
  (0 <= NGHOST)%Z ->
  in_block r k j i ->
  in_alloc r k j i.
Proof. apply visited_cells_allocated. Qed.

End MomentValues.





(** Beyond that the products leave [int] and the model gives no value:
    46341 is the first [nmu] whose square does. *)
Example ctor_nang_overflow :
  ctor_nang 46341 10 {| nx1 := 8; nx2 := 8; nx3 := 8 |} 0 = None /\
  ctor_nang 46341 0 {| nx1 := 8; nx2 := 8; nx3 := 8 |} 0 = None.
Proof. split; reflexivity. Qed.

Lemma sample_in_block : (@in_block Z sample_layout sample_rad 0 0 2)%Z.
Proof. unfold in_block, n1z, n2z, n3z; simpl; lia. Qed.

Lemma CalculateMoment_moments_witness :
  @layout_ok sample_layout /\
  (@in_block Z sample_layout sample_rad 0 0 2)%Z /\
  (sample_moments 0 0 0 2 = @frequency_sum Z Z_ops sample_rad er 0 0 2)%Z.
Proof.
  split; [exact sample_layout_ok|]. split; [exact sample_in_block|].
  exact (proj1 (@CalculateMoment_moments Z Z_ops sample_layout sample_rad
                  0%Z 0%Z 2%Z sample_layout_ok sample_in_block)).
Defined.

Lemma CalculateMoment_no_frequency_witness :
  let dark := {| block_size := block_size sample_rad; nfreq := 0%Z;
                 nang := nang sample_rad; ir := ir sample_rad;
                 mu := mu sample_rad; wmu := wmu sample_rad;
                 wfreq := wfreq sample_rad; rad_mom := rad_mom sample_rad |} in
  (rad_mom (@CalculateMoment Z Z_ops sample_layout dark) 5 0 0 2 = 0)%Z.
Proof.
  intros dark.
  apply (@CalculateMoment_no_frequency Z Z_ops sample_layout dark 5%Z 0%Z 0%Z 2%Z).
  - simpl; lia.
  - lia.
  - exact sample_in_block.
Defined.

Lemma CalculateMoment_idempotent_witness :
  (rad_mom (@CalculateMoment Z Z_ops sample_layout
              (@CalculateMoment Z Z_ops sample_layout sample_rad)) 5 0 0 2 =
   sample_moments 5 0 0 2)%Z.
Proof.
  exact (@CalculateMoment_idempotent Z Z_ops sample_layout sample_rad
           5%Z 0%Z 0%Z 2%Z sample_layout_ok).
Defined.

Lemma CalculateMoment_within_allocation_witness :
  (@in_alloc Z sample_layout sample_rad 0 0 2)%Z.
Proof.
  apply (@CalculateMoment_within_allocation Z sample_layout sample_rad).
  - simpl; lia.
  - exact sample_in_block.
Defined.


End RadiationMore.

(* ------------------------------------------------------------------ *)
(** ** Constant radiation *)

Module RadIntegratorFacts.
Import Loops LoopFacts LoopMore RadIntegrator.

Lemma for_range_keep {St V : Type} (val : St -> V) (lo hi : Z)
      (body : Z -> St -> St) :
  (forall i s, (lo <= i <= hi)%Z -> val (body i s) = val s) ->
  forall s, val (for_range lo hi body s) = val s.
Proof.
  intros Hkeep s. unfold for_range. apply for_loop_keep.
  intros m s' Hm. apply Hkeep. lia.
Qed.

Lemma for_range_once {St V : Type} (val : St -> V) (g : V -> V) (lo hi i0 : Z)
      (body : Z -> St -> St) :
  (lo <= i0 <= hi)%Z ->
  (forall s, val (body i0 s) = g (val s)) ->
  (forall i s, (lo <= i <= hi)%Z -> i <> i0 -> val (body i s) = val s) ->
  forall s, val (for_range lo hi body s) = g (val s).
Proof.
  intros Hi0 Hat Hother s. unfold for_range.
  apply (for_loop_once val g _ (i0 - lo)%Z); [lia | |].
  - intros s'. replace (lo + (i0 - lo))%Z with i0 by lia. apply Hat.
  - intros m s' Hm Hne. apply Hother; lia.
Qed.

Section Copy.
Context {Real : Type}.
Variable NGHOST : Z.

Lemma store4_eq (a : Z -> Z -> Z -> Z -> Real) (n k j i : Z) (v : Real) :
  store4 a n k j i v n k j i = v.
Proof. unfold store4. now rewrite !Z.eqb_refl. Qed.

Lemma store4_other (a : Z -> Z -> Z -> Z -> Real) (n k j i n' k' j' i' : Z)
      (v : Real) :
  (n', k', j', i') <> (n, k, j, i) ->
  store4 a n k j i v n' k' j' i' = a n' k' j' i'.
Proof.
  intros Hne. unfold store4.
  destruct (Z.eqb_spec n' n); simpl; [|reflexivity].
  destruct (Z.eqb_spec k' k); simpl; [|reflexivity].
  destruct (Z.eqb_spec j' j); simpl; [|reflexivity].
  destruct (Z.eqb_spec i' i); simpl; [|reflexivity].
  subst. now contradiction Hne.
Qed.

(** The value that [CopyToOutput] leaves at an index its loops reach. *)
Lemma CopyToOutput_value (mb : BlockBounds) (rad : RadFields Real)
      (ifreq k j i : Z) :
  copied NGHOST mb (nfreq rad) ifreq k j i ->
  ir_avg (CopyToOutput NGHOST mb rad) ifreq k j i =
  ir rad k j i (ifreq * nang rad)%Z.
Proof.
  intros (Hf & Hk & Hj & Hi). simpl.
  set (val := fun a : Z -> Z -> Z -> Z -> Real => a ifreq k j i).
  set (g := fun _ : Real => ir rad k j i (ifreq * nang rad)%Z).
  change (val (for_range (ks mb - NGHOST) (ke mb + NGHOST) (fun k1 =>
            for_range (js mb - NGHOST) (je mb + NGHOST) (fun j1 =>
              for_range (is_ mb - NGHOST) (ie mb + NGHOST) (fun i1 =>
                for_loop (nfreq rad) (fun f1 a =>
                  store4 a f1 k1 j1 i1
                         (ir rad k1 j1 i1 (f1 * nang rad)%Z)))))
            (ir_avg rad)) = g (val (ir_avg rad))).
  apply (for_range_once val g _ _ k); [exact Hk | |].
  - intros a1. apply (for_range_once val g _ _ j); [exact Hj | |].
    + intros a2. apply (for_range_once val g _ _ i); [exact Hi | |].
      * intros a3. apply (for_loop_once val g _ ifreq); [exact Hf | |].
        -- intros a4. unfold val, g. apply store4_eq.
        -- intros f1 a4 _ Hne. unfold val. apply store4_other. congruence.
      * intros i1 a3 _ Hne. apply for_loop_keep. intros f1 a4 _.
        unfold val. apply store4_other. congruence.
    + intros j1 a2 _ Hne. apply for_range_keep. intros i1 a3 _.
      apply for_loop_keep. intros f1 a4 _.
      unfold val. apply store4_other. congruence.
  - intros k1 a1 _ Hne. apply for_range_keep. intros j1 a2 _.
    apply for_range_keep. intros i1 a3 _.
    apply for_loop_keep. intros f1 a4 _.
    unfold val. apply store4_other. congruence.
Qed.

(** X7. What [CopyToOutput] stores on a block whose ghost layers lie
    inside the arrays in all three directions: every index the loops reach
    is inside the extents, and for every frequency of every such cell,
    ghost cells included, [ir_avg] receives the entry of [ir] at
    [(k, j, i, ifreq * nang)]: one entry, not an average over the angles. *)
Theorem CopyToOutput_copies (mb : BlockBounds) (rad : RadFields Real)
        (n3z n2z n1z ifreq k j i : Z) :
  loops_in_extents NGHOST mb n3z n2z n1z ->
  copied NGHOST mb (nfreq rad) ifreq k j i ->
  (0 <= k < n3z /\ 0 <= j < n2z /\ 0 <= i < n1z)%Z /\
  ir_avg (CopyToOutput NGHOST mb rad) ifreq k j i =
  ir rad k j i (ifreq * nang rad)%Z.
Proof.
  intros (Hk3 & Hj2 & Hi1) Hc. split.
  - destruct Hc as (_ & Hk & Hj & Hi). lia.
  - now apply CopyToOutput_value.
Qed.

End Copy.

(** On a block with a single layer in [j] or in [k] the loops leave the
    arrays, whatever their extents: they start at [-NGHOST]. *)
Lemma single_layer_leaves_extents (NGHOST : Z) (mb : BlockBounds)
      (n3z n2z n1z : Z) :
  (0 < NGHOST)%Z -> (js mb = 0 \/ ks mb = 0)%Z ->
  ~ loops_in_extents NGHOST mb n3z n2z n1z.
Proof. unfold loops_in_extents. intros Hg Hone Hin. lia. Qed.

(** The sample block: an active cell, a ghost corner, and two indices that
    the loops do not reach. *)
Example sample_copy :
  let out := ir_avg (CopyToOutput 2 sample_bounds sample_fields) in
  (out 0 2 2 3 = 2230 /\ out 1 2 2 3 = 2233 /\ out 1 5 4 7 = 5473 /\
   out 1 6 4 7 = -1 /\ out 2 2 2 3 = -1)%Z.
Proof. vm_compute. repeat split. Qed.

Lemma sample_loops_in_extents : loops_in_extents 2 sample_bounds 6 6 8.
Proof. unfold loops_in_extents; simpl; lia. Qed.

Lemma CopyToOutput_copies_witness :
  (0 <= 5 < 6 /\ 0 <= 4 < 6 /\ 0 <= 7 < 8)%Z /\
  ir_avg (CopyToOutput 2 sample_bounds sample_fields) 1 5 4 7 =
  ir sample_fields 5 4 7 (1 * nang sample_fields).
Proof.
  assert (Hc : copied 2 sample_bounds (nfreq sample_fields) 1 5 4 7)
    by (unfold copied; simpl; lia).
  exact (CopyToOutput_copies 2 sample_bounds sample_fields 6 6 8 1 5 4 7
           sample_loops_in_extents Hc).
Defined.

End RadIntegratorFacts.

(* ------------------------------------------------------------------ *)
(** ** CVODE call-backs *)

Module WrapperFacts.
Import Loops LoopFacts Wrapper.

Section Facts.
Context {Real realtype Obj : Type}.
Context `{Floats Real realtype} `{NetworkWrapper Real Obj}.
Variable NSPECIES : Z.

Lemma upd_eq {A : Type} (a : Z -> A) (i : Z) (v : A) : upd a i v i = v.
Proof. unfold upd. now rewrite Z.eqb_refl. Qed.

Lemma upd_neq {A : Type} (a : Z -> A) (i i' : Z) (v : A) :
  i' <> i -> upd a i v i' = a i'.
Proof. intros Hi. unfold upd. apply Z.eqb_neq in Hi. now rewrite Hi. Qed.

(** A loop that writes [f i] into entry [i] fills the entries below the
    bound and leaves the others. *)
Lemma fill_loop {A : Type} (f : Z -> A) (n : Z) (a : Z -> A) (i : Z) :
  for_loop n (fun i' a' => upd a' i' (f i')) a i =
  if ((0 <=? i) && (i <? n))%Z%bool then f i else a i.
Proof.
  destruct (Z.le_gt_cases n 0) as [Hn | Hn].
  - rewrite for_loop_nonpos by exact Hn.
    destruct (Z.leb_spec 0 i), (Z.ltb_spec i n); simpl; try reflexivity; lia.
  - revert i.
    apply (for_loop_ind
             (fun m s => forall i, s i =
                if ((0 <=? i) && (i <? m))%Z%bool then f i else a i)); [lia | |].
    + intros m s Hm IH i. destruct (Z.eq_dec i m) as [-> | Hne].
      * rewrite upd_eq.
        destruct (Z.leb_spec 0 m), (Z.ltb_spec m (m + 1)); simpl;
          try reflexivity; lia.
      * rewrite upd_neq by exact Hne. rewrite IH.
        destruct (Z.leb_spec 0 i), (Z.ltb_spec i m), (Z.ltb_spec i (m + 1));
          simpl; try reflexivity; lia.
    + intros i. destruct (Z.leb_spec 0 i), (Z.ltb_spec i 0); simpl;
        try reflexivity; lia.
Qed.

Lemma copy_in_spec (v : N_Vector) (a : Arr Real) (i : Z) :
  copy_in NSPECIES v a i = if in_species NSPECIES i then to_Real (v i) else a i.
Proof.
  unfold copy_in, in_species.
  apply (fill_loop (fun i' => to_Real (v i'))).
Qed.

Lemma copy_out_spec (a : Arr Real) (v : N_Vector) (i : Z) :
  copy_out NSPECIES a v i = if in_species NSPECIES i then of_Real (a i) else v i.
Proof.
  unfold copy_out, in_species.
  apply (fill_loop (fun i' => of_Real (a i'))).
Qed.

(** [WrapRHS] hands the first [NSPECIES] entries of [y] to [RHS] and copies
    the first [NSPECIES] entries of its answer into [ydot]. *)
Lemma WrapRHS_spec (t : realtype) (y ydot : N_Vector) (user_data : Obj)
      (loc : Locals Real) :
  let y1 := copy_in NSPECIES y (junk_y1 loc) in
  let r := RHS user_data (to_Real t) y1 (junk_ydot1 loc) in
  let w := WrapRHS NSPECIES t y ydot user_data loc in
  rhs_obj w = fst r /\
  forall i, rhs_ydot w i =
            if in_species NSPECIES i then of_Real (snd r i) else ydot i.
Proof.
  intros y1 r w. unfold w, WrapRHS. fold y1. fold r.
  destruct r as [o yd]; simpl. split; [reflexivity|].
  intros i. apply copy_out_spec.
Qed.

(** The double loop that writes [f i j] into entry [(i, j)]. *)
Lemma fill_loop2 {A : Type} (f : Z -> Z -> A) (n : Z) (m : Z -> Z -> A)
      (i j : Z) :
  for_loop n (fun i' => for_loop n (fun j' m' => upd2 m' i' j' (f i' j'))) m i j =
  if (((0 <=? i) && (i <? n)) && ((0 <=? j) && (j <? n)))%Z%bool
  then f i j else m i j.
Proof.
  destruct (Z.le_gt_cases n 0) as [Hn | Hn].
  - rewrite for_loop_nonpos by exact Hn.
    destruct (Z.leb_spec 0 i), (Z.ltb_spec i n); simpl; try reflexivity; lia.
  - assert (Hrow : forall i0 (s : Z -> Z -> A) i1 j1,
      for_loop n (fun j' m' => upd2 m' i0 j' (f i0 j')) s i1 j1 =
      if ((i1 =? i0) && ((0 <=? j1) && (j1 <? n)))%Z%bool
      then f i0 j1 else s i1 j1).
    { intros i0 s.
      apply (for_loop_ind
               (fun b m' => forall i1 j1, m' i1 j1 =
                  if ((i1 =? i0) && ((0 <=? j1) && (j1 <? b)))%Z%bool
                  then f i0 j1 else s i1 j1)); [lia | |].
      - intros b m' Hb IH i1 j1. unfold upd2. rewrite IH.
        destruct (Z.eqb_spec i1 i0), (Z.eqb_spec j1 b), (Z.leb_spec 0 j1),
          (Z.ltb_spec j1 b), (Z.ltb_spec j1 (b + 1));
          simpl; subst; try reflexivity; lia.
      - intros i1 j1.
        destruct (Z.eqb_spec i1 i0), (Z.leb_spec 0 j1), (Z.ltb_spec j1 0);
          simpl; try reflexivity; lia. }
    revert i j.
    apply (for_loop_ind
             (fun a m' => forall i j, m' i j =
                if (((0 <=? i) && (i <? a)) && ((0 <=? j) && (j <? n)))%Z%bool
                then f i j else m i j)); [lia | |].
    + intros a m' Ha IH i j. rewrite Hrow, IH.
      destruct (Z.eqb_spec i a), (Z.leb_spec 0 i), (Z.ltb_spec i a),
        (Z.ltb_spec i (a + 1)), (Z.leb_spec 0 j), (Z.ltb_spec j n);
        simpl; subst; try reflexivity; lia.
    + intros i j.
      destruct (Z.leb_spec 0 i), (Z.ltb_spec i 0); simpl; try reflexivity; lia.
Qed.

Lemma copy_out_mat_spec (m : Mat Real) (jac : DlsMat) (i j : Z) :
  copy_out_mat NSPECIES m jac i j =
  if (in_species NSPECIES i && in_species NSPECIES j)%bool
  then of_Real (m i j) else jac i j.
Proof.
  unfold copy_out_mat, in_species.
  apply (fill_loop2 (fun i' j' => of_Real (m i' j'))).
Qed.

(** [WrapJacobian] copies the [NSPECIES] x [NSPECIES] block that [Jacobian]
    wrote into the dense matrix of the integrator and leaves the rest of it. *)
Lemma WrapJacobian_spec (n : Z) (t : realtype) (y fy : N_Vector) (jac : DlsMat)
      (user_data : Obj) (tmp1 tmp2 tmp3 : N_Vector) (loc : Locals Real) :
  let yfy := copy_in2 NSPECIES y fy (junk_y1 loc, junk_fy1 loc) in
  let r := Jacobian user_data (to_Real t) (fst yfy) (snd yfy) (junk_jac1 loc)
                    (junk_tmp11 loc) (junk_tmp21 loc) (junk_tmp31 loc) in
  let w := WrapJacobian NSPECIES n t y fy jac user_data tmp1 tmp2 tmp3 loc in
  jac_obj w = fst r /\
  forall i j, jac_jac w i j =
              if (in_species NSPECIES i && in_species NSPECIES j)%bool
              then of_Real (out_jac (snd r) i j) else jac i j.
Proof.
  intros yfy r w. unfold w, WrapJacobian. fold yfy.
  destruct yfy as [y1 fy1]; simpl in r. fold r.
  destruct r as [o out]; simpl.
  destruct (copy_out3 NSPECIES out (tmp1, tmp2, tmp3)) as [[v1 v2] v3]; simpl.
  split; [reflexivity|]. intros i j. apply copy_out_mat_spec.
Qed.

(** C9. For every input (time, state vector [y], and for the Jacobian also
    [fy], with [user_data] pointing to a [NetworkWrapper]), [WrapRHS] and
    [WrapJacobian] return 0, the integrator's success code: no input makes
    either wrapper return a nonzero flag. *)
Theorem wrappers_return_zero
        (n : Z) (t : realtype) (y fy ydot : N_Vector) (jac : DlsMat)
        (user_data : Obj) (tmp1 tmp2 tmp3 : N_Vector) (loc : Locals Real) :
  rhs_flag (WrapRHS NSPECIES t y ydot user_data loc) = 0%Z /\
  jac_flag (WrapJacobian NSPECIES n t y fy jac user_data tmp1 tmp2 tmp3 loc) = 0%Z.
Proof.
  split.
  - unfold WrapRHS.
    destruct (RHS user_data (to_Real t) (copy_in NSPECIES y (junk_y1 loc))
                  (junk_ydot1 loc)) as [o yd].
    reflexivity.
  - unfold WrapJacobian.
    destruct (copy_in2 NSPECIES y fy (junk_y1 loc, junk_fy1 loc)) as [y1 fy1].
    destruct (Jacobian user_data (to_Real t) y1 fy1 (junk_jac1 loc)
                       (junk_tmp11 loc) (junk_tmp21 loc) (junk_tmp31 loc))
      as [o out].
    destruct (copy_out3 NSPECIES out (tmp1, tmp2, tmp3)) as [[v1 v2] v3].
    reflexivity.
Qed.

End Facts.

(** The wrappers run on the toy network: flag, derivative of the two
    species, the untouched third entry and the call counter. *)
Example toy_rhs_run :
  (rhs_flag toy_rhs, map (rhs_ydot toy_rhs) [0; 1; 2], rhs_obj toy_rhs)%Z =
  (0, [-10; -30; 99], 1%nat)%Z.
Proof. vm_compute. reflexivity. Qed.

Example toy_jac_run :
  (jac_flag toy_jac,
   map (fun ij => jac_jac toy_jac (fst ij) (snd ij)) [(0, 0); (0, 1); (1, 0); (1, 1); (2, 2)],
   map (jac_tmp1 toy_jac) [0; 1; 2],
   jac_obj toy_jac)%Z =
  (0, [-1; 0; 1; -2; 99], [15; 15; 1], 1%nat)%Z.
Proof. vm_compute. reflexivity. Qed.

End WrapperFacts.

(* ------------------------------------------------------------------ *)
(** ** CVODE call-backs: data flow and uninitialised locals *)

Module WrapperMore.
Import Loops LoopFacts LoopMore Wrapper WrapperFacts.

Section DataFlow.
Context {Real realtype Obj : Type}.
Context `{Floats Real realtype} `{NetworkWrapper Real Obj}.
Variable NSPECIES : Z.

Lemma in_species_bounds (i : Z) :
  in_species NSPECIES i = true <-> (0 <= i < NSPECIES)%Z.
Proof.
  unfold in_species.
  destruct (Z.leb_spec 0 i), (Z.ltb_spec i NSPECIES); simpl;
    split; intros; try discriminate; try reflexivity; lia.
Qed.

Lemma copy_in2_spec (y fy : N_Vector) (a b : Arr Real) (i : Z) :
  fst (copy_in2 NSPECIES y fy (a, b)) i =
    (if in_species NSPECIES i then to_Real (y i) else a i) /\
  snd (copy_in2 NSPECIES y fy (a, b)) i =
    (if in_species NSPECIES i then to_Real (fy i) else b i).
Proof.
  unfold copy_in2, in_species. split.
  - rewrite (for_loop_map (fun st : Arr Real * Arr Real => fst st)
               (fun i' a' => upd a' i' (to_Real (y i'))))
      by (intros; reflexivity).
    apply (fill_loop (fun i' => to_Real (y i'))).
  - rewrite (for_loop_map (fun st : Arr Real * Arr Real => snd st)
               (fun i' a' => upd a' i' (to_Real (fy i'))))
      by (intros; reflexivity).
    apply (fill_loop (fun i' => to_Real (fy i'))).
Qed.

Lemma copy_out3_loops (o : JacOut Real) (v1 v2 v3 : N_Vector) :
  let r := copy_out3 NSPECIES o (v1, v2, v3) in
  fst (fst r) =
    for_loop NSPECIES (fun i' a' => upd a' i' (of_Real (out_tmp1 o i'))) v1 /\
  snd (fst r) =
    for_loop NSPECIES (fun i' a' => upd a' i' (of_Real (out_tmp2 o i'))) v2 /\
  snd r =
    for_loop NSPECIES (fun i' a' => upd a' i' (of_Real (out_tmp3 o i'))) v3.
Proof.
  unfold copy_out3. cbv zeta. repeat split.
  - apply (for_loop_map
             (fun st : N_Vector * N_Vector * N_Vector => fst (fst st))
             (fun i' a' => upd a' i' (of_Real (out_tmp1 o i')))).
    intros i' [[w1 w2] w3] _; reflexivity.
  - apply (for_loop_map
             (fun st : N_Vector * N_Vector * N_Vector => snd (fst st))
             (fun i' a' => upd a' i' (of_Real (out_tmp2 o i')))).
    intros i' [[w1 w2] w3] _; reflexivity.
  - apply (for_loop_map
             (fun st : N_Vector * N_Vector * N_Vector => snd st)
             (fun i' a' => upd a' i' (of_Real (out_tmp3 o i')))).
    intros i' [[w1 w2] w3] _; reflexivity.
Qed.

Lemma copy_out3_spec (o : JacOut Real) (v1 v2 v3 : N_Vector) (i : Z) :
  let r := copy_out3 NSPECIES o (v1, v2, v3) in
  fst (fst r) i = (if in_species NSPECIES i then of_Real (out_tmp1 o i) else v1 i) /\
  snd (fst r) i = (if in_species NSPECIES i then of_Real (out_tmp2 o i) else v2 i) /\
  snd r i = (if in_species NSPECIES i then of_Real (out_tmp3 o i) else v3 i).
Proof.
  intros r. destruct (copy_out3_loops o v1 v2 v3) as (E1 & E2 & E3).
  fold r in E1, E2, E3. rewrite E1, E2, E3. unfold in_species.
  repeat split.
  - apply (fill_loop (fun i' => of_Real (out_tmp1 o i'))).
  - apply (fill_loop (fun i' => of_Real (out_tmp2 o i'))).
  - apply (fill_loop (fun i' => of_Real (out_tmp3 o i'))).
Qed.

(** X9. [WrapRHS] calls [RHS] once, on the converted time and on an array
    whose species entries are the converted entries of [y]; it returns the
    object as [RHS] left it and overwrites the species entries of [ydot]
    with the converted answer, leaving every other entry of [ydot]. *)
Theorem WrapRHS_data_flow (t : realtype) (y ydot : N_Vector) (user_data : Obj)
        (loc : Locals Real) :
  exists y1 : Arr Real,
    (forall i, y1 i = if in_species NSPECIES i then to_Real (y i)
                      else junk_y1 loc i) /\
    let r := RHS user_data (to_Real t) y1 (junk_ydot1 loc) in
    let w := WrapRHS NSPECIES t y ydot user_data loc in
    rhs_obj w = fst r /\
    forall i, rhs_ydot w i =
              if in_species NSPECIES i then of_Real (snd r i) else ydot i.
Proof.
  exists (copy_in NSPECIES y (junk_y1 loc)). split.
  - intros i. apply copy_in_spec.
  - apply WrapRHS_spec.
Qed.

(** X10. [WrapJacobian] calls [Jacobian] once, on arrays whose species entries
    are the converted entries of [y] and [fy]; it copies the species block
    of the matrix and the species entries of the three work arrays into the
    integrator's matrix and vectors, and leaves all their other entries. *)
Theorem WrapJacobian_data_flow
        (n : Z) (t : realtype) (y fy : N_Vector) (jac : DlsMat)
        (user_data : Obj) (tmp1 tmp2 tmp3 : N_Vector) (loc : Locals Real) :
  exists y1 fy1 : Arr Real,
    (forall i, y1 i = if in_species NSPECIES i then to_Real (y i)
                      else junk_y1 loc i) /\
    (forall i, fy1 i = if in_species NSPECIES i then to_Real (fy i)
                       else junk_fy1 loc i) /\
    let r := Jacobian user_data (to_Real t) y1 fy1 (junk_jac1 loc)
                      (junk_tmp11 loc) (junk_tmp21 loc) (junk_tmp31 loc) in
    let w := WrapJacobian NSPECIES n t y fy jac user_data tmp1 tmp2 tmp3 loc in
    jac_obj w = fst r /\
    (forall i j, jac_jac w i j =
                 if (in_species NSPECIES i && in_species NSPECIES j)%bool
                 then of_Real (out_jac (snd r) i j) else jac i j) /\
    (forall i, jac_tmp1 w i =
               if in_species NSPECIES i then of_Real (out_tmp1 (snd r) i)
               else tmp1 i) /\
    (forall i, jac_tmp2 w i =
               if in_species NSPECIES i then of_Real (out_tmp2 (snd r) i)
               else tmp2 i) /\
    (forall i, jac_tmp3 w i =
               if in_species NSPECIES i then of_Real (out_tmp3 (snd r) i)
               else tmp3 i).
Proof.
  exists (fst (copy_in2 NSPECIES y fy (junk_y1 loc, junk_fy1 loc))),
         (snd (copy_in2 NSPECIES y fy (junk_y1 loc, junk_fy1 loc))).
  split; [intros i; apply copy_in2_spec|].
  split; [intros i; apply copy_in2_spec|].
  cbv zeta. unfold WrapJacobian.
  destruct (copy_in2 NSPECIES y fy (junk_y1 loc, junk_fy1 loc)) as [y1 fy1].
  cbn [fst snd].
  destruct (Jacobian user_data (to_Real t) y1 fy1 (junk_jac1 loc)
                     (junk_tmp11 loc) (junk_tmp21 loc) (junk_tmp31 loc))
    as [o out].
  pose proof (copy_out3_spec out tmp1 tmp2 tmp3) as Hout. cbv zeta in Hout.
  destruct (copy_out3 NSPECIES out (tmp1, tmp2, tmp3)) as [[w1 w2] w3].
  cbn [fst snd jac_obj jac_jac jac_tmp1 jac_tmp2 jac_tmp3] in *.
  split; [reflexivity|].
  split; [intros i j; apply copy_out_mat_spec|].
  repeat split; intros i; apply Hout.
Qed.

(** X11. With a network whose [RHS] is confined to the species entries, nothing
    of the uninitialised local arrays reaches the integrator: the flag, the
    object and the whole of [ydot] are the same whatever the locals held. *)
Theorem WrapRHS_ignores_locals
        (t : realtype) (y ydot : N_Vector) (user_data : Obj)
        (loc loc' : Locals Real) :
  RHS_confined NSPECIES ->
  let w := WrapRHS NSPECIES t y ydot user_data loc in
  let w' := WrapRHS NSPECIES t y ydot user_data loc' in
  rhs_flag w = rhs_flag w' /\ rhs_obj w = rhs_obj w' /\
  forall i, rhs_ydot w i = rhs_ydot w' i.
Proof.
  intros Hconf w w'.
  destruct (WrapRHS_spec NSPECIES t y ydot user_data loc) as [Ho Hy].
  destruct (WrapRHS_spec NSPECIES t y ydot user_data loc') as [Ho' Hy'].
  fold w in Ho, Hy. fold w' in Ho', Hy'.
  assert (Hin : agree_on_species NSPECIES
                  (copy_in NSPECIES y (junk_y1 loc))
                  (copy_in NSPECIES y (junk_y1 loc'))).
  { intros i Hi. rewrite !copy_in_spec, Hi. reflexivity. }
  destruct (Hconf user_data (to_Real t) _ _ (junk_ydot1 loc) (junk_ydot1 loc')
                  Hin) as [Hobj Hans].
  repeat split.
  - unfold w, w', WrapRHS.
    destruct (RHS user_data (to_Real t) (copy_in NSPECIES y (junk_y1 loc))
                  (junk_ydot1 loc)).
    destruct (RHS user_data (to_Real t) (copy_in NSPECIES y (junk_y1 loc'))
                  (junk_ydot1 loc')).
    reflexivity.
  - rewrite Ho, Ho'. exact Hobj.
  - intros i. rewrite Hy, Hy'.
    destruct (in_species NSPECIES i) eqn:Hi; [|reflexivity].
    f_equal. now apply Hans.
Qed.

(** X12. The same for the matrix returned by [WrapJacobian]. *)
Theorem WrapJacobian_ignores_locals
        (n : Z) (t : realtype) (y fy : N_Vector) (jac : DlsMat)
        (user_data : Obj) (tmp1 tmp2 tmp3 : N_Vector) (loc loc' : Locals Real) :
  Jacobian_confined NSPECIES ->
  let w := WrapJacobian NSPECIES n t y fy jac user_data tmp1 tmp2 tmp3 loc in
  let w' := WrapJacobian NSPECIES n t y fy jac user_data tmp1 tmp2 tmp3 loc' in
  jac_obj w = jac_obj w' /\
  forall i j, jac_jac w i j = jac_jac w' i j.
Proof.
  intros Hconf w w'.
  destruct (WrapJacobian_spec NSPECIES n t y fy jac user_data tmp1 tmp2 tmp3 loc)
    as [Ho Hm].
  destruct (WrapJacobian_spec NSPECIES n t y fy jac user_data tmp1 tmp2 tmp3 loc')
    as [Ho' Hm'].
  fold w in Ho, Hm. fold w' in Ho', Hm'.
  set (c := copy_in2 NSPECIES y fy (junk_y1 loc, junk_fy1 loc)) in *.
  set (c' := copy_in2 NSPECIES y fy (junk_y1 loc', junk_fy1 loc')) in *.
  assert (Hy : agree_on_species NSPECIES (fst c) (fst c')).
  { intros i Hi. unfold c, c'.
    rewrite (proj1 (copy_in2_spec y fy _ _ i)).
    rewrite (proj1 (copy_in2_spec y fy _ _ i)). rewrite Hi. reflexivity. }
  assert (Hfy : agree_on_species NSPECIES (snd c) (snd c')).
  { intros i Hi. unfold c, c'.
    rewrite (proj2 (copy_in2_spec y fy _ _ i)).
    rewrite (proj2 (copy_in2_spec y fy _ _ i)). rewrite Hi. reflexivity. }
  destruct (Hconf user_data (to_Real t) _ _ _ _
                  (junk_jac1 loc) (junk_jac1 loc')
                  (junk_tmp11 loc) (junk_tmp11 loc')
                  (junk_tmp21 loc) (junk_tmp21 loc')
                  (junk_tmp31 loc) (junk_tmp31 loc') Hy Hfy) as [Hobj Hans].
  split.
  - rewrite Ho, Ho'. exact Hobj.
  - intros i j. rewrite Hm, Hm'.
    destruct (in_species NSPECIES i) eqn:Hi; [|reflexivity].
    destruct (in_species NSPECIES j) eqn:Hj; [|reflexivity].
    simpl. f_equal. now apply Hans.
Qed.

End DataFlow.

Lemma toy_RHS_confined : @RHS_confined Z nat toy_network 2.
Proof.
  intros obj t y1 y1' d d' Hy. split; [reflexivity|].
  assert (H0 : y1 0%Z = y1' 0%Z) by (apply Hy; reflexivity).
  assert (H1 : y1 1%Z = y1' 1%Z) by (apply Hy; reflexivity).
  intros i Hi. apply in_species_bounds in Hi.
  unfold RHS, toy_network. cbn [snd]. unfold upd. rewrite H0, H1.
  destruct (Z.eqb_spec i 1); [reflexivity|].
  destruct (Z.eqb_spec i 0); [reflexivity|]. lia.
Qed.

Lemma toy_Jacobian_confined : @Jacobian_confined Z nat toy_network 2.
Proof.
  intros obj t y1 y1' fy1 fy1' m m' a1 a1' a2 a2' a3 a3' _ _.
  split; [reflexivity|].
  intros i j Hi Hj. apply in_species_bounds in Hi, Hj. simpl. unfold upd2.
  destruct (Z.eqb_spec i 1), (Z.eqb_spec i 0), (Z.eqb_spec j 1),
    (Z.eqb_spec j 0); simpl; try reflexivity; lia.
Qed.

Lemma WrapRHS_ignores_locals_witness :
  let w := toy_rhs in
  let w' := @WrapRHS Z Z nat toy_floats toy_network 2 0%Z toy_y
                     (fun _ => 99%Z) 0%nat toy_locals' in
  rhs_flag w = rhs_flag w' /\ rhs_obj w = rhs_obj w' /\
  forall i, rhs_ydot w i = rhs_ydot w' i.
Proof.
  exact (@WrapRHS_ignores_locals Z Z nat toy_floats toy_network 2 0%Z toy_y
           (fun _ => 99%Z) 0%nat toy_locals toy_locals' toy_RHS_confined).
Defined.

Lemma WrapJacobian_ignores_locals_witness :
  let w := toy_jac in
  let w' := @WrapJacobian Z Z nat toy_floats toy_network 2 2%Z 0%Z toy_y
                          (fun _ => 0%Z) (fun _ _ => 99%Z) 0%nat
                          (fun _ => 1%Z) (fun _ => 2%Z) (fun _ => 3%Z)
                          toy_locals' in
  jac_obj w = jac_obj w' /\
  forall i j, jac_jac w i j = jac_jac w' i j.
Proof.
  exact (@WrapJacobian_ignores_locals Z Z nat toy_floats toy_network 2 2%Z 0%Z
           toy_y (fun _ => 0%Z) (fun _ _ => 99%Z) 0%nat
           (fun _ => 1%Z) (fun _ => 2%Z) (fun _ => 3%Z)
           toy_locals toy_locals' toy_Jacobian_confined).
Defined.

End WrapperMore.

(* ------------------------------------------------------------------ *)
(** ** The GOW16 chemical network *)

Module GOW16Facts.
Import Loops LoopFacts GOW16.
#[local] Open Scope R_scope.

(** *** Kinetics over the full abundance vector (specification, section 4.5) *)

Section Derivative.
Variable y : Abundance.
Variable j : Species.

Lemma along_at (c : Species) : along y j (y j) c = y c.
Proof. unfold along. destruct (Species_eq_dec c j); congruence. Qed.

(** Changing the limit to an equal number. *)
Lemma derivable_pt_lim_eq (f : R -> R) (x l l' : R) :
  derivable_pt_lim f x l -> l = l' -> derivable_pt_lim f x l'.
Proof. intros Hf <-. exact Hf. Qed.

Lemma d_along (c : Species) :
  derivable_pt_lim (fun x => along y j x c) (y j)
                   (if Species_eq_dec j c then 1 else 0).
Proof.
  unfold along.
  destruct (Species_eq_dec c j) as [-> | Hc].
  - destruct (Species_eq_dec j j); [|congruence]. apply derivable_pt_lim_id.
  - destruct (Species_eq_dec j c); [congruence|].
    apply (derivable_pt_lim_const (y c)).
Qed.

(** Rate of a one-reactant reaction along [y[j]]. *)
Lemma d_linear (k : R) (a : Species) :
  derivable_pt_lim (fun x => k * along y j x a) (y j)
                   (if Species_eq_dec j a then k else 0).
Proof.
  apply derivable_pt_lim_eq
    with (l := k * (if Species_eq_dec j a then 1 else 0)).
  - apply (derivable_pt_lim_scal (fun x => along y j x a)). apply d_along.
  - destruct (Species_eq_dec j a); lra.
Qed.

(** Rate of a two-reactant reaction along [y[j]]: the product rule. *)
Lemma d_bilinear (k : R) (a1 a2 : Species) :
  derivable_pt_lim (fun x => k * along y j x a1 * along y j x a2) (y j)
                   ((if Species_eq_dec j a1 then k * y a2 else 0) +
                    (if Species_eq_dec j a2 then k * y a1 else 0)).
Proof.
  apply derivable_pt_lim_eq
    with (l := (if Species_eq_dec j a1 then k else 0) * along y j (y j) a2 +
               (k * along y j (y j) a1) * (if Species_eq_dec j a2 then 1 else 0)).
  - apply (derivable_pt_lim_mult (fun x => k * along y j x a1)
                                 (fun x => along y j x a2)).
    + apply d_linear.
    + apply d_along.
  - rewrite !along_at.
    destruct (Species_eq_dec j a1), (Species_eq_dec j a2); lra.
Qed.

Lemma d_opp (f : R -> R) (l l' : R) :
  derivable_pt_lim f (y j) l -> - l = l' ->
  derivable_pt_lim (fun x => - f x) (y j) l'.
Proof.
  intros Hf Hl. apply derivable_pt_lim_eq with (l := - l); [|exact Hl].
  apply (derivable_pt_lim_opp f). exact Hf.
Qed.

(** [ydot[s] += r] against [jac[s][c] += v], when [v] is the derivative of
    [r] with respect to [y[c]] and [r] depends on no other abundance. *)
Lemma tracks_bump (F : R -> Abundance) (jac : Matrix) (s c : Species)
      (r : R -> R) (v : R) :
  tracks y j F jac ->
  derivable_pt_lim r (y j) (if Species_eq_dec j c then v else 0) ->
  tracks y j (fun x => bump (F x) s (r x)) (bump2 jac s c v).
Proof.
  intros HF Hr s'. unfold bump, bump2.
  destruct (Species_eq_dec s' s) as [_ | _]; [|apply HF].
  destruct (Species_eq_dec j c) as [_ | _].
  - apply (derivable_pt_lim_plus (fun x => F x s') r); [apply HF | exact Hr].
  - apply derivable_pt_lim_eq with (l := jac s' j + 0); [|lra].
    apply (derivable_pt_lim_plus (fun x => F x s') r); [apply HF | exact Hr].
Qed.

(** The same for a term that depends on two abundances. *)
Lemma tracks_bump_pair (F : R -> Abundance) (jac : Matrix) (s a1 a2 : Species)
      (r : R -> R) (v1 v2 : R) :
  tracks y j F jac ->
  derivable_pt_lim r (y j) ((if Species_eq_dec j a1 then v1 else 0) +
                            (if Species_eq_dec j a2 then v2 else 0)) ->
  tracks y j (fun x => bump (F x) s (r x)) (bump2 (bump2 jac s a1 v1) s a2 v2).
Proof.
  intros HF Hr s'. unfold bump, bump2.
  destruct (Species_eq_dec s' s) as [_ | _]; [|apply HF].
  apply derivable_pt_lim_eq
    with (l := jac s' j + ((if Species_eq_dec j a1 then v1 else 0) +
                           (if Species_eq_dec j a2 then v2 else 0))).
  - apply (derivable_pt_lim_plus (fun x => F x s') r); [apply HF | exact Hr].
  - destruct (Species_eq_dec j a1), (Species_eq_dec j a2); lra.
Qed.

(** One reaction of a one-reactant family. *)
Lemma tracks_linear (k : R) (a b : Species) (F : R -> Abundance) (jac : Matrix) :
  tracks y j F jac ->
  tracks y j (fun x => rhs_linear k a b (along y j x) (F x))
         (jac_linear k a b jac).
Proof.
  intros HF. unfold rhs_linear, jac_linear.
  apply (tracks_bump (fun x => bump (F x) a (- (k * along y j x a))) _ b a
                     (fun x => k * along y j x a) k); [|apply d_linear].
  apply (tracks_bump F _ a a (fun x => - (k * along y j x a)) (- k));
    [exact HF|].
  apply (d_opp (fun x => k * along y j x a)
               (if Species_eq_dec j a then k else 0)); [apply d_linear|].
  destruct (Species_eq_dec j a); lra.
Qed.

Lemma tracks_pair_plus (k : R) (a1 a2 s : Species) (F : R -> Abundance)
      (jac : Matrix) :
  tracks y j F jac ->
  tracks y j
         (fun x => bump (F x) s (k * along y j x a1 * along y j x a2))
         (jac_pair 1 k a1 a2 s y jac).
Proof.
  intros HF. unfold jac_pair.
  apply (tracks_bump_pair F jac s a1 a2
           (fun x => k * along y j x a1 * along y j x a2)); [exact HF|].
  apply derivable_pt_lim_eq with (1 := d_bilinear k a1 a2).
  destruct (Species_eq_dec j a1), (Species_eq_dec j a2); lra.
Qed.

Lemma tracks_pair_minus (k : R) (a1 a2 s : Species) (F : R -> Abundance)
      (jac : Matrix) :
  tracks y j F jac ->
  tracks y j
         (fun x => bump (F x) s (- (k * along y j x a1 * along y j x a2)))
         (jac_pair (-1) k a1 a2 s y jac).
Proof.
  intros HF. unfold jac_pair.
  apply (tracks_bump_pair F jac s a1 a2
           (fun x => - (k * along y j x a1 * along y j x a2))); [exact HF|].
  apply (d_opp (fun x => k * along y j x a1 * along y j x a2) _ _
               (d_bilinear k a1 a2)).
  destruct (Species_eq_dec j a1), (Species_eq_dec j a2); lra.
Qed.

(** One reaction of the two-body family. *)
Lemma tracks_bilinear (k : R) (a1 a2 b1 b2 : Species) (F : R -> Abundance)
      (jac : Matrix) :
  tracks y j F jac ->
  tracks y j (fun x => rhs_bilinear k a1 a2 b1 b2 (along y j x) (F x))
         (jac_bilinear k a1 a2 b1 b2 y jac).
Proof.
  intros HF. unfold rhs_bilinear, jac_bilinear.
  apply (tracks_pair_plus k a1 a2 b2
           (fun x => bump (bump (bump (F x) a1 _) a2 _) b1 _)).
  apply (tracks_pair_plus k a1 a2 b1 (fun x => bump (bump (F x) a1 _) a2 _)).
  apply (tracks_pair_minus k a1 a2 a2 (fun x => bump (F x) a1 _)).
  apply (tracks_pair_minus k a1 a2 a1 F). exact HF.
Qed.

(** A loop of the right-hand side against the matching loop of the
    Jacobian. *)
Lemma tracks_for_loop (n : Z) (f : R -> Z -> Abundance -> Abundance)
      (g : Z -> Matrix -> Matrix) :
  (forall i F jac, tracks y j F jac ->
                   tracks y j (fun x => f x i (F x)) (g i jac)) ->
  forall F jac, tracks y j F jac ->
                tracks y j (fun x => for_loop n (f x) (F x)) (for_loop n g jac).
Proof.
  intros Hstep. unfold for_loop. generalize (range n) as l.
  induction l as [|i l IH]; intros F jac HF; simpl.
  - exact HF.
  - apply (IH (fun x => f x i (F x)) (g i jac)). now apply Hstep.
Qed.

Lemma tracks_zero : tracks y j (fun _ _ => 0) (fun _ _ => 0).
Proof. intros s. apply (derivable_pt_lim_const 0). Qed.

Lemma tracks_RHS (net : ChemNetwork) (t : R) :
  tracks y j (fun x => KineticsCore_RHS net t (along y j x))
         (KineticsCore_Jacobian net t y).
Proof.
  unfold KineticsCore_RHS, KineticsCore_Jacobian.
  set (tb := table net). set (rv := rates net).
  apply (tracks_for_loop n_gr_
           (fun x i => rhs_linear (kgr_ rv i) (ingr_ tb i) (outgr_ tb i)
                                  (along y j x)));
    [intros i F jac HF; now apply tracks_linear|].
  apply (tracks_for_loop n_ph_
           (fun x i => rhs_linear (kph_ rv i) (inph_ tb i) (outph1_ tb i)
                                  (along y j x)));
    [intros i F jac HF; now apply tracks_linear|].
  apply (tracks_for_loop n_2body_
           (fun x i => rhs_bilinear (k2body_ rv i) (in2body1_ tb i)
                                    (in2body2_ tb i) (out2body1_ tb i)
                                    (out2body2_ tb i) (along y j x)));
    [intros i F jac HF; now apply tracks_bilinear|].
  apply (tracks_for_loop n_cr_
           (fun x i => rhs_linear (kcr_ rv i) (incr_ tb i) (outcr_ tb i)
                                  (along y j x)));
    [intros i F jac HF; now apply tracks_linear|].
  apply tracks_zero.
Qed.

End Derivative.

(** For the functions of section 4.5, taken over the full abundance
    vector with the ghost entries as variables of their own, the term by
    term Jacobian is exact: its entry [(i, j)] is the partial derivative of
    entry [i] of the right-hand side with respect to [y[j]]. This says
    nothing of the member functions of the header, which receive the
    tracked entries only. *)
Lemma KineticsCore_Jacobian_exact
      (net : ChemNetwork) (t : R) (y : Abundance) (i j : Species) :
  derivable_pt_lim (fun x => KineticsCore_RHS net t (along y j x) i) (y j)
                   (KineticsCore_Jacobian net t y i j).
Proof. apply (tracks_RHS y j net t i). Qed.

(** The model run on the sample table, where only the first reaction of
    each family is switched on (cosmic ray: H2 -> H2+, two-body:
    H + H -> H2 + E, photo: CO -> C, grain: H+ -> H). The repeated reactant
    of the two-body reaction is charged twice. *)
Example sample_RHS (y : Abundance) :
  KineticsCore_RHS sample_ready 0 y igH_
    = - (2 * (3 * y igH_ * y igH_)) + 7 * y iHplus_ /\
  KineticsCore_RHS sample_ready 0 y iH2_
    = 3 * y igH_ * y igH_ - 2 * y iH2_ /\
  KineticsCore_RHS sample_ready 0 y iCO_ = - (5 * y iCO_) /\
  KineticsCore_RHS sample_ready 0 y iOplus_ = 0.
Proof. repeat split; cbv -[Rplus Rmult Ropp Rminus IZR]; ring. Qed.

Example sample_Jacobian (y : Abundance) :
  KineticsCore_Jacobian sample_ready 0 y igH_ igH_ = - (12 * y igH_) /\
  KineticsCore_Jacobian sample_ready 0 y igH_ iHplus_ = 7 /\
  KineticsCore_Jacobian sample_ready 0 y iH2_ igH_ = 6 * y igH_ /\
  KineticsCore_Jacobian sample_ready 0 y iH2_ iH2_ = - 2 /\
  KineticsCore_Jacobian sample_ready 0 y iCO_ igH_ = 0.
Proof. repeat split; cbv -[Rplus Rmult Ropp Rminus IZR]; ring. Qed.

(** *** Ghost species *)

(** Resolving copies the tracked entries, so sums over tracked species are
    the same before and after. *)
Lemma tracked_sum_resolved (net : ChemNetwork) (sel : Species -> bool)
      (y : Abundance) :
  tracked_sum sel (GetGhostSpecies net y) = tracked_sum sel y.
Proof. reflexivity. Qed.

Lemma floor_cases (x : R) :
  (0 <= x /\ Rmax 0 x = x) \/ (x < 0 /\ Rmax 0 x = 0).
Proof.
  unfold Rmax. destruct (Rle_dec 0 x) as [Hx | Hx].
  - left. split; [exact Hx | reflexivity].
  - right. split; [lra | reflexivity].
Qed.

Lemma ghost_of_element (net : ChemNetwork) (y : Abundance) (e : Element) :
  GetGhostSpecies net y (ghost_of e) = Rmax 0 (residual net e y).
Proof. destruct e; reflexivity. Qed.

(** One element: the budget is met, or the residual was negative and the
    ghost sits at the floor. *)
Lemma element_met_or_floored (net : ChemNetwork) (y : Abundance) (e : Element) :
  met_or_floored (GetGhostSpecies net y (ghost_of e))
                 (tracked_sum (contains e) y) (standard_abundance net e).
Proof.
  rewrite ghost_of_element. fold (residual net e y).
  unfold met_or_floored.
  destruct (floor_cases (residual net e y)) as [[Hx ->] | [Hx ->]].
  - left. unfold residual in *. split; lra.
  - right. unfold residual in *. split; [lra | reflexivity].
Qed.

(** The tracked species that hold each element, summed in the order of the
    species indices. *)
Lemma carbon_sum (y : Abundance) :
  tracked_sum (contains elC) y
  = y iCHx_ + y iCO_ + y iCplus_ + y iHCOplus_.
Proof. unfold tracked_sum; simpl. ring. Qed.

Lemma oxygen_sum (y : Abundance) :
  tracked_sum (contains elO) y
  = y iOHx_ + y iCO_ + y iHCOplus_ + y iOplus_.
Proof. unfold tracked_sum; simpl. ring. Qed.

Lemma silicon_sum (y : Abundance) :
  tracked_sum (contains elSi) y = y iSiplus_.
Proof. unfold tracked_sum; simpl. ring. Qed.

Lemma helium_sum (y : Abundance) :
  tracked_sum (contains elHe) y = y iHeplus_.
Proof. unfold tracked_sum; simpl. ring. Qed.

(** C2. For every tracked abundance vector, [GetGhostSpecies] copies the
    tracked entries, and for carbon, oxygen, silicon and helium the ghost
    abundance plus the abundances of the tracked species that contain the
    element (CHx, CO, C+, HCO+ for carbon; OHx, CO, HCO+, O+ for oxygen; Si+;
    He+) equals the configured standard abundance ([xC_std_], [xO_std_],
    [xSi_std_], [xHe_]), except where that remainder is negative: there, and
    only there, the ghost abundance is floored at zero. *)
Theorem elemental_conservation (net : ChemNetwork) (y : Abundance) :
  let yall := GetGhostSpecies net y in
  let p := params net in
  (forall s, In s tracked_species -> yall s = y s) /\
  met_or_floored (yall igC_)
                 (yall iCHx_ + yall iCO_ + yall iCplus_ + yall iHCOplus_)
                 (xC_std_ p) /\
  met_or_floored (yall igO_)
                 (yall iOHx_ + yall iCO_ + yall iHCOplus_ + yall iOplus_)
                 (xO_std_ p) /\
  met_or_floored (yall igSi_) (yall iSiplus_) (xSi_std_ p) /\
  met_or_floored (yall igHe_) (yall iHeplus_) (xHe_ p).
Proof.
  intros yall p. split.
  - intros s Hs. unfold tracked_species in Hs. simpl in Hs.
    repeat (destruct Hs as [<- | Hs]; [reflexivity|]). contradiction.
  - pose proof (element_met_or_floored net y elC) as HC.
    pose proof (element_met_or_floored net y elO) as HO.
    pose proof (element_met_or_floored net y elSi) as HSi.
    pose proof (element_met_or_floored net y elHe) as HHe.
    rewrite carbon_sum in HC. rewrite oxygen_sum in HO.
    rewrite silicon_sum in HSi. rewrite helium_sum in HHe.
    repeat split; assumption.
Qed.

(** The five elemental ghosts are never negative, whatever the electron
    rule. *)
Lemma elemental_ghosts_nonnegative (net : ChemNetwork) (y : Abundance)
      (e : Element) :
  0 <= GetGhostSpecies net y (ghost_of e).
Proof. rewrite ghost_of_element. apply Rmax_l. Qed.

(** The electron ghost under the two readings of section 4.4. *)
Lemma electrons_when_floored (net : ChemNetwork) (y : Abundance) :
  ghost_laws net = floored_electrons ->
  0 <= GetGhostSpecies net y ige_ /\
  (0 <= tracked_sum is_positive_ion y ->
   GetGhostSpecies net y ige_ = tracked_sum is_positive_ion y) /\
  (tracked_sum is_positive_ion y < 0 -> GetGhostSpecies net y ige_ = 0).
Proof.
  intros Hlaw. simpl. rewrite Hlaw. simpl. repeat split.
  - apply Rmax_l.
  - intros Hpos. now apply Rmax_right.
  - intros Hneg. apply Rmax_left. lra.
Qed.

Lemma electrons_when_neutral (net : ChemNetwork) (y : Abundance) :
  ghost_laws net = neutral_electrons ->
  GetGhostSpecies net y ige_
  = tracked_sum is_positive_ion (GetGhostSpecies net y).
Proof. intros Hlaw. rewrite tracked_sum_resolved. simpl. now rewrite Hlaw. Qed.

Lemma y_sample_ions : tracked_sum is_positive_ion y_sample = 11 / 1000.
Proof. unfold tracked_sum, y_sample; simpl. lra. Qed.

Lemma y_negative_ions : tracked_sum is_positive_ion y_negative = - (1 / 1000).
Proof. unfold tracked_sum, y_negative; simpl. lra. Qed.

(** The resolver run on the two sample vectors, electrons floored. *)
Example sample_ghosts :
  GetGhostSpecies sample_network y_sample igC_ = 1 / 10000 /\
  GetGhostSpecies sample_network y_sample igO_ = 2 / 10000 /\
  GetGhostSpecies sample_network y_sample igHe_ = 99 / 1000 /\
  GetGhostSpecies sample_network y_sample ige_ = 11 / 1000 /\
  GetGhostSpecies sample_network y_sample iCO_ = 1 / 10000.
Proof.
  repeat split; try reflexivity;
    simpl; unfold residual, tracked_sum, y_sample; simpl;
    rewrite Rmax_right by lra; lra.
Qed.

Example negative_ghosts :
  GetGhostSpecies sample_network y_negative ige_ = 0 /\
  GetGhostSpecies sample_network y_negative igH_ = 1001 / 1000 /\
  GetGhostSpecies sample_network y_negative iHplus_ = - (1 / 1000).
Proof.
  split; [|split; [|reflexivity]];
    simpl; unfold residual, tracked_sum, y_negative; simpl.
  - rewrite Rmax_left by lra. reflexivity.
  - rewrite Rmax_right by lra. lra.
Qed.

(** Sums over tracked species only read the tracked entries. *)
Lemma tracked_sum_ext (sel : Species -> bool) (y1 y2 : Abundance) :
  (forall s, In s tracked_species -> y1 s = y2 s) ->
  tracked_sum sel y1 = tracked_sum sel y2.
Proof.
  unfold tracked_sum. generalize tracked_species as l.
  induction l as [|s l IH]; intros Hext; simpl.
  - reflexivity.
  - rewrite (Hext s) by (now left). rewrite IH; [reflexivity|].
    intros s' Hs'. apply Hext. now right.
Qed.

(** Whatever the resolver does: on a tracked vector whose positive ions sum
    to a negative number, an electron abundance that is not negative cannot
    equal the ion total. Neutrality at every vector and non-negative ghosts
    at every vector exclude each other. *)
Lemma neutrality_conflicts_with_floor
      (resolve : Abundance -> Abundance) (y : Abundance) :
  (forall s, In s tracked_species -> resolve y s = y s) ->
  tracked_sum is_positive_ion y < 0 ->
  0 <= resolve y ige_ ->
  tracked_sum is_positive_ion (resolve y) <> resolve y ige_.
Proof.
  intros Hcopy Hneg Hfloor.
  rewrite (tracked_sum_ext _ _ _ Hcopy). lra.
Qed.

(** *** Kinetics reached from the tracked vector *)

Lemma hydrogen_along_H2 (z : R) :
  -1 < z < 1 ->
  GetGhostSpecies sample_ready (along y_zero iH2_ z) igH_ = 1 - z.
Proof.
  intros Hz. simpl. unfold residual, tracked_sum, along, y_zero; simpl.
  rewrite Rmax_right by lra. lra.
Qed.

Lemma d_sample_polynomial :
  derivable_pt_lim (fun z => 3 * (1 - z) * (1 - z) - 2 * z) 0 (- (8)).
Proof.
  assert (D1 : derivable_pt_lim (fun z : R => 1 - z) 0 (0 - 1)).
  { apply (derivable_pt_lim_minus (fct_cte 1) id).
    - apply derivable_pt_lim_const.
    - apply derivable_pt_lim_id. }
  assert (D2 : derivable_pt_lim (fun z : R => 3 * (1 - z)) 0 (3 * (0 - 1))).
  { apply (derivable_pt_lim_scal (fun z : R => 1 - z)). exact D1. }
  assert (D3 : derivable_pt_lim (fun z : R => 3 * (1 - z) * (1 - z)) 0
                 (3 * (0 - 1) * (1 - 0) + 3 * (1 - 0) * (0 - 1))).
  { apply (derivable_pt_lim_mult (fun z : R => 3 * (1 - z))
                                 (fun z : R => 1 - z)); assumption. }
  assert (D4 : derivable_pt_lim (fun z : R => 2 * z) 0 (2 * 1)).
  { apply (derivable_pt_lim_scal id). apply derivable_pt_lim_id. }
  apply derivable_pt_lim_eq
    with (l := 3 * (0 - 1) * (1 - 0) + 3 * (1 - 0) * (0 - 1) - 2 * 1);
    [|lra].
  apply (derivable_pt_lim_minus (fun z : R => 3 * (1 - z) * (1 - z))
                                (fun z : R => 2 * z)); assumption.
Qed.

(** If [RHS] resolves the ghost species from the tracked vector it receives
    while the Jacobian is taken term by term with the ghost entries frozen,
    the two disagree wherever a rate depends on a ghost: on the sample
    network, at the vector of zeros, the derivative of the H2 entry with
    respect to the H2 abundance is [-8] (atomic hydrogen is what H2 leaves
    of the budget), and the term-by-term entry is [-2]. *)
Lemma frozen_ghosts_miss_the_budget :
  derivable_pt_lim
    (fun x => RHS_through_ghosts sample_ready 0 (along y_zero iH2_ x) iH2_)
    (y_zero iH2_) (- (8)) /\
  KineticsCore_Jacobian sample_ready 0
    (GetGhostSpecies sample_ready y_zero) iH2_ iH2_ = - (2).
Proof.
  split.
  - apply (derivable_pt_lim_locally_ext
             (fun z => 3 * (1 - z) * (1 - z) - 2 * z) _ 0 (-1) 1);
      [unfold y_zero; lra | | exact d_sample_polynomial].
    intros z Hz. unfold RHS_through_ghosts.
    destruct (sample_RHS (GetGhostSpecies sample_ready (along y_zero iH2_ z)))
      as (_ & HH2 & _).
    rewrite HH2, (hydrogen_along_H2 z Hz).
    replace (GetGhostSpecies sample_ready (along y_zero iH2_ z) iH2_)
      with z; [reflexivity|].
    simpl. unfold along. now destruct (Species_eq_dec iH2_ iH2_).
  - destruct (sample_Jacobian (GetGhostSpecies sample_ready y_zero))
      as (_ & _ & _ & HJ & _).
    exact HJ.
Qed.

(** *** Rates *)

Lemma clamp_below (p : NetworkParams) (T : R) :
  T <= temp_min_rates_ p ->
  clamp_temperature p T = clamp_temperature p (temp_min_rates_ p).
Proof.
  intros HT. unfold clamp_temperature. f_equal.
  rewrite (Rmax_left _ T) by exact HT.
  rewrite Rmax_left by lra. reflexivity.
Qed.

Lemma clamp_above (p : NetworkParams) (T : R) :
  temp_max_rates_ p <= T ->
  clamp_temperature p T = clamp_temperature p (temp_max_rates_ p).
Proof.
  intros HT. unfold clamp_temperature.
  rewrite !Rmin_left; [reflexivity | apply Rmax_r |].
  apply Rle_trans with (1 := HT). apply Rmax_r.
Qed.

(** Inside the range the clamp is the identity, so the rate laws are
    evaluated at the cell temperature itself. *)
Lemma clamp_inside (p : NetworkParams) (T : R) :
  temp_min_rates_ p <= T <= temp_max_rates_ p -> clamp_temperature p T = T.
Proof.
  intros [Hlo Hhi]. unfold clamp_temperature.
  rewrite Rmax_right by exact Hlo. apply Rmin_right. exact Hhi.
Qed.

(** The rates are the rate laws evaluated at the clamped temperature. *)
Lemma UpdateRates_at_clamp (net : ChemNetwork) (y : Abundance) (T : R) :
  rates (UpdateRates (set_temperature net T) y) =
  evaluate_rate_laws net
    (with_temperature (cell net) (clamp_temperature (params net) T)) y.
Proof. reflexivity. Qed.

(** The rates see the temperature only through the clamp. *)
Lemma UpdateRates_clamp (net : ChemNetwork) (y : Abundance) (T T' : R) :
  clamp_temperature (params net) T = clamp_temperature (params net) T' ->
  rates (UpdateRates (set_temperature net T) y) =
  rates (UpdateRates (set_temperature net T') y).
Proof. intros Heq. rewrite !UpdateRates_at_clamp, Heq. reflexivity. Qed.

(** C7. The temperature is clamped to [temp_min_rates_, temp_max_rates_]
    before any rate law is evaluated: for every cell state, the rates
    computed at [temp_min_rates_ - 1] (and at any temperature at or below
    the minimum) equal the rates computed at [temp_min_rates_], and the
    rates at any temperature at or above [temp_max_rates_] equal the rates
    at [temp_max_rates_]. The interval is this one and no other: with
    [temp_min_rates_ <= temp_max_rates_], the rates below the range are the
    rate laws evaluated at [temp_min_rates_], the rates above it the laws
    evaluated at [temp_max_rates_], and the rates at a temperature of the
    range the laws evaluated at that temperature. *)
Theorem rates_clamped_outside_range
        (net : ChemNetwork) (y : Abundance) (Tlow Thigh : R) :
  let Tmin := temp_min_rates_ (params net) in
  let Tmax := temp_max_rates_ (params net) in
  let rates_at := fun T => rates (UpdateRates (set_temperature net T) y) in
  let laws_at :=
    fun T => evaluate_rate_laws net (with_temperature (cell net) T) y in
  Tlow <= Tmin ->
  Tmax <= Thigh ->
  rates_at (Tmin - 1) = rates_at Tmin /\
  rates_at Tlow = rates_at Tmin /\
  rates_at Thigh = rates_at Tmax /\
  (Tmin <= Tmax ->
   rates_at Tlow = laws_at Tmin /\
   rates_at Thigh = laws_at Tmax /\
   forall T, Tmin <= T <= Tmax -> rates_at T = laws_at T).
Proof.
  intros Tmin Tmax rates_at laws_at Hlow Hhigh.
  split; [|split; [|split]].
  - apply UpdateRates_clamp, clamp_below. unfold Tmin. lra.
  - apply UpdateRates_clamp, clamp_below. exact Hlow.
  - apply UpdateRates_clamp, clamp_above. exact Hhigh.
  - intros Hrange. unfold rates_at, laws_at.
    split; [|split].
    + rewrite UpdateRates_at_clamp, (clamp_below _ Tlow) by exact Hlow.
      rewrite clamp_inside by (fold Tmin Tmax; lra). reflexivity.
    + rewrite UpdateRates_at_clamp, (clamp_above _ Thigh) by exact Hhigh.
      rewrite clamp_inside by (fold Tmin Tmax; lra). reflexivity.
    + intros T HT. rewrite UpdateRates_at_clamp.
      rewrite clamp_inside by exact HT. reflexivity.
Qed.

Lemma rates_clamped_outside_range_witness :
  let rates_at :=
    fun T => rates (UpdateRates (set_temperature sample_network T) y_sample) in
  let laws_at :=
    fun T => evaluate_rate_laws sample_network
               (with_temperature (cell sample_network) T) y_sample in
  rates_at (10 - 1) = rates_at 10 /\
  rates_at 3 = rates_at 10 /\
  rates_at 20000 = rates_at 10000 /\
  rates_at 3 = laws_at 10 /\
  rates_at 20000 = laws_at 10000 /\
  forall T, 10 <= T <= 10000 -> rates_at T = laws_at T.
Proof.
  assert (Hlow : 3 <= temp_min_rates_ (params sample_network)) by (simpl; lra).
  assert (Hhigh : temp_max_rates_ (params sample_network) <= 20000)
    by (simpl; lra).
  assert (Hrange : temp_min_rates_ (params sample_network)
                   <= temp_max_rates_ (params sample_network)) by (simpl; lra).
  destruct (rates_clamped_outside_range sample_network y_sample 3 20000
              Hlow Hhigh) as (H1 & H2 & H3 & H4).
  destruct (H4 Hrange) as (H5 & H6 & H7).
  cbv zeta. repeat split; assumption.
Defined.

(** With no radiation in any band and no cosmic rays (the last band of the
    radiation vector), every photo rate and every cosmic-ray rate is 0. *)
Lemma photo_and_cosmic_ray_rates_vanish (net : ChemNetwork) (y : Abundance) :
  (forall b, rad_ (cell net) b = 0) ->
  forall i, kph_ (rates (UpdateRates net y)) i = 0 /\
            kcr_ (rates (UpdateRates net y)) i = 0.
Proof.
  intros Hdark i. unfold UpdateRates; simpl. rewrite !Hdark.
  split; unfold Rdiv; ring.
Qed.

(** Sufficient conditions for non-negative rates: the three laws that the
    specification spells out keep the sign of their base coefficient (the
    power and the exponential are positive), so the rates are non-negative
    as soon as the tables, the fits and the grain law are, the fiducial
    cosmic-ray rate is positive and no band is negative. *)
Lemma rates_nonnegative_from_tables (net : ChemNetwork) (y : Abundance) :
  (forall i, 0 <= kcr_base_ (table net) i) ->
  (forall i, 0 <= k2body_base_ (table net) i) ->
  (forall i, 0 <= kph_base_ (table net) i) ->
  (forall i fit T, k2body_fit (laws net) i = Some fit -> 0 <= fit T) ->
  (forall i c' y', 0 <= kgr_law (laws net) i c' y') ->
  0 < cr_fiducial (params net) ->
  (forall b, 0 <= rad_ (cell net) b) ->
  forall i,
    0 <= kcr_ (rates (UpdateRates net y)) i /\
    0 <= k2body_ (rates (UpdateRates net y)) i /\
    0 <= kph_ (rates (UpdateRates net y)) i /\
    0 <= kgr_ (rates (UpdateRates net y)) i.
Proof.
  intros Hcr H2b Hph Hfit Hgr Hfid Hrad i. unfold UpdateRates; simpl.
  repeat split.
  - apply Rmult_le_pos; [apply Hcr|].
    unfold Rdiv. apply Rmult_le_pos; [apply Hrad|].
    left. now apply Rinv_0_lt_compat.
  - destruct (k2body_fit (laws net) i) as [fit|] eqn:Efit.
    + now apply (Hfit i).
    + apply Rmult_le_pos; [apply H2b|]. left. apply exp_pos.
  - apply Rmult_le_pos; [apply Rmult_le_pos; [apply Hph | apply Hrad]|].
    left. apply exp_pos.
  - apply Hgr.
Qed.

(** *** The step context *)

(** [UpdateRates] writes the four rate arrays and nothing else. *)
Lemma UpdateRates_only_rates (net : ChemNetwork) (y : Abundance) :
  only_rates_written net (UpdateRates net y).
Proof. repeat split. Qed.



(** What a call leaves depends on the constructor-set part of the object
    and on the driver's data only: whatever an earlier step left in the
    snapshot, the state and the rates is overwritten. *)
Lemma InitializeNextStep_forgets_the_step
      (net net' : ChemNetwork) (mesh : Mesh) (k j i : Z) :
  table net' = table net -> laws net' = laws net ->
  ghost_laws net' = ghost_laws net -> params net' = params net ->
  psi_gr_fac_ net' = psi_gr_fac_ net -> thermal net' = thermal net ->
  InitializeNextStep net' mesh k j i = InitializeNextStep net mesh k j i.
Proof.
  intros Ht Hl Hg Hp Hpsi Hth.
  unfold InitializeNextStep, UpdateRates, evaluate_rate_laws,
    GetGhostSpecies, residual, standard_abundance; simpl.
  rewrite Ht, Hl, Hg, Hp, Hpsi, Hth. reflexivity.
Qed.

(** After initialisation the context is ready and answers; before, it
    does not. *)
Lemma InitializeNextStep_ready (net : ChemNetwork) (mesh : Mesh) (k j i : Z)
      (t : R) (y : Abundance) :
  let once := InitializeNextStep net mesh k j i in
  status once = ready /\
  step_RHS sample_RHS_body once mesh t y
  = Some (sample_RHS_body once mesh t y).
Proof. repeat split. Qed.

(** The sample cell at 50 K, unshielded, in a unit radiation field. *)
Example sample_initialised_rates :
  let net := InitializeNextStep sample_network sample_mesh 0 0 0 in
  kcr_ (rates net) 0%Z = 2 /\
  k2body_ (rates net) 0%Z = 1 / 2 /\
  k2body_ (rates net) 1%Z = 1 /\
  kph_ (rates net) 0%Z = 5 /\
  kgr_ (rates net) 0%Z = 11 / 4.
Proof.
  assert (Hclamp : clamp_temperature sample_params 50 = 50)
    by (apply clamp_inside; simpl; lra).
  cbv zeta. unfold InitializeNextStep, UpdateRates; simpl.
  rewrite Hclamp. repeat split.
  - lra.
  - lra.
  - rewrite Rpower_O by lra. lra.
  - replace (- (3) * 0) with 0 by lra. rewrite exp_0. lra.
  - unfold tracked_sum, y_sample; simpl. rewrite Rmax_right by lra. lra.
Qed.

Lemma sample_network_uninitialized (t : R) (y : Abundance) :
  step_RHS sample_RHS_body sample_network sample_mesh t y = None.
Proof. reflexivity. Qed.

End GOW16Facts.

(* ------------------------------------------------------------------ *)
(** ** The wormhole metric *)

Module SchildWHMetricFacts.
Import Loops LoopFacts LoopMore SchildWHPgen.
#[local] Open Scope R_scope.

Section MetricFacts.
Context `{MetricLayout}.

Lemma set_eq (a : MArr) (n : Z) (v : R) : set a n v n = v.
Proof. unfold set. now rewrite Z.eqb_refl. Qed.

Lemma set_neq (a : MArr) (n n' : Z) (v : R) : n' <> n -> set a n v n' = a n'.
Proof. intros Hn. unfold set. apply Z.eqb_neq in Hn. now rewrite Hn. Qed.

Lemma set_all_other (l : list (Z * R)) :
  forall (a : MArr) n, ~ In n (map fst l) -> set_all l a n = a n.
Proof.
  induction l as [|nv l IH]; intros a n Hn; simpl in *.
  - reflexivity.
  - rewrite IH by tauto. apply set_neq. intros ->. tauto.
Qed.

(** With distinct indices, each statement decides its own entry. *)
Lemma set_all_at (l : list (Z * R)) :
  NoDup (map fst l) ->
  forall (a : MArr) n v, In (n, v) l -> set_all l a n = v.
Proof.
  induction l as [|[n0 v0] l IH]; intros Hnd a n v Hin; simpl in *.
  - destruct Hin.
  - inversion Hnd as [|? ? Hnotin Hnd']; subst.
    destruct Hin as [Heq | Hin].
    + inversion Heq; subst. rewrite set_all_other by exact Hnotin.
      apply set_eq.
    + now apply (IH Hnd' _ n v).
Qed.

(** The order in which the function assigns the components. *)
Lemma program_order_NoDup :
  metric_layout_ok ->
  NoDup [I00; I11; I22; I33; I01; I02; I03; I12; I13; I23].
Proof.
  intros [Hnd _]. apply (NoDup_incl_NoDup Hnd).
  - simpl. lia.
  - unfold metric_slots. intros n Hn. simpl in *. tauto.
Qed.

Ltac component Hok :=
  apply set_all_at; [exact (program_order_NoDup Hok) | simpl; tauto].

(** The covariant components, one by one. *)
Lemma g_components (x1 x2 x3 aa r0 : R) (m : MetricArrays) :
  metric_layout_ok ->
  let out := SchildWH x1 x2 x3 aa r0 m in
  g out I00 = - exp (2 * ((- aa) / x1)) /\
  g out I11 = 1 / (1 - r0 / x1) /\
  g out I22 = x1 * x1 /\
  g out I33 = x1 * x1 * sin x2 * sin x2 /\
  g out I01 = 0 /\ g out I02 = 0 /\ g out I03 = 0 /\
  g out I12 = 0 /\ g out I13 = 0 /\ g out I23 = 0.
Proof.
  intros Hok out. unfold out, SchildWH. cbv zeta.
  cbn [g g_inv dg_dx1 dg_dx2 dg_dx3]. repeat split; component Hok.
Qed.

Lemma g_inv_components (x1 x2 x3 aa r0 : R) (m : MetricArrays) :
  metric_layout_ok ->
  let out := SchildWH x1 x2 x3 aa r0 m in
  g_inv out I00 = - exp (- (2) * ((- aa) / x1)) /\
  g_inv out I11 = 1 - r0 / x1 /\
  g_inv out I22 = 1 / (x1 * x1) /\
  g_inv out I33 = 1 / (x1 * x1 * sin x2 * sin x2) /\
  g_inv out I01 = 0 /\ g_inv out I02 = 0 /\ g_inv out I03 = 0 /\
  g_inv out I12 = 0 /\ g_inv out I13 = 0 /\ g_inv out I23 = 0.
Proof.
  intros Hok out. unfold out, SchildWH. cbv zeta.
  cbn [g g_inv dg_dx1 dg_dx2 dg_dx3]. repeat split; component Hok.
Qed.

Lemma dg_dx1_components (x1 x2 x3 aa r0 : R) (m : MetricArrays) :
  metric_layout_ok ->
  let out := SchildWH x1 x2 x3 aa r0 m in
  dg_dx1 out I00 = - (2) * exp (- (2) * ((- aa) / x1)) * (aa / (x1 * x1)) /\
  dg_dx1 out I11 = (x1 * 0 - r0) / ((x1 - r0) * (x1 - r0)) /\
  dg_dx1 out I22 = 2 * x1 /\
  dg_dx1 out I33 = 2 * x1 * sin x2 * sin x2 /\
  dg_dx1 out I01 = 0 /\ dg_dx1 out I02 = 0 /\ dg_dx1 out I03 = 0 /\
  dg_dx1 out I12 = 0 /\ dg_dx1 out I13 = 0 /\ dg_dx1 out I23 = 0.
Proof.
  intros Hok out. unfold out, SchildWH. cbv zeta.
  cbn [g g_inv dg_dx1 dg_dx2 dg_dx3]. repeat split; component Hok.
Qed.

Lemma dg_dx2_components (x1 x2 x3 aa r0 : R) (m : MetricArrays) :
  metric_layout_ok ->
  let out := SchildWH x1 x2 x3 aa r0 m in
  dg_dx2 out I00 = 0 /\ dg_dx2 out I11 = 0 /\ dg_dx2 out I22 = 0 /\
  dg_dx2 out I33 = 2 * x1 * x1 * sin x2 * cos x2 /\
  dg_dx2 out I01 = 0 /\ dg_dx2 out I02 = 0 /\ dg_dx2 out I03 = 0 /\
  dg_dx2 out I12 = 0 /\ dg_dx2 out I13 = 0 /\ dg_dx2 out I23 = 0.
Proof.
  intros Hok out. unfold out, SchildWH. cbv zeta.
  cbn [g g_inv dg_dx1 dg_dx2 dg_dx3]. repeat split; component Hok.
Qed.

(** The loop over [n < NMETRIC] zeroes every component of [dg_dx3]. *)
Lemma dg_dx3_components (x1 x2 x3 aa r0 : R) (m : MetricArrays) (n : Z) :
  (0 <= n < NMETRIC)%Z ->
  dg_dx3 (SchildWH x1 x2 x3 aa r0 m) n = 0.
Proof.
  intros Hn. unfold SchildWH. cbv zeta. cbn [dg_dx3].
  apply (for_loop_once (fun a : MArr => a n) (fun _ => 0) _ n); [exact Hn | |].
  - intros a. apply set_eq.
  - intros i a _ Hne. apply set_neq. congruence.
Qed.

(** *** Derivatives of the closed forms *)

Lemma dlim_replace (f h : R -> R) (x l l' : R) :
  (forall z, f z = h z) -> l = l' ->
  derivable_pt_lim f x l -> derivable_pt_lim h x l'.
Proof.
  intros Hext <- Hf. exact (derivable_pt_lim_ext f h x l Hext Hf).
Qed.

Lemma d_const (c x : R) : derivable_pt_lim (fun _ => c) x 0.
Proof. apply (derivable_pt_lim_const c). Qed.

Lemma d_over (c x : R) :
  x <> 0 -> derivable_pt_lim (fun z => c / z) x (- c / (x * x)).
Proof.
  intros Hx.
  assert (D := derivable_pt_lim_div (fct_cte c) id x 0 1
                 (derivable_pt_lim_const c x) (derivable_pt_lim_id x) Hx).
  eapply dlim_replace; [ | | exact D].
  - intros z. reflexivity.
  - unfold id, fct_cte, Rsqr. field. exact Hx.
Qed.

(** The redshift factor [-exp(2 * (-aa / r))] and its true derivative. *)
Lemma d_g00 (aa x : R) :
  x <> 0 ->
  derivable_pt_lim (fun z => - exp (2 * ((- aa) / z))) x
                   (- (2) * exp (2 * ((- aa) / x)) * (aa / (x * x))).
Proof.
  intros Hx.
  assert (D1 := derivable_pt_lim_scal (fun z => (- aa) / z) 2 x _
                  (d_over (- aa) x Hx)).
  assert (D2 := derivable_pt_lim_comp _ exp x _ _ D1
                  (derivable_pt_lim_exp _)).
  assert (D := derivable_pt_lim_opp _ x _ D2).
  eapply dlim_replace; [ | | exact D].
  - intros z. reflexivity.
  - unfold mult_real_fct. field. exact Hx.
Qed.

(** The radial factor [1 / (1 - r0 / r)]. *)
Lemma d_g11 (r0 x : R) :
  x <> 0 -> x <> r0 ->
  derivable_pt_lim (fun z => 1 / (1 - r0 / z)) x
                   ((x * 0 - r0) / ((x - r0) * (x - r0))).
Proof.
  intros Hx Hr.
  assert (Hden : 1 - r0 / x <> 0).
  { intros Hc. apply Hr.
    assert (Hm : (1 - r0 / x) * x = x - r0) by (field; exact Hx).
    rewrite Hc in Hm. lra. }
  assert (D1 := derivable_pt_lim_minus (fct_cte 1) (fun z => r0 / z) x _ _
                  (derivable_pt_lim_const 1 x) (d_over r0 x Hx)).
  assert (D := derivable_pt_lim_div (fct_cte 1) _ x _ _
                 (derivable_pt_lim_const 1 x) D1 Hden).
  eapply dlim_replace; [ | | exact D].
  - intros z. reflexivity.
  - unfold minus_fct, fct_cte, Rsqr. field.
    repeat split; try assumption; lra.
Qed.

Lemma d_square (c x : R) :
  derivable_pt_lim (fun z => z * z * c) x (2 * x * c).
Proof.
  assert (D1 := derivable_pt_lim_mult id id x 1 1
                  (derivable_pt_lim_id x) (derivable_pt_lim_id x)).
  assert (D := derivable_pt_lim_mult _ (fct_cte c) x _ _ D1
                 (derivable_pt_lim_const c x)).
  eapply dlim_replace; [ | | exact D].
  - intros z. reflexivity.
  - unfold mult_fct, id, fct_cte. ring.
Qed.

Lemma d_sin_square (c x : R) :
  derivable_pt_lim (fun z => c * sin z * sin z) x (2 * c * sin x * cos x).
Proof.
  assert (D1 := derivable_pt_lim_mult sin sin x _ _
                  (derivable_pt_lim_sin x) (derivable_pt_lim_sin x)).
  assert (D := derivable_pt_lim_scal _ c x _ D1).
  eapply dlim_replace; [ | | exact D].
  - intros z. unfold mult_real_fct, mult_fct. ring.
  - ring.
Qed.

(** *** The metric as a whole *)

(** X13. The contravariant components are the inverse of the covariant ones:
    the tensor is diagonal, and away from [r = 0], from the throat [r = r0]
    and from the axis [sin(theta) = 0] the diagonal entries are reciprocal. *)
Theorem SchildWH_inverse (x1 x2 x3 aa r0 : R) (m : MetricArrays) :
  metric_layout_ok ->
  x1 <> 0 -> x1 <> r0 -> sin x2 <> 0 ->
  let out := SchildWH x1 x2 x3 aa r0 m in
  Forall (fun n => g out n * g_inv out n = 1) [I00; I11; I22; I33] /\
  Forall (fun n => g out n = 0 /\ g_inv out n = 0)
         [I01; I02; I03; I12; I13; I23].
Proof.
  intros Hok Hx Hr Hs out.
  destruct (g_components x1 x2 x3 aa r0 m Hok)
    as (G00 & G11 & G22 & G33 & G01 & G02 & G03 & G12 & G13 & G23).
  destruct (g_inv_components x1 x2 x3 aa r0 m Hok)
    as (J00 & J11 & J22 & J33 & J01 & J02 & J03 & J12 & J13 & J23).
  fold out in G00, G11, G22, G33, G01, G02, G03, G12, G13, G23,
    J00, J11, J22, J33, J01, J02, J03, J12, J13, J23.
  split.
  - repeat (constructor; [|]); try constructor.
    + rewrite G00, J00.
      replace (- exp (2 * (- aa / x1)) * - exp (- (2) * (- aa / x1)))
        with (exp (2 * (- aa / x1)) * exp (- (2) * (- aa / x1))) by ring.
      rewrite <- exp_plus.
      replace (2 * (- aa / x1) + - (2) * (- aa / x1)) with 0 by ring.
      apply exp_0.
    + rewrite G11, J11. field. split; [exact Hx|].
      intros Hc. apply Hr. lra.
    + rewrite G22, J22. field. exact Hx.
    + rewrite G33, J33. field. split; assumption.
  - repeat (constructor; [split; assumption|]). constructor.
Qed.

(** X14. Every derivative entry but one is the partial derivative of the
    covariant component it belongs to: all ten in [theta] and in [phi],
    and all but [I00] in [r] (away from [r = 0] and the throat). *)
Theorem SchildWH_derivatives (x1 x2 x3 aa r0 : R) (m : MetricArrays) (n : Z) :
  metric_layout_ok ->
  x1 <> 0 -> x1 <> r0 ->
  In n metric_slots ->
  let out := SchildWH x1 x2 x3 aa r0 m in
  (n <> I00 ->
   derivable_pt_lim (g_along_x1 x1 x2 x3 aa r0 m n) x1 (dg_dx1 out n)) /\
  derivable_pt_lim (g_along_x2 x1 x2 x3 aa r0 m n) x2 (dg_dx2 out n) /\
  derivable_pt_lim (g_along_x3 x1 x2 x3 aa r0 m n) x3 (dg_dx3 out n).
Proof.
  intros Hok Hx Hr Hn out.
  assert (Hbound : (0 <= n < NMETRIC)%Z).
  { destruct Hok as [_ Hb]. rewrite Forall_forall in Hb. now apply Hb. }
  destruct (dg_dx1_components x1 x2 x3 aa r0 m Hok)
    as (A00 & A11 & A22 & A33 & A01 & A02 & A03 & A12 & A13 & A23).
  destruct (dg_dx2_components x1 x2 x3 aa r0 m Hok)
    as (B00 & B11 & B22 & B33 & B01 & B02 & B03 & B12 & B13 & B23).
  fold out in A00, A11, A22, A33, A01, A02, A03, A12, A13, A23,
    B00, B11, B22, B33, B01, B02, B03, B12, B13, B23.
  assert (G : forall y1 y2 y3,
    let o := SchildWH y1 y2 y3 aa r0 m in
    g o I00 = - exp (2 * ((- aa) / y1)) /\
    g o I11 = 1 / (1 - r0 / y1) /\
    g o I22 = y1 * y1 /\
    g o I33 = y1 * y1 * sin y2 * sin y2 /\
    g o I01 = 0 /\ g o I02 = 0 /\ g o I03 = 0 /\
    g o I12 = 0 /\ g o I13 = 0 /\ g o I23 = 0)
    by (intros y1 y2 y3; now apply g_components).
  split; [|split].
  - (* along r *)
    intros Hne. unfold g_along_x1.
    unfold metric_slots in Hn. simpl in Hn.
    destruct Hn as [<- | [<- | [<- | [<- | [<- | [<- | [<- | [<- | [<- |
                   [<- | []]]]]]]]]]].
    + congruence.
    + rewrite A01. apply (dlim_replace (fun _ => 0) _ _ 0); [|reflexivity|apply d_const].
      intros z. symmetry. apply (G z x2 x3).
    + rewrite A02. apply (dlim_replace (fun _ => 0) _ _ 0); [|reflexivity|apply d_const].
      intros z. symmetry. apply (G z x2 x3).
    + rewrite A03. apply (dlim_replace (fun _ => 0) _ _ 0); [|reflexivity|apply d_const].
      intros z. symmetry. apply (G z x2 x3).
    + rewrite A11.
      apply (dlim_replace (fun z => 1 / (1 - r0 / z)) _ _
               ((x1 * 0 - r0) / ((x1 - r0) * (x1 - r0))));
        [|reflexivity|now apply d_g11].
      intros z. symmetry. apply (G z x2 x3).
    + rewrite A12. apply (dlim_replace (fun _ => 0) _ _ 0); [|reflexivity|apply d_const].
      intros z. symmetry. apply (G z x2 x3).
    + rewrite A13. apply (dlim_replace (fun _ => 0) _ _ 0); [|reflexivity|apply d_const].
      intros z. symmetry. apply (G z x2 x3).
    + rewrite A22.
      apply (dlim_replace (fun z => z * z * 1) _ _ (2 * x1 * 1));
        [|ring|apply d_square].
      intros z. rewrite (proj1 (proj2 (proj2 (G z x2 x3)))). ring.
    + rewrite A23. apply (dlim_replace (fun _ => 0) _ _ 0); [|reflexivity|apply d_const].
      intros z. symmetry. apply (G z x2 x3).
    + rewrite A33.
      apply (dlim_replace (fun z => z * z * (sin x2 * sin x2)) _ _
               (2 * x1 * (sin x2 * sin x2)));
        [|ring|apply d_square].
      intros z. rewrite (proj1 (proj2 (proj2 (proj2 (G z x2 x3))))). ring.
  - (* along theta *)
    unfold g_along_x2.
    unfold metric_slots in Hn. simpl in Hn.
    destruct Hn as [<- | [<- | [<- | [<- | [<- | [<- | [<- | [<- | [<- |
                   [<- | []]]]]]]]]]].
    + rewrite B00.
      apply (dlim_replace (fun _ => - exp (2 * ((- aa) / x1))) _ _ 0);
        [|reflexivity|apply d_const].
      intros z. symmetry. apply (G x1 z x3).
    + rewrite B01. apply (dlim_replace (fun _ => 0) _ _ 0); [|reflexivity|apply d_const].
      intros z. symmetry. apply (G x1 z x3).
    + rewrite B02. apply (dlim_replace (fun _ => 0) _ _ 0); [|reflexivity|apply d_const].
      intros z. symmetry. apply (G x1 z x3).
    + rewrite B03. apply (dlim_replace (fun _ => 0) _ _ 0); [|reflexivity|apply d_const].
      intros z. symmetry. apply (G x1 z x3).
    + rewrite B11.
      apply (dlim_replace (fun _ => 1 / (1 - r0 / x1)) _ _ 0);
        [|reflexivity|apply d_const].
      intros z. symmetry. apply (G x1 z x3).
    + rewrite B12. apply (dlim_replace (fun _ => 0) _ _ 0); [|reflexivity|apply d_const].
      intros z. symmetry. apply (G x1 z x3).
    + rewrite B13. apply (dlim_replace (fun _ => 0) _ _ 0); [|reflexivity|apply d_const].
      intros z. symmetry. apply (G x1 z x3).
    + rewrite B22.
      apply (dlim_replace (fun _ => x1 * x1) _ _ 0);
        [|reflexivity|apply d_const].
      intros z. symmetry. apply (G x1 z x3).
    + rewrite B23. apply (dlim_replace (fun _ => 0) _ _ 0); [|reflexivity|apply d_const].
      intros z. symmetry. apply (G x1 z x3).
    + rewrite B33.
      apply (dlim_replace (fun z => (x1 * x1) * sin z * sin z) _ _
               (2 * (x1 * x1) * sin x2 * cos x2));
        [|ring|apply d_sin_square].
      intros z. rewrite (proj1 (proj2 (proj2 (proj2 (G x1 z x3))))). ring.
  - (* along phi: no component depends on it *)
    unfold g_along_x3, out. rewrite dg_dx3_components by exact Hbound.
    apply (dlim_replace (fun _ => g (SchildWH x1 x2 x3 aa r0 m) n) _ _ 0);
      [|reflexivity|apply d_const].
    intros z. reflexivity.
Qed.

(** X15. The exception: [dg_dx1(I00)] carries [exp(-2 * redshift)] where the
    derivative of [g(I00) = -exp(2 * redshift)] has [exp(2 * redshift)].
    It is the derivative multiplied by [exp(4 * aa / r)], and it equals the
    derivative exactly when the tidal parameter [aa] is zero. *)
Theorem SchildWH_dg_dx1_I00 (x1 x2 x3 aa r0 : R) (m : MetricArrays) :
  metric_layout_ok ->
  x1 <> 0 ->
  let out := SchildWH x1 x2 x3 aa r0 m in
  let d := - (2) * exp (2 * ((- aa) / x1)) * (aa / (x1 * x1)) in
  derivable_pt_lim (g_along_x1 x1 x2 x3 aa r0 m I00) x1 d /\
  dg_dx1 out I00 = exp (4 * aa / x1) * d /\
  (dg_dx1 out I00 = d <-> aa = 0).
Proof.
  intros Hok Hx out d.
  destruct (dg_dx1_components x1 x2 x3 aa r0 m Hok) as (A00 & _).
  fold out in A00.
  assert (Hexp : exp (- (2) * ((- aa) / x1)) =
                 exp (4 * aa / x1) * exp (2 * ((- aa) / x1))).
  { rewrite <- exp_plus. f_equal. field. exact Hx. }
  split; [|split].
  - unfold g_along_x1.
    apply (dlim_replace (fun z => - exp (2 * ((- aa) / z))) _ _ d);
      [|reflexivity|now apply d_g00].
    intros z. symmetry. apply (g_components z x2 x3 aa r0 m Hok).
  - rewrite A00, Hexp. unfold d. ring.
  - rewrite A00. unfold d. split.
    + intros Heq.
      assert (Hprod : (aa / (x1 * x1)) *
                      (exp (- (2) * ((- aa) / x1)) - exp (2 * ((- aa) / x1))) = 0)
        by lra.
      apply Rmult_integral in Hprod. destruct Hprod as [Hz | Hz].
      * unfold Rdiv in Hz. apply Rmult_integral in Hz.
        destruct Hz as [Hz | Hz]; [exact Hz|].
        exfalso. apply (Rinv_neq_0_compat (x1 * x1)); [|exact Hz].
        now apply Rmult_integral_contrapositive_currified.
      * assert (He : exp (- (2) * ((- aa) / x1)) = exp (2 * ((- aa) / x1)))
          by lra.
        apply exp_inv in He.
        assert (Hq : aa / x1 = 0) by (unfold Rdiv in *; lra).
        unfold Rdiv in Hq. apply Rmult_integral in Hq.
        destruct Hq as [Hq | Hq]; [exact Hq|].
        exfalso. now apply (Rinv_neq_0_compat x1).
    + intros ->. unfold Rdiv. rewrite !Rmult_0_l, !Rmult_0_r. reflexivity.
Qed.

End MetricFacts.

Lemma sample_metric_layout_ok : @metric_layout_ok sample_metric_layout.
Proof.
  unfold metric_layout_ok, metric_slots; simpl. split.
  - repeat (constructor; [simpl; lia|]). constructor.
  - repeat (constructor; [lia|]). constructor.
Qed.

Lemma sin_PI2_neq_0 : sin (PI / 2) <> 0.
Proof. rewrite sin_PI2. lra. Qed.

Lemma SchildWH_inverse_witness :
  let out := @SchildWH sample_metric_layout 2 (PI / 2) 0 (1 / 2) 1
                       sample_arrays in
  Forall (fun n => g out n * g_inv out n = 1) [0; 4; 7; 9]%Z /\
  Forall (fun n => g out n = 0 /\ g_inv out n = 0) [1; 2; 3; 5; 6; 8]%Z.
Proof.
  apply (@SchildWH_inverse sample_metric_layout 2 (PI / 2) 0 (1 / 2) 1
           sample_arrays sample_metric_layout_ok).
  - lra.
  - lra.
  - exact sin_PI2_neq_0.
Defined.

Lemma SchildWH_derivatives_witness :
  let out := @SchildWH sample_metric_layout 2 (PI / 2) 0 (1 / 2) 1
                       sample_arrays in
  derivable_pt_lim
    (@g_along_x1 sample_metric_layout 2 (PI / 2) 0 (1 / 2) 1 sample_arrays 4%Z)
    2 (dg_dx1 out 4%Z).
Proof.
  intros out.
  assert (Hx : (2:R) <> 0) by lra.
  assert (Hr : (2:R) <> 1) by lra.
  assert (Hn : In 4%Z (@metric_slots sample_metric_layout))
    by (simpl; tauto).
  apply (proj1 (@SchildWH_derivatives sample_metric_layout 2 (PI / 2) 0
                  (1 / 2) 1 sample_arrays 4%Z sample_metric_layout_ok
                  Hx Hr Hn)).
  simpl. lia.
Defined.

Lemma SchildWH_dg_dx1_I00_witness :
  let out := @SchildWH sample_metric_layout 2 (PI / 2) 0 (1 / 2) 1
                       sample_arrays in
  let d := - (2) * exp (2 * ((- (1 / 2)) / 2)) * ((1 / 2) / (2 * 2)) in
  dg_dx1 out 0%Z = exp (4 * (1 / 2) / 2) * d.
Proof.
  assert (Hx : (2:R) <> 0) by lra.
  exact (proj1 (proj2 (@SchildWH_dg_dx1_I00 sample_metric_layout 2 (PI / 2) 0
                         (1 / 2) 1 sample_arrays sample_metric_layout_ok Hx))).
Defined.

End SchildWHMetricFacts.

(* ------------------------------------------------------------------ *)
(** ** The root finders *)

Module SchildWHFinderFacts.
Import SchildWHPgen.
#[local] Open Scope R_scope.

(** *** Facts that hold for any arithmetic *)

Section AnyArithmetic.
Context {T : Type} `{RealOps T}.
Variable residual : T -> T -> T.

Lemma golden_step_ok (r : T) (s : Golden T) :
  golden_ok residual r s -> golden_ok residual r (golden_step residual r s).
Proof.
  unfold golden_ok, golden_step. intros Hs.
  destruct (gs_larger_to_right s).
  - destruct (ltb _ (gs_res_mid s)); simpl; [reflexivity | exact Hs].
  - destruct (ltb _ (gs_res_mid s)); simpl; [reflexivity | exact Hs].
Qed.

Lemma golden_loop_sound (r : T) (n : nat) :
  forall s t, golden_ok residual r s ->
              golden_loop residual r n s = Some t ->
              ltb (residual t r) c_zero = true.
Proof.
  induction n as [|n IH]; intros s t Hs Hrun; simpl in Hrun.
  - discriminate.
  - destruct (ltb (gs_res_mid s) c_zero) eqn:Hneg.
    + inversion Hrun; subst. rewrite <- Hs. exact Hneg.
    + apply (IH (golden_step residual r s)); [|exact Hrun].
      now apply golden_step_ok.
Qed.

Lemma golden_loop_first (r : T) (n : nat) (s : Golden T) :
  ltb (gs_res_mid s) c_zero = true ->
  golden_loop residual r (S n) s = Some (gs_mid s).
Proof. intros Hneg. simpl. now rewrite Hneg. Qed.

(** X16. Whatever [TemperatureMin] returns, when it is
    not [NAN], is a temperature at which the residual was computed and
    tested negative. No property of the arithmetic is used: this holds for
    doubles as it does for exact numbers. *)
Theorem TemperatureMin_sound (r t_min t_max t : T) :
  TemperatureMin residual r t_min t_max = Some t ->
  ltb (residual t r) c_zero = true.
Proof.
  unfold TemperatureMin. apply golden_loop_sound. reflexivity.
Qed.

End AnyArithmetic.

Lemma TemperatureMin_sound_witness :
  @ltb _ Q_ops
    (toy_residual (QArith_base.Qmake 3819660112501051 1000000000000000)
                  (QArith_base.Qmake 1 1))
    (@c_zero _ Q_ops) = true.
Proof.
  apply (@TemperatureMin_sound _ Q_ops toy_residual (QArith_base.Qmake 1 1)
           (QArith_base.Qmake 0 1) (QArith_base.Qmake 10 1)).
  vm_compute. reflexivity.
Defined.

(** *** Facts over the real numbers *)

Section OverReals.
Variable residual : R -> R -> R.

Lemma ltb_true (x y : R) : @ltb R R_ops x y = true <-> x < y.
Proof.
  simpl. destruct (Rlt_dec x y); split; intros; try discriminate;
    try reflexivity; try assumption; contradiction.
Qed.

Lemma ltb_false (x y : R) : @ltb R R_ops x y = false <-> y <= x.
Proof.
  simpl. destruct (Rlt_dec x y); split; intros; try discriminate;
    try reflexivity; lra.
Qed.

Lemma golden_step_within (r lo hi : R) (s : Golden R) :
  golden_within lo hi s ->
  golden_within lo hi (@golden_step R R_ops residual r s).
Proof.
  unfold golden_within, golden_step. intros (H1 & H2 & H3 & H4).
  destruct (gs_larger_to_right s).
  - destruct (ltb _ (gs_res_mid s)); cbn [gs_min gs_mid gs_max];
      cbn [add sub mul c_ratio R_ops]; lra.
  - destruct (ltb _ (gs_res_mid s)); cbn [gs_min gs_mid gs_max];
      cbn [add sub mul c_ratio R_ops]; lra.
Qed.

Lemma golden_loop_within (r lo hi : R) (n : nat) :
  forall s t, golden_within lo hi s ->
              @golden_loop R R_ops residual r n s = Some t ->
              lo <= t <= hi.
Proof.
  induction n as [|n IH]; intros s t Hs Hrun; simpl in Hrun.
  - discriminate.
  - destruct (Rlt_dec (gs_res_mid s) 0).
    + inversion Hrun; subst. unfold golden_within in Hs. lra.
    + apply (IH (@golden_step R R_ops residual r s)); [|exact Hrun].
      now apply golden_step_within.
Qed.

Lemma golden_loop_none (r lo hi : R) (n : nat) :
  (forall t, lo <= t <= hi -> 0 <= residual t r) ->
  forall s, golden_within lo hi s -> golden_ok residual r s ->
            @golden_loop R R_ops residual r n s = None.
Proof.
  intros Hpos. induction n as [|n IH]; intros s Hs Hok; simpl.
  - reflexivity.
  - destruct (Rlt_dec (gs_res_mid s) 0) as [Hneg | _].
    + exfalso. rewrite Hok in Hneg.
      assert (Hin : lo <= gs_mid s <= hi)
        by (unfold golden_within in Hs; lra).
      specialize (Hpos _ Hin). lra.
    + apply IH; [now apply golden_step_within | now apply golden_step_ok].
Qed.

Lemma golden_start_within (r t_min t_max : R) :
  t_min <= t_max ->
  golden_within t_min t_max
    {| gs_min := t_min;
       gs_mid := t_min + 3819660112501051 / 10000000000000000 * (t_max - t_min);
       gs_max := t_max;
       gs_res_mid :=
         residual
           (t_min + 3819660112501051 / 10000000000000000 * (t_max - t_min)) r;
       gs_larger_to_right := true |}.
Proof.
  intros Hle. unfold golden_within. cbn [gs_min gs_mid gs_max]. lra.
Qed.

(** X17. Over the reals and for ordered bounds, the
    temperature that [TemperatureMin] returns lies between the bounds it
    was given. *)
Theorem TemperatureMin_between (r t_min t_max t : R) :
  t_min <= t_max ->
  @TemperatureMin R R_ops residual r t_min t_max = Some t ->
  t_min <= t <= t_max.
Proof.
  intros Hle Hrun. unfold TemperatureMin in Hrun.
  eapply golden_loop_within; [|exact Hrun].
  apply (golden_start_within r), Hle.
Qed.

(** X18. Where the residual is negative nowhere between
    the bounds, [TemperatureMin] returns [NAN] after its thirty
    iterations. *)
Theorem TemperatureMin_nan (r t_min t_max : R) :
  t_min <= t_max ->
  (forall t, t_min <= t <= t_max -> 0 <= residual t r) ->
  @TemperatureMin R R_ops residual r t_min t_max = None.
Proof.
  intros Hle Hpos. unfold TemperatureMin.
  eapply golden_loop_none; [exact Hpos | | reflexivity].
  apply (golden_start_within r), Hle.
Qed.

(** The bisection loop keeps a bracket with residuals of opposite sign,
    halves it on each iteration, and returns a point of it. *)
Lemma bisect_loop_bracket (r : R) (n : nat) :
  forall s,
    bs_min s <= bs_max s ->
    bs_res_min s = residual (bs_min s) r ->
    opposite_signs (residual (bs_min s) r) (residual (bs_max s) r) ->
    (n = O -> bs_min s <= bs_mid s <= bs_max s) ->
    let t := @bisect_loop R R_ops residual r n s in
    bs_min s <= t <= bs_max s /\
    (Rabs (residual t r) < 1 / 1000000 \/
     exists lo hi,
       bs_min s <= lo /\ lo <= t /\ t <= hi /\ hi <= bs_max s /\
       opposite_signs (residual lo r) (residual hi r) /\
       (hi - lo < 1 / 1000000 \/ hi - lo <= (bs_max s - bs_min s) / 2 ^ n)).
Proof.
  induction n as [|n IH]; intros s Hle Hres Hopp Hmid.
  - simpl. specialize (Hmid eq_refl). split; [exact Hmid|].
    right. exists (bs_min s), (bs_max s).
    repeat split; first [lra | exact Hopp | (right; simpl; lra)].
  - cbn [bisect_loop]. cbn [add sub div c_two c_tol_temperature
                             c_tol_residual abs ltb R_ops].
    set (t_mid := (bs_min s + bs_max s) / 2).
    assert (Hmid_in : bs_min s <= t_mid <= bs_max s) by (unfold t_mid; lra).
    destruct (Rlt_dec (bs_max s - bs_min s) (1 / 1000000)) as [Hnarrow|Hwide].
    + split; [exact Hmid_in|].
      right. exists (bs_min s), (bs_max s).
      repeat split; first [lra | exact Hopp | (left; exact Hnarrow)].
    + destruct (Rlt_dec (Rabs (residual t_mid r)) (1 / 1000000))
        as [Hsmall|Hbig].
      * split; [exact Hmid_in | left; exact Hsmall].
      * assert (Hnz : residual t_mid r <> 0).
        { intros Hz. rewrite Hz, Rabs_R0 in Hbig. lra. }
        assert (Hpow : 0 < 2 ^ n) by (apply pow_lt; lra).
        assert (Hhalf : (bs_max s - bs_min s) / 2 / 2 ^ n
                        = (bs_max s - bs_min s) / 2 ^ S n).
        { simpl. field. lra. }
        assert (Hright : bs_max s - t_mid = (bs_max s - bs_min s) / 2)
          by (unfold t_mid; lra).
        assert (Hleft : t_mid - bs_min s = (bs_max s - bs_min s) / 2)
          by (unfold t_mid; lra).
        unfold same_sign. cbn [ltb c_zero R_ops]. rewrite Hres.
        destruct (Rlt_dec (residual t_mid r) 0) as [Hm|Hm];
          destruct (Rlt_dec (residual (bs_min s) r) 0) as [Hl|Hl];
          destruct (Rlt_dec 0 (residual t_mid r)) as [Hm'|Hm'];
          destruct (Rlt_dec 0 (residual (bs_min s) r)) as [Hl'|Hl'];
          cbn [andb orb]; try (exfalso; lra);
          try (exfalso; unfold opposite_signs in Hopp; lra).
        all: match goal with
             | |- context [bisect_loop _ _ _ ?s'] =>
                 destruct (IH s') as
                   (Hin & [Hdone | (lo & hi & H1 & H2 & H3 & H4 & H5 & H6)]);
                 cbn [bs_min bs_max bs_res_min bs_mid] in *;
                 [ lra
                 | first [reflexivity | exact Hres]
                 | unfold opposite_signs in *; lra
                 | intros _; lra
                 | split; [lra | left; exact Hdone]
                 | split; [lra | right; exists lo, hi;
                   repeat split;
                   [ lra | exact H2 | exact H3 | lra | exact H5
                   | destruct H6 as [H6|H6]; [left; exact H6 | right];
                     rewrite <- Hhalf;
                     first [rewrite Hright in H6 | rewrite Hleft in H6];
                     exact H6 ] ] ]
             end.
Qed.

(** What [TemperatureBisect] returns over the reals, when it is not [NAN]:
    a point between the bounds at which the residual is below the
    tolerance, or a point of a bracket with residuals of opposite sign that
    is narrower than the tolerance or than the interval halved twenty
    times. *)
Lemma TemperatureBisect_bracket (r t_min t_max uninit t : R) :
  t_min <= t_max ->
  @TemperatureBisect R R_ops residual r t_min t_max uninit = Some t ->
  t_min <= t <= t_max /\
  (Rabs (residual t r) < 1 / 1000000 \/
   exists lo hi,
     t_min <= lo /\ lo <= t /\ t <= hi /\ hi <= t_max /\
     opposite_signs (residual lo r) (residual hi r) /\
     (hi - lo < 1 / 1000000 \/ hi - lo <= (t_max - t_min) / 2 ^ 20)).
Proof.
  intros Hle Hrun. unfold TemperatureBisect in Hrun.
  cbn [abs c_tol_residual ltb R_ops] in Hrun.
  destruct (Rlt_dec (Rabs (residual t_min r)) (1 / 1000000)) as [Ha|Ha].
  { injection Hrun as <-. split; [lra | left; exact Ha]. }
  destruct (Rlt_dec (Rabs (residual t_max r)) (1 / 1000000)) as [Hb|Hb].
  { injection Hrun as <-. split; [lra | left; exact Hb]. }
  assert (Hanz : residual t_min r <> 0).
  { intros Hz. rewrite Hz, Rabs_R0 in Ha. lra. }
  assert (Hbnz : residual t_max r <> 0).
  { intros Hz. rewrite Hz, Rabs_R0 in Hb. lra. }
  unfold same_sign in Hrun. cbn [ltb c_zero R_ops] in Hrun.
  assert (Hopp : opposite_signs (residual t_min r) (residual t_max r)).
  { unfold opposite_signs.
    destruct (Rlt_dec (residual t_min r) 0);
      destruct (Rlt_dec (residual t_max r) 0);
      destruct (Rlt_dec 0 (residual t_min r));
      destruct (Rlt_dec 0 (residual t_max r));
      cbn [andb orb] in Hrun; try discriminate; lra. }
  match type of Hrun with
  | context [bisect_loop _ _ ?k ?s'] =>
      pose proof (bisect_loop_bracket r k s') as HB;
      set (res := bisect_loop residual r k s') in *
  end.
  cbn [bs_min bs_max bs_res_min bs_mid] in HB.
  specialize (HB Hle eq_refl Hopp).
  assert (Hfuel : 20%nat = O -> t_min <= uninit <= t_max)
    by (intros Hz; discriminate Hz).
  specialize (HB Hfuel). cbv zeta in HB.
  assert (Ht : res = t).
  { destruct (orb _ _) in Hrun; [discriminate|]. now injection Hrun. }
  rewrite <- Ht. exact HB.
Qed.

Lemma bisect_loop_hit (r : R) (n : nat) (s : Bisect R) :
  ~ bs_max s - bs_min s < 1 / 1000000 ->
  Rabs (residual ((bs_min s + bs_max s) / 2) r) < 1 / 1000000 ->
  @bisect_loop R R_ops residual r (S n) s = (bs_min s + bs_max s) / 2.
Proof.
  intros Hwide Hsmall. cbn [bisect_loop].
  cbn [add sub div c_two c_tol_temperature c_tol_residual abs ltb R_ops].
  destruct (Rlt_dec (bs_max s - bs_min s) (1 / 1000000)); [contradiction|].
  destruct (Rlt_dec (Rabs (residual ((bs_min s + bs_max s) / 2) r))
                    (1 / 1000000)); [reflexivity | contradiction].
Qed.

(** X19. Over the reals, for ordered bounds and a residual that is
    continuous in the temperature between the bounds, what
    [TemperatureBisect] returns (when it is not [NAN]) lies between the
    bounds, and either its residual is below [1.0e-6] or a true root of
    the residual lies within [1.0e-6], or within the interval halved
    twenty times, of it. *)
Theorem TemperatureBisect_root (r t_min t_max uninit t : R) :
  (forall x, t_min <= x <= t_max -> continuity_pt (fun x => residual x r) x) ->
  t_min <= t_max ->
  @TemperatureBisect R R_ops residual r t_min t_max uninit = Some t ->
  t_min <= t <= t_max /\
  (Rabs (residual t r) < 1 / 1000000 \/
   exists x, t_min <= x <= t_max /\ residual x r = 0 /\
             Rabs (t - x) <= Rmax (1 / 1000000) ((t_max - t_min) / 2 ^ 20)).
Proof.
  intros Hcont Hle Hrun.
  destruct (TemperatureBisect_bracket r t_min t_max uninit t Hle Hrun)
    as (Hin & [Hsmall | (lo & hi & H1 & H2 & H3 & H4 & Hopp & Hw)]).
  - split; [exact Hin | left; exact Hsmall].
  - split; [exact Hin | right].
    assert (Hroot : exists x, lo <= x <= hi /\ residual x r = 0).
    { assert (Hlohi : lo < hi).
      { destruct (Rle_lt_or_eq_dec lo hi) as [Hlt | Heq]; [lra | exact Hlt |].
        exfalso. subst hi. unfold opposite_signs in Hopp. lra. }
      destruct Hopp as [[Hlo Hhi] | [Hlo Hhi]].
      - destruct (IVT_interv (fun x => residual x r) lo hi) as (x & Hx & Hz);
          [intros a Ha; apply Hcont; lra | exact Hlohi | exact Hlo | exact Hhi |].
        exists x. split; assumption.
      - destruct (IVT_interv (fun x => - residual x r) lo hi)
          as (x & Hx & Hz); [ | exact Hlohi | lra | lra | ].
        + intros a Ha.
          apply (continuity_pt_opp (fun x => residual x r) a).
          apply Hcont. lra.
        + exists x. split; [exact Hx | lra]. }
    destruct Hroot as (x & Hx & Hz).
    exists x. split; [lra|]. split; [exact Hz|].
    apply Rle_trans with (hi - lo).
    + unfold Rabs. destruct (Rcase_abs (t - x)); lra.
    + destruct Hw as [Hw|Hw].
      * apply Rle_trans with (1 / 1000000); [lra | apply Rmax_l].
      * apply Rle_trans with ((t_max - t_min) / 2 ^ 20);
          [exact Hw | apply Rmax_r].
Qed.

End OverReals.

Lemma Rabs_small_0 : Rabs 0 < 1 / 1000000.
Proof. rewrite Rabs_R0. lra. Qed.

Lemma TemperatureMin_between_witness :
  0 <= 0 + 3819660112501051 / 10000000000000000 * (10 - 0) <= 10.
Proof.
  apply (TemperatureMin_between line_residual 0 0 10); [lra|].
  unfold TemperatureMin. apply golden_loop_first. apply ltb_true.
  cbn [gs_res_mid add sub mul c_ratio c_zero R_ops].
  unfold line_residual. lra.
Defined.

Lemma TemperatureMin_nan_witness :
  @TemperatureMin R R_ops flat_residual 0 0 10 = None.
Proof.
  apply (TemperatureMin_nan flat_residual 0 0 10); [lra|].
  intros t _. unfold flat_residual. lra.
Defined.

End SchildWHFinderFacts.

(* ------------------------------------------------------------------ *)
(** ** The constants and the primitives of the problem generator *)

Module SchildWHRunFacts.
Import SchildWHPgen SchildWHFinderFacts.
#[local] Open Scope R_scope.

Lemma exp_twice_0 : exp (2 * 0) = 1.
Proof. replace (2 * 0) with 0 by ring. apply exp_0. Qed.

(** The constants of a run: the globals [aa] and [r0] are assigned
    nowhere, and the factor [1/4] is an integer quotient. *)
Lemma run_constants (mag : bool) (k rc bsq gamma : R) :
  let gl := globals_in_run mag k rc bsq gamma in
  aa gl = 0 /\ r0 gl = 0 /\ n_adi gl = 1 / (gamma - 1) /\
  r_crit gl = rc /\ c1 gl = 0 /\ c2 gl = 1.
Proof.
  unfold globals_in_run, prepare_constants, InitUserMeshData,
    globals_at_start.
  cbn [aa r0 n_adi r_crit c1 c2 k_adi bsq_over_rho].
  change (Z.quot 1 4) with 0%Z.
  replace (- 0 / rc) with 0 by (unfold Rdiv; ring).
  rewrite exp_twice_0.
  replace (0 * (1 - 1)) with 0 by ring. rewrite sqrt_0.
  repeat split; try reflexivity.
  - ring.
  - replace (1 / (gamma - 1) * (1 - 1)) with 0 by ring.
    replace (- 0 / _) with 0 by (unfold Rdiv; ring).
    unfold SQR. ring.
Qed.

(** With these constants the residual is a square minus one. *)
Lemma run_residual (gl : Globals) (t r : R) :
  aa gl = 0 -> c1 gl = 0 -> c2 gl = 1 ->
  TemperatureResidual gl t r = SQR (1 + (n_adi gl + 1) * t) - 1.
Proof.
  intros Haa Hc1 Hc2. unfold TemperatureResidual.
  rewrite Haa, Hc1, Hc2.
  replace (- (2) * (- 0 / r)) with 0 by (unfold Rdiv; ring).
  rewrite exp_0. unfold SQR, Rdiv. ring.
Qed.

Lemma square_minus_one_lower (n t : R) :
  0 < n -> 1 / 100 <= t ->
  1 / 50 <= SQR (1 + (n + 1) * t) - 1.
Proof.
  intros Hn Ht. unfold SQR.
  assert (Hx : 1 / 100 <= (n + 1) * t) by nra.
  nra.
Qed.

Lemma TemperatureBisect_nan_none (gl : Globals) (r t_end : R) :
  1 / 50 <= TemperatureResidual gl t_end r ->
  TemperatureBisect_nan gl r t_end = None.
Proof.
  intros Hbig. unfold TemperatureBisect_nan.
  cbn [abs c_tol_residual ltb R_ops].
  rewrite Rabs_pos_eq by lra.
  destruct (Rlt_dec _ _); [exfalso; lra | reflexivity].
Qed.

Lemma polytropic_index_pos (gamma : R) : 1 < gamma -> 0 < 1 / (gamma - 1).
Proof.
  intros Hg. unfold Rdiv. rewrite Rmult_1_l.
  apply Rinv_0_lt_compat. lra.
Qed.

(** X21. In a run of this problem generator the primitives are
    [NAN] at every radius: the globals [aa] and [r0] keep their start-up
    value zero and [1/4] is zero, so that the residual is negative at no
    temperature between [temp_min] and [temp_max]; [TemperatureMin]
    returns [NAN], and so does [TemperatureBisect]. The radius and the
    sonic radius are taken different from zero, where the divisions of
    the program are those of the reals. *)
Theorem CalculatePrimitives_in_run (mag : bool) (k rc bsq gamma r uninit : R) :
  1 < gamma -> rc <> 0 -> r <> 0 ->
  CalculatePrimitives (globals_in_run mag k rc bsq gamma) r
                      temp_min temp_max uninit = None.
Proof.
  intros Hgamma _ _.
  destruct (run_constants mag k rc bsq gamma)
    as (Haa & _ & Hn & _ & Hc1 & Hc2).
  set (gl := globals_in_run mag k rc bsq gamma) in *.
  assert (Hpos : 0 < n_adi gl) by (rewrite Hn; now apply polytropic_index_pos).
  assert (Hres : forall t, 1 / 100 <= t ->
                           1 / 50 <= TemperatureResidual gl t r).
  { intros t Ht. rewrite run_residual by assumption.
    now apply square_minus_one_lower. }
  unfold CalculatePrimitives.
  assert (Hmin : @TemperatureMin R R_ops (TemperatureResidual gl) r
                   temp_min temp_max = None).
  { unfold TemperatureMin.
    eapply (golden_loop_none (TemperatureResidual gl) r temp_min temp_max).
    - intros t [Ht _]. unfold temp_min in Ht. specialize (Hres t Ht). lra.
    - apply (golden_start_within (TemperatureResidual gl) r).
      unfold temp_min, temp_max. lra.
    - reflexivity. }
  rewrite Hmin.
  rewrite !TemperatureBisect_nan_none
    by (apply Hres; unfold temp_min, temp_max; lra).
  destruct (Rle_dec r (r_crit gl)); reflexivity.
Qed.

Lemma CalculatePrimitives_in_run_witness :
  CalculatePrimitives (globals_in_run false 1 8 0 (5 / 3)) 10
                      temp_min temp_max 0 = None.
Proof.
  apply (CalculatePrimitives_in_run false 1 8 0 (5 / 3) 10 0); lra.
Defined.



(** *** The program's residual with a radial flow *)

Lemma std_pow_positive (t y : R) : 0 < t -> std_pow t y = Rpower t y.
Proof.
  intros Ht. unfold std_pow.
  destruct (Req_dec_T t 0) as [Hz|_]; [exfalso; lra | reflexivity].
Qed.

Lemma Rpower_base_continuous (y t0 : R) :
  0 < t0 -> continuity_pt (fun t => Rpower t y) t0.
Proof.
  intros Ht0. apply derivable_continuous_pt.
  exists (y * Rpower t0 (y - 1)). now apply derivable_pt_lim_power.
Qed.

(** The residual of the program is continuous in the temperature at every
    positive temperature, whatever the constants, for a nonzero radius. *)
Lemma TemperatureResidual_continuous (gl : Globals) (r t0 : R) :
  r <> 0 -> 0 < t0 ->
  continuity_pt (fun t => TemperatureResidual gl t r) t0.
Proof.
  intros Hr Ht0.
  set (P := fun t : R => SQR (1 + (n_adi gl + 1) * t)).
  set (E := fct_cte (exp (- (2) * (- aa gl / r)))).
  set (C := fct_cte (SQR (c1 gl))).
  set (Q := fun t : R => SQR (SQR r) * Rpower t (2 * n_adi gl)).
  set (K := fct_cte (c2 gl)).
  apply (continuity_pt_locally_ext
           (P * (E + C / Q) - K)%F _ t0 t0 Ht0).
  - intros t Hdist. unfold Rdist in Hdist.
    assert (Ht : 0 < t).
    { unfold Rabs in Hdist. destruct (Rcase_abs (t - t0)); lra. }
    unfold TemperatureResidual, minus_fct, mult_fct, plus_fct, div_fct,
      P, E, C, Q, K, fct_cte.
    rewrite (std_pow_positive t) by exact Ht. reflexivity.
  - apply continuity_pt_minus; [|apply continuity_pt_const; now intros x y].
    apply continuity_pt_mult.
    + unfold P.
      apply (continuity_pt_mult (fun t => 1 + (n_adi gl + 1) * t)
                                (fun t => 1 + (n_adi gl + 1) * t)).
      * apply (continuity_pt_plus (fct_cte 1)
                 (fun t => (n_adi gl + 1) * t)).
        -- apply continuity_pt_const. now intros x y.
        -- apply (continuity_pt_scal id (n_adi gl + 1)).
           apply derivable_continuous_pt, derivable_pt_id.
      * apply (continuity_pt_plus (fct_cte 1)
                 (fun t => (n_adi gl + 1) * t)).
        -- apply continuity_pt_const. now intros x y.
        -- apply (continuity_pt_scal id (n_adi gl + 1)).
           apply derivable_continuous_pt, derivable_pt_id.
    + apply continuity_pt_plus; [apply continuity_pt_const; now intros x y|].
      apply continuity_pt_div.
      * apply continuity_pt_const. now intros x y.
      * unfold Q.
        apply (continuity_pt_scal (fun t => Rpower t (2 * n_adi gl))
                                  (SQR (SQR r))).
        now apply Rpower_base_continuous.
      * unfold Q, SQR. apply Rmult_integral_contrapositive_currified.
        -- repeat apply Rmult_integral_contrapositive_currified; exact Hr.
        -- apply Rgt_not_eq, exp_pos.
Qed.

(** With the sample flow the residual at radius one is
    [(1 + 3/2 t)^2 (1 + 1/t) - 1408/5], with roots near 1/250 and at 10. *)
Lemma flow_residual (t : R) :
  0 < t ->
  TemperatureResidual flow_globals t 1
  = SQR (1 + 3 / 2 * t) * (1 + 1 / t) - 1408 / 5.
Proof.
  intros Ht. unfold TemperatureResidual.
  cbn [aa c1 c2 n_adi flow_globals].
  replace (2 * (1 / 2)) with 1 by lra.
  rewrite std_pow_positive, Rpower_1 by exact Ht.
  replace (- (2) * (- 0 / 1)) with 0 by (unfold Rdiv; ring).
  rewrite exp_0. unfold SQR. field. lra.
Qed.

Lemma flow_residual_5 : TemperatureResidual flow_globals 5 1 = - (1949 / 10).
Proof. rewrite flow_residual by lra. unfold SQR. lra. Qed.

Lemma flow_residual_10 : TemperatureResidual flow_globals 10 1 = 0.
Proof. rewrite flow_residual by lra. unfold SQR. lra. Qed.

Lemma flow_residual_15 : 300 < TemperatureResidual flow_globals 15 1.
Proof. rewrite flow_residual by lra. unfold SQR. lra. Qed.

Lemma not_small_neg (x : R) : x < - (1) -> ~ Rabs x < 1 / 1000000.
Proof. intros Hx. rewrite Rabs_left by lra. lra. Qed.

Lemma not_small_pos (x : R) : 1 < x -> ~ Rabs x < 1 / 1000000.
Proof. intros Hx. rewrite Rabs_pos_eq by lra. lra. Qed.

(** The bisection between 5 and 15 finds the greater root at the first
    midpoint. *)
Lemma TemperatureBisect_flow :
  @TemperatureBisect R R_ops (TemperatureResidual flow_globals) 1 5 15 0
  = Some ((5 + 15) / 2).
Proof.
  unfold TemperatureBisect, same_sign.
  cbn [abs c_tol_residual c_zero ltb R_ops].
  pose proof flow_residual_15 as H15.
  rewrite flow_residual_5.
  destruct (Rlt_dec (Rabs (- (1949 / 10))) (1 / 1000000)) as [Hs|_];
    [exfalso; revert Hs; apply not_small_neg; lra|].
  destruct (Rlt_dec (Rabs (TemperatureResidual flow_globals 15 1))
                    (1 / 1000000)) as [Hs|_];
    [exfalso; revert Hs; apply not_small_pos; lra|].
  destruct (Rlt_dec (- (1949 / 10)) 0); [|exfalso; lra].
  destruct (Rlt_dec (TemperatureResidual flow_globals 15 1) 0);
    [exfalso; lra|].
  destruct (Rlt_dec 0 (- (1949 / 10))); [exfalso; lra|].
  cbn [andb orb]. f_equal.
  rewrite bisect_loop_hit; cbn [bs_min bs_max].
  - reflexivity.
  - lra.
  - replace ((5 + 15) / 2) with 10 by lra.
    rewrite flow_residual_10, Rabs_R0. lra.
Qed.

Lemma TemperatureBisect_root_witness :
  5 <= (5 + 15) / 2 <= 15 /\
  (Rabs (TemperatureResidual flow_globals ((5 + 15) / 2) 1) < 1 / 1000000 \/
   exists x, 5 <= x <= 15 /\ TemperatureResidual flow_globals x 1 = 0 /\
             Rabs ((5 + 15) / 2 - x)
             <= Rmax (1 / 1000000) ((15 - 5) / 2 ^ 20)).
Proof.
  apply (TemperatureBisect_root (TemperatureResidual flow_globals)
           1 5 15 0 ((5 + 15) / 2)).
  - intros x Hx. apply TemperatureResidual_continuous; lra.
  - lra.
  - exact TemperatureBisect_flow.
Defined.





End SchildWHRunFacts.
